(** * elementary-news-bot: the Markdown parser, the Article record and the
      posting orchestrator of [services/note_poster_service.py] and
      [models/article.py], embedded in Rocq.

    Python [str] values are sequences of Unicode code points; they are
    modelled as lists of code points ([N]).  The three regular expressions
    of the parser are given as matchers that are run by generic drivers for
    [re.search], [re.finditer] and [re.sub].  The browser automation of
    [post_article] is a program in a small monad over an event trace and
    the (mutable) article, with Python's [return], exceptions,
    [try/except] and [try/finally]. *)

From Stdlib Require Import NArith Lia.
From stdpp Require Import list strings gmap.

Local Open Scope nat_scope.

(** ** Python strings *)

Module PyStr.

(** A [str] is a list of code points. *)
Abbreviation pystr := (list N).

(** An ASCII literal as a [str]. *)
Definition s2p (s : string) : pystr :=
  map Ascii.N_of_ascii (String.list_ascii_of_string s).

Definition nl : N := 10%N.      (* \n *)
Definition sp : N := 32%N.      (* space *)
Definition hash : N := 35%N.    (* # *)
Definition tick : N := 96%N.    (* ` *)

(** The lines of a literal joined by [\n], for readable test inputs. *)
Fixpoint joinNL (ls : list string) : pystr :=
  match ls with
  | [] => []
  | [l] => s2p l
  | l :: ls' => s2p l ++ nl :: joinNL ls'
  end.

(** [str.isspace] on one code point (CPython's [_PyUnicode_IsWhitespace]). *)
Definition isspace (c : N) : bool :=
  ((9 <=? c) && (c <=? 13) || (28 <=? c) && (c <=? 32)
   || (c =? 133) || (c =? 160) || (c =? 5760)
   || (8192 <=? c) && (c <=? 8202)
   || (c =? 8232) || (c =? 8233) || (c =? 8239) || (c =? 8287)
   || (c =? 12288))%N.

Fixpoint drop_while {A} (p : A -> bool) (l : list A) : list A :=
  match l with
  | [] => []
  | x :: l' => if p x then drop_while p l' else l
  end.

Fixpoint take_while {A} (p : A -> bool) (l : list A) : list A :=
  match l with
  | [] => []
  | x :: l' => if p x then x :: take_while p l' else []
  end.

(** [s.lstrip()], [s.rstrip()] and [s.strip()]. *)
Definition lstrip (s : pystr) : pystr := drop_while isspace s.
Definition rstrip (s : pystr) : pystr := rev (drop_while isspace (rev s)).
Definition strip (s : pystr) : pystr := rstrip (lstrip s).

(** [s.startswith(p)]. *)
Fixpoint startswith (p s : pystr) : bool :=
  match p, s with
  | [], _ => true
  | _ :: _, [] => false
  | a :: p', b :: s' => (a =? b)%N && startswith p' s'
  end.

(** [s.find(p)]: the index of the first occurrence of [p] in [s]. *)
Fixpoint find (p s : pystr) : option nat :=
  if startswith p s then Some 0
  else match s with
       | [] => None
       | _ :: s' => option_map S (find p s')
       end.

(** [s.replace(old, new, 1)]: only the first occurrence is replaced. *)
Fixpoint replace_first (old new s : pystr) : pystr :=
  if startswith old s then new ++ drop (length old) s
  else match s with
       | [] => []
       | c :: s' => c :: replace_first old new s'
       end.

(** [s[a:b]] for [0 <= a], [0 <= b]. *)
Definition slice (s : pystr) (a b : nat) : pystr := take (b - a) (drop a s).

(** Truthiness of a [str]: the empty string is false. *)
Definition truthy (s : pystr) : bool :=
  match s with [] => false | _ :: _ => true end.

End PyStr.
Export PyStr.

(** ** The regular-expression drivers *)

Module Re.

(** A match object: [m.start()], [m.end()], [m.group(0)] and the
    captured groups. *)
Record rmatch (G : Type) := MkMatch {
  m_start : nat;
  m_end : nat;
  group0 : pystr;
  groups : G
}.
Arguments MkMatch {G}.
Arguments m_start {G}.
Arguments m_end {G}.
Arguments group0 {G}.
Arguments groups {G}.

(** A compiled pattern, as the function that tries to match it at the
    head of the remaining text.  The flag says whether the position is the
    start of the string or directly follows a newline (where [^] matches
    under [re.MULTILINE]).  The answer is the length of the match and its
    groups.  The patterns of this program never match the empty string. *)
Definition matcher (G : Type) := bool -> pystr -> option (nat * G).

(** Whether the position after the text [t] directly follows a newline. *)
Definition after_nl (t : pystr) : bool :=
  match last t with Some c => (c =? nl)%N | None => false end.

(** [re.search]: the leftmost position at which the pattern matches. *)
Fixpoint search_from {G} (m : matcher G) (s : pystr) (pos : nat) (bol : bool)
  : option (rmatch G) :=
  match m bol s with
  | Some (n, g) => Some (MkMatch pos (pos + n) (take n s) g)
  | None =>
      match s with
      | [] => None
      | c :: s' => search_from m s' (S pos) (c =? nl)%N
      end
  end.

Definition search {G} (m : matcher G) (s : pystr) : option (rmatch G) :=
  search_from m s 0 true.

(** [re.finditer]: the successive non-overlapping matches, left to right;
    after a match the scan resumes where the match ended.  Every step
    consumes at least one code point, so the fuel that [finditer] gives,
    one more than the length of the text, is never used up. *)
Fixpoint finditer_from {G} (fuel : nat) (m : matcher G) (s : pystr)
    (pos : nat) (bol : bool) : list (rmatch G) :=
  match fuel with
  | 0 => []
  | S fuel' =>
      match m bol s with
      | Some (S n, g) =>
          MkMatch pos (pos + S n) (take (S n) s) g
          :: finditer_from fuel' m (drop (S n) s) (pos + S n)
               (after_nl (take (S n) s))
      | _ =>
          match s with
          | [] => []
          | c :: s' => finditer_from fuel' m s' (S pos) (c =? nl)%N
          end
      end
  end.

Definition finditer {G} (m : matcher G) (s : pystr) : list (rmatch G) :=
  finditer_from (S (length s)) m s 0 true.

(** [re.sub] with a replacement computed from the groups: every
    non-overlapping match is replaced, left to right; replaced text is
    not scanned again.  The fuel is as for [finditer]. *)
Fixpoint sub_from {G} (fuel : nat) (m : matcher G) (repl : G -> pystr)
    (s : pystr) (bol : bool) : pystr :=
  match fuel with
  | 0 => s
  | S fuel' =>
      match m bol s with
      | Some (S n, g) =>
          repl g ++ sub_from fuel' m repl (drop (S n) s)
                      (after_nl (take (S n) s))
      | _ =>
          match s with
          | [] => []
          | c :: s' => c :: sub_from fuel' m repl s' (c =? nl)%N
          end
      end
  end.

Definition sub {G} (m : matcher G) (repl : G -> pystr) (s : pystr) : pystr :=
  sub_from (S (length s)) m repl s true.

End Re.
Export Re.

(** ** The Markdown parser of [NotePosterService] *)

Module Parser.

(** The opening fence [```markdown\n] and the closing fence. *)
Definition fence_open : pystr := s2p "```markdown" ++ [nl].
Definition fence_close : pystr := s2p "```".

(** [r"```markdown\n(.*?)```"] with [re.DOTALL]: the opening fence, then
    the shortest text (newlines included) that is followed by a closing
    fence.  Group 1 is that text. *)
Definition fence_re : matcher pystr := fun _ s =>
  if startswith fence_open s then
    let rest := drop (length fence_open) s in
    match find fence_close rest with
    | Some k => Some (length fence_open + k + length fence_close, take k rest)
    | None => None
    end
  else None.

(** [.] without [re.DOTALL]: any code point but the newline. *)
Definition dot (c : N) : bool := negb (c =? nl)%N.

(** [(.+)] at the end of a pattern: the longest non-empty run of [.]. *)
Definition dot_plus (s : pystr) : option pystr :=
  match take_while dot s with
  | [] => None
  | g => Some g
  end.

(** [r"^# (.+)"] with [re.MULTILINE].  Group 1 is the rest of the line. *)
Definition title_re : matcher pystr := fun bol s =>
  if bol && startswith [hash; sp] s then
    match dot_plus (drop 2 s) with
    | Some g => Some (2 + length g, g)
    | None => None
    end
  else None.

(** One alternative of [(#{1,3}) (.+)]: exactly [k] hashes are taken by
    group 1, then a space, then group 2. *)
Definition heading_try (k : nat) (s : pystr) : option (nat * (pystr * pystr)) :=
  if startswith (repeat hash k ++ [sp]) s then
    match dot_plus (drop (k + 1) s) with
    | Some g => Some (k + 1 + length g, (repeat hash k, g))
    | None => None
    end
  else None.

Definition or_else {A} (a b : option A) : option A :=
  match a with Some _ => a | None => b end.

(** [r"^(#{1,3}) (.+)"] with [re.MULTILINE]: the greedy [#{1,3}] first
    takes three hashes and backtracks to two, then to one. *)
Definition heading_re : matcher (pystr * pystr) := fun bol s =>
  if bol then
    or_else (heading_try 3 s) (or_else (heading_try 2 s) (heading_try 1 s))
  else None.

(** [remove_markdown_block]: [re.sub(..., r"\1", text, flags=re.DOTALL)]. *)
Definition remove_markdown_block (text : pystr) : pystr :=
  sub fence_re (fun g => g) text.

(** A section: the dict [{"type": ..., "content": ...}].  The type
    ["paragraph"] is [paragraph] and [f"heading{level}"] is [heading level]. *)
Inductive section_type := paragraph | heading (level : nat).

Record section := Section_ {
  sec_type : section_type;
  sec_content : pystr
}.

(** The title used when no title line is found: 無題の記事. *)
Definition untitled : pystr := [28961; 38988; 12398; 35352; 20107]%N.

(** The body of the [for match in heading_pattern.finditer(content)] loop;
    the state is [(last_pos, sections)]. *)
Definition loop_body (content : pystr) (st : nat * list section)
    (m : rmatch (pystr * pystr)) : nat * list section :=
  let '(last_pos, sections) := st in
  let paragraph_content := strip (slice content last_pos (m_start m)) in
  let sections :=
    if truthy paragraph_content
    then sections ++ [Section_ paragraph paragraph_content]
    else sections in
  let heading_level := length (fst (groups m)) in
  let heading_text := fst (groups m) ++ [sp] ++ strip (snd (groups m)) in
  (m_end m, sections ++ [Section_ (heading heading_level) heading_text]).

(** The code after the loop (lines 82-86): the text after the last
    heading. *)
Definition loop_end (content : pystr) (st : nat * list section)
  : list section :=
  let '(last_pos, sections) := st in
  if last_pos <? length content then
    let paragraph_content := strip (drop last_pos content) in
    if truthy paragraph_content
    then sections ++ [Section_ paragraph paragraph_content]
    else sections
  else sections.

(** The segmentation of the body into sections (lines 60-86). *)
Definition segment (content : pystr) : list section :=
  loop_end content
    (fold_left (loop_body content) (finditer heading_re content) (0, [])).

(** The title and the body that is segmented (lines 44-55). *)
Definition title_and_body (markdown_content : pystr) : pystr * pystr :=
  let markdown_content := remove_markdown_block markdown_content in
  match search title_re markdown_content with
  | Some title_match =>
      (strip (groups title_match),
       strip (replace_first (group0 title_match) [] markdown_content))
  | None => (untitled, markdown_content)
  end.

(** [parse_markdown]. *)
Definition parse_markdown (markdown_content : pystr) : pystr * list section :=
  let '(title, content) := title_and_body markdown_content in
  (title, segment content).

End Parser.
Export Parser.

(** ** The Article record ([models/article.py]) *)

Module Models.

(** A [datetime] value; only its identity matters here. *)
Definition datetime := N.

Record Article := MkArticle {
  title : pystr;
  content : pystr;
  status : pystr;
  created_at : datetime;
  published_at : option datetime;
  improved_content : option pystr
}.

Definition draft : pystr := s2p "draft".
Definition published : pystr := s2p "published".

(** [Article.__init__]; [now] is what [datetime.now()] returns.  The
    arguments are stored as they are given: the status and the publication
    time are not checked against each other. *)
Definition Article_init (now : datetime) (title content status : pystr)
    (created_at published_at : option datetime)
    (improved_content : option pystr) : Article :=
  {| title := title;
     content := content;
     status := status;
     created_at := match created_at with Some d => d | None => now end;
     published_at := published_at;
     improved_content := improved_content |}.

(** The constructor with the defaults of its optional arguments. *)
Definition Article_default (now : datetime) (title content : pystr) : Article :=
  Article_init now title content draft None None None.

(** The values of the dict that [from_dict] reads: a [str] or [None]. *)
Inductive pyval := PyNone | PyStr (s : pystr).

#[global] Instance pyval_eq_dec : EqDecision pyval.
Proof. solve_decision. Defined.

Definition val_truthy (v : pyval) : bool :=
  match v with PyNone => false | PyStr s => truthy s end.

(** An [Article] object as [from_dict] builds it.  [__init__] stores its
    arguments without checking them against its annotations, and the
    values of a dict need not be strings: the title, the content and the
    status of the object are a [str] or [None]. *)
Record ArticleObject := MkObject {
  obj_title : pyval;
  obj_content : pyval;
  obj_status : pyval;
  obj_created_at : datetime;
  obj_published_at : option datetime;
  obj_improved_content : option pystr
}.

(** [Article.__init__] on such arguments. *)
Definition Object_init (now : datetime) (title content status : pyval)
    (created_at published_at : option datetime)
    (improved_content : option pystr) : ArticleObject :=
  {| obj_title := title;
     obj_content := content;
     obj_status := status;
     obj_created_at := match created_at with Some d => d | None => now end;
     obj_published_at := published_at;
     obj_improved_content := improved_content |}.

(** The object of an article whose title, content and status are
    strings. *)
Definition object_of (a : Article) : ArticleObject :=
  {| obj_title := PyStr (title a);
     obj_content := PyStr (content a);
     obj_status := PyStr (status a);
     obj_created_at := created_at a;
     obj_published_at := published_at a;
     obj_improved_content := improved_content a |}.

Section FromDict.

(** [datetime.fromisoformat]; [None] stands for [ValueError]. *)
Variable fromisoformat : pystr -> option datetime.

(** [data.get(key)] is truthy and parsed, or the field is [None].  The
    outer [None] is a raised exception. *)
Definition optional_time (data : gmap string pyval) (key : string)
  : option (option datetime) :=
  match data !! key with
  | Some (PyStr s) =>
      if truthy s then
        match fromisoformat s with
        | Some d => Some (Some d)
        | None => None
        end
      else Some None
  | _ => Some None
  end.

(** [Article.from_dict]; the result is [None] where Python raises:
    [KeyError] for a missing title or content, [ValueError] for a time that
    does not parse.  The values of the keys title, content and status are
    passed on as they are, [None] included; [data.get("status", "draft")]
    is ["draft"] only when the key is missing. *)
Definition from_dict (now : datetime) (data : gmap string pyval)
  : option ArticleObject :=
  match optional_time data "created_at", optional_time data "published_at" with
  | Some created_at, Some published_at =>
      match data !! "title", data !! "content" with
      | Some title, Some content =>
          let status := default (PyStr draft) (data !! "status") in
          let improved_content :=
            match data !! "improved_content" with
            | Some (PyStr s) => Some s
            | _ => None
            end in
          Some (Object_init now title content status
                  created_at published_at improved_content)
      | _, _ => None
      end
  | _, _ => None
  end.

End FromDict.

(** The invariant of the specification: [published_at] is set exactly
    when the status is ["published"]. *)
Definition published_iff_dated (a : Article) : bool :=
  Bool.eqb (match published_at a with Some _ => true | None => false end)
           (bool_decide (status a = published)).

(** The same for an object. *)
Definition object_published_iff_dated (o : ArticleObject) : bool :=
  Bool.eqb (match obj_published_at o with Some _ => true | None => false end)
           (bool_decide (obj_status o = PyStr published)).

End Models.
Export Models.

(** ** The posting orchestrator ([post_article]) *)

Module Poster.

(** [NotePosterService.__init__] stores the credentials. *)
Record NotePosterService := MkService {
  email : pystr;
  password : pystr
}.

(** The selectors, addresses and keys that the source passes to
    Playwright. *)
Inductive selector :=
| sel_email              (* #email *)
| sel_password           (* #password *)
| sel_login              (* button:has(div:has-text("ログイン")) *)
| sel_title              (* textarea[placeholder="記事タイトル"] *)
| sel_save               (* button:has-text('保存') *)
| sel_publish            (* button:has-text('公開する') *)
| sel_paid_publish.      (* button:has-text('有料記事として公開する') *)

Inductive url :=
| url_login              (* https://note.com/login *)
| url_new.               (* https://note.com/notes/new *)

Inductive key := Enter | ControlV.

(** The calls into Playwright and pyperclip. *)
Inductive call :=
| sync_playwright_enter
| chromium_launch
| new_context
| new_page
| page_goto (u : url)
| page_wait_for_selector (s : selector) (timeout : N)
| page_wait_for_load_state
| page_fill (s : selector) (text : pystr)
| page_click (s : selector)
| keyboard_press (k : key)
| pyperclip_copy (text : pystr)
| page_is_visible (s : selector)
| context_close
| browser_close
| sync_playwright_exit.

(** The part of [post_article] that makes a call: the statements before
    the [try], its commented blocks, and the [finally] with the exit of
    the [with] statement. *)
Inductive stage :=
| Launching | LoggingIn | Opening | Titling | Typing | Saving
| Publishing | Closing.

(** How a call ended. *)
Inductive result := Done | Answer (b : bool) | Raised.

Record event := Ev {
  ev_stage : stage;
  ev_call : call;
  ev_result : result
}.

(** The world outside the program, which sees the calls made so far:
    whether the next call raises an exception, what [page.is_visible]
    answers, and what [datetime.now()] returns. *)
Record world := MkWorld {
  raises : list event -> call -> bool;
  answers : list event -> call -> bool;
  clock : list event -> datetime
}.

(** The state that the function changes: the calls made so far and the
    article object, which is mutated in place. *)
Record state := MkState {
  trace : list event;
  article : Article
}.

(** How a block of statements ends: normally with a value, by [return],
    or with an exception. *)
Inductive completion (A : Type) :=
| Normal (a : A)
| Return (b : bool)
| Raise.
Arguments Normal {A}.
Arguments Return {A}.
Arguments Raise {A}.

Definition M (A : Type) : Type := state -> state * completion A.

Definition ret {A} (a : A) : M A := fun st => (st, Normal a).

Definition bind {A B} (m : M A) (k : A -> M B) : M B := fun st =>
  match m st with
  | (st', Normal a) => k a st'
  | (st', Return b) => (st', Return b)
  | (st', Raise) => (st', Raise)
  end.

Declare Scope py_scope.
Delimit Scope py_scope with py.
Notation "x <- m ;; k" := (bind m (fun x => k))
  (at level 100, m at next level, right associativity) : py_scope.
Notation "m ;; k" := (bind m (fun _ => k))
  (at level 100, right associativity) : py_scope.
Local Open Scope py_scope.

(** [return b]. *)
Definition return_ {A} (b : bool) : M A := fun st => (st, Return b).

(** [try: body except Exception: handler]. *)
Definition try_except {A} (body handler : M A) : M A := fun st =>
  match body st with
  | (st', Raise) => handler st'
  | r => r
  end.

(** [try: body finally: final]: [final] runs however [body] ends, and
    the way [body] ended stands unless [final] itself returns or raises. *)
Definition try_finally {A} (body : M A) (final : M unit) : M A := fun st =>
  let '(st', r) := body st in
  match final st' with
  | (st'', Normal _) => (st'', r)
  | (st'', Return b) => (st'', Return b)
  | (st'', Raise) => (st'', Raise)
  end.

(** [for x in l: body]. *)
Fixpoint for_each {A} (l : list A) (body : A -> M unit) : M unit :=
  match l with
  | [] => ret tt
  | x :: l' => body x ;; for_each l' body
  end.

Definition log (e : event) (st : state) : state :=
  MkState (trace st ++ [e]) (article st).

Section Program.

Variable w : world.

(** A call that may raise. *)
Definition extern (s : stage) (c : call) : M unit := fun st =>
  if raises w (trace st) c
  then (log (Ev s c Raised) st, Raise)
  else (log (Ev s c Done) st, Normal tt).

(** A call that answers a boolean, or raises. *)
Definition extern_bool (s : stage) (c : call) : M bool := fun st =>
  if raises w (trace st) c
  then (log (Ev s c Raised) st, Raise)
  else let b := answers w (trace st) c in
       (log (Ev s c (Answer b)) st, Normal b).

(** [datetime.now()]. *)
Definition now : M datetime := fun st => (st, Normal (clock w (trace st))).

(** [article.status = s] and [article.published_at = d]. *)
Definition set_status (s : pystr) : M unit := fun st =>
  let a := article st in
  (MkState (trace st)
     (MkArticle (title a) (content a) s (created_at a) (published_at a)
        (improved_content a)),
   Normal tt).

Definition set_published_at (d : datetime) : M unit := fun st =>
  let a := article st in
  (MkState (trace st)
     (MkArticle (title a) (content a) (status a) (created_at a) (Some d)
        (improved_content a)),
   Normal tt).

(** Lines 103-106: the improved content when it is truthy (neither
    [None] nor empty), else the content. *)
Definition select_content (a : Article) : pystr :=
  match improved_content a with
  | Some s => if truthy s then s else content a
  | None => content a
  end.

(** Lines 117-131: the login. *)
Definition login (self : NotePosterService) : M unit :=
  extern LoggingIn (page_goto url_login) ;;
  extern LoggingIn (page_wait_for_selector sel_email 10000) ;;
  extern LoggingIn (page_wait_for_selector sel_password 10000) ;;
  extern LoggingIn page_wait_for_load_state ;;
  extern LoggingIn (page_fill sel_email (email self)) ;;
  extern LoggingIn (page_fill sel_password (password self)) ;;
  extern LoggingIn (page_click sel_login) ;;
  extern LoggingIn page_wait_for_load_state.

(** Lines 133-136: the page for a new article. *)
Definition open_editor : M unit :=
  extern Opening (page_goto url_new) ;;
  extern Opening page_wait_for_load_state.

(** Lines 138-142: the title. *)
Definition enter_title (title : pystr) : M unit :=
  extern Titling (page_fill sel_title title) ;;
  extern Titling (keyboard_press Enter).

(** Lines 146-169: one section.  A paragraph is pasted and confirmed with
    two Enter keys, a heading with one. *)
Definition enter_section (section : section) : M unit :=
  match sec_type section with
  | paragraph =>
      extern Typing (pyperclip_copy (sec_content section)) ;;
      extern Typing (keyboard_press ControlV) ;;
      extern Typing (keyboard_press Enter) ;;
      extern Typing (keyboard_press Enter)
  | heading _ =>
      extern Typing (pyperclip_copy (sec_content section)) ;;
      extern Typing (keyboard_press ControlV) ;;
      extern Typing (keyboard_press Enter)
  end.

(** Lines 171-176: the save as a draft. *)
Definition save : M unit :=
  extern Saving (page_click sel_save) ;;
  extern Saving page_wait_for_load_state.

(** Lines 179-195: the inner [try]: publish when the button is there. *)
Definition publish : M unit :=
  try_except
    (visible <- extern_bool Publishing (page_is_visible sel_publish) ;;
     if visible then
       extern Publishing (page_click sel_publish) ;;
       extern Publishing (page_wait_for_selector sel_paid_publish 5000) ;;
       extern Publishing (page_click sel_paid_publish) ;;
       extern Publishing page_wait_for_load_state ;;
       set_status published ;;
       d <- now ;;
       set_published_at d ;;
       return_ true
     else ret tt)
    (ret tt).

(** Lines 116-197: the body of the outer [try]. *)
Definition guarded (self : NotePosterService) (title : pystr)
    (sections : list section) : M unit :=
  login self ;;
  open_editor ;;
  enter_title title ;;
  for_each sections enter_section ;;
  save ;;
  publish ;;
  return_ true.

(** Lines 111-205, for the parsed title and sections.  The calls of the
    [finally] and the exit of the [with] statement are calls like the
    others: each may raise, and [browser.close()] is not reached when
    [context.close()] raises. *)
Definition post_parsed (self : NotePosterService)
    (parsed : pystr * list section) : M unit :=
  let '(title, sections) := parsed in
  extern Launching sync_playwright_enter ;;
  try_finally
    (extern Launching chromium_launch ;;
     extern Launching new_context ;;
     extern Launching new_page ;;
     try_finally
       (try_except (guarded self title sections) (return_ false))
       (extern Closing context_close ;;
        extern Closing browser_close))
    (extern Closing sync_playwright_exit).

(** [post_article].  The calls to [logging] and [time.sleep] have no part
    in what follows and are left out. *)
Definition post_article (self : NotePosterService) : M unit := fun st =>
  post_parsed self (parse_markdown (select_content (article st))) st.

(** A call of [post_article] on the article [a]. *)
Definition run (self : NotePosterService) (a : Article)
  : state * completion unit :=
  post_article self (MkState [] a).

End Program.

End Poster.
Export Poster.

(** ** The vocabulary of the statements *)

(** Whitespace-only text (the empty string included). *)
Definition blank (s : pystr) : bool := forallb isspace s.

(** [p] occurs in [s] at index [j]. *)
Definition occurs_at (p s : pystr) (j : nat) : bool := startswith p (drop j s).

(** Position [j] of [s] is where a line starts: the start of the string or
    right after a newline. *)
Definition line_start (s : pystr) (j : nat) : bool :=
  match j with
  | 0 => true
  | S j' => match s !! j' with Some c => (c =? nl)%N | None => false end
  end.

(** The scan of [finditer] and of [sub] from an inner position, with the
    fuel the text needs. *)
Definition finditer_at {G} (m : matcher G) (s : pystr) (pos : nat)
    (bol : bool) : list (rmatch G) :=
  finditer_from (S (length s)) m s pos bol.

Definition sub_at {G} (m : matcher G) (repl : G -> pystr) (s : pystr)
    (bol : bool) : pystr :=
  sub_from (S (length s)) m repl s bol.

(** [Rebuilds bs body]: the body is the texts of the sections [bs], in
    their order and each once, with whitespace-only text in between; in a
    heading, whitespace may also follow the marker and its space. *)
Inductive Rebuilds : list section -> pystr -> Prop :=
| Rb_end : Rebuilds [] []
| Rb_blank ws bs rest :
    blank ws = true -> Rebuilds bs rest -> Rebuilds bs (ws ++ rest)
| Rb_paragraph t bs rest :
    t <> [] -> strip t = t -> Rebuilds bs rest ->
    Rebuilds (Section_ paragraph t :: bs) (t ++ rest)
| Rb_heading k ws t bs rest :
    1 <= k <= 3 -> blank ws = true -> strip t = t -> Rebuilds bs rest ->
    Rebuilds (Section_ (heading k) (repeat hash k ++ [sp] ++ t) :: bs)
             (repeat hash k ++ [sp] ++ ws ++ t ++ rest).

(** The code points that are not whitespace. *)
Definition visible_text (s : pystr) : pystr :=
  List.filter (fun c => negb (isspace c)) s.

(** The paragraph that a span gives: none when it is whitespace only. *)
Definition span_sections (span : pystr) : list section :=
  if truthy (strip span) then [Section_ paragraph (strip span)] else [].

(** A line of [t] starts at index [j] and begins with [p]. *)
Definition line_begins (p t : pystr) (j : nat) : bool :=
  line_start t j && occurs_at p t j.

(** Some line of [t] begins with [p]. *)
Definition has_line_beginning (p t : pystr) : bool :=
  existsb (line_begins p t) (seq 0 (S (length t))).

(** The title pattern matches at index [j]: a line starts there with a
    hash, a space and at least one more code point before the line ends. *)
Definition title_line_at (t : pystr) (j : nat) : bool :=
  line_start t j &&
  match drop j t with
  | a :: b :: c :: _ => (a =? hash)%N && (b =? sp)%N && dot c
  | _ => false
  end.

(** The section that a heading match gives (lines 74-78). *)
Definition heading_of (m : rmatch (pystr * pystr)) : section :=
  Section_ (heading (length (fst (groups m))))
           (fst (groups m) ++ [sp] ++ strip (snd (groups m))).

(** The spans of text around the heading matches [ms], from [last_pos]:
    before each match, and after the last one when text is left. *)
Fixpoint spans_from (content : pystr) (last_pos : nat)
    (ms : list (rmatch (pystr * pystr))) : list pystr :=
  match ms with
  | [] => if last_pos <? length content then [drop last_pos content] else []
  | m :: ms' =>
      slice content last_pos (m_start m) :: spans_from content (m_end m) ms'
  end.

Definition spans (content : pystr) : list pystr :=
  spans_from content 0 (finditer heading_re content).

(** The sections in the order of the text: the paragraph of each span that
    has one, and each heading after the span before it. *)
Fixpoint layout (content : pystr) (last_pos : nat)
    (ms : list (rmatch (pystr * pystr))) : list section :=
  match ms with
  | [] =>
      if last_pos <? length content
      then span_sections (drop last_pos content) else []
  | m :: ms' =>
      span_sections (slice content last_pos (m_start m))
      ++ heading_of m :: layout content (m_end m) ms'
  end.

Definition is_paragraph (b : section) : bool :=
  match sec_type b with paragraph => true | heading _ => false end.

(** The text after the title text ends the line. *)
Definition line_ends (post : pystr) : bool :=
  match post with [] => true | c :: _ => (c =? nl)%N end.

(** The wording of the specification for the fence: only the first wrapped
    region is replaced by its interior. *)
Definition remove_first_block_only (text : pystr) : pystr :=
  match search fence_re text with
  | Some m => take (m_start m) text ++ groups m ++ drop (m_end m) text
  | None => text
  end.

(** A heading section has level 1 to 3 and its text does not begin with
    four hashes. *)
Definition level_ok (b : section) : bool :=
  match sec_type b with
  | paragraph => true
  | heading k =>
      (1 <=? k) && (k <=? 3)
      && negb (startswith (repeat hash 4) (sec_content b))
  end.

Definition is_raised (e : event) : bool :=
  match ev_result e with Raised => true | _ => false end.

(** The stages inside the outer [try] up to the save. *)
Definition before_publish (s : stage) : bool :=
  match s with
  | LoggingIn | Opening | Titling | Typing | Saving => true
  | _ => false
  end.

(** The event that ends a successful save: the wait after the click on the
    save button came back. *)
Definition save_done : event := Ev Saving page_wait_for_load_state Done.

Definition is_save_done (e : event) : bool :=
  match e with
  | Ev Saving page_wait_for_load_state Done => true
  | _ => false
  end.

(** An event of the stages up to the save that is not the end of a
    successful save, and one of these stages that did not raise. *)
Definition unsaved (e : event) : bool :=
  before_publish (ev_stage e) && negb (is_save_done e).

Definition quiet (e : event) : bool :=
  before_publish (ev_stage e) && negb (is_raised e).

Definition publishing (e : event) : bool :=
  match ev_stage e with Publishing => true | _ => false end.

(** The four calls that open the session, and the three that close it. *)
Definition opened : list event :=
  [Ev Launching sync_playwright_enter Done; Ev Launching chromium_launch Done;
   Ev Launching new_context Done; Ev Launching new_page Done].

Definition closed : list event :=
  [Ev Closing context_close Done; Ev Closing browser_close Done;
   Ev Closing sync_playwright_exit Done].

(** The events of a publication that went through. *)
Definition publish_events : list event :=
  [Ev Publishing (page_is_visible sel_publish) (Answer true);
   Ev Publishing (page_click sel_publish) Done;
   Ev Publishing (page_wait_for_selector sel_paid_publish 5000) Done;
   Ev Publishing (page_click sel_paid_publish) Done;
   Ev Publishing page_wait_for_load_state Done].

(** Lines 191-192 on the article [a]. *)
Definition mark_published (a : Article) (d : datetime) : Article :=
  MkArticle (title a) (content a) published (created_at a) (Some d)
    (improved_content a).

(** What the publish step leaves: the article as it was, or, when every
    publish call went through, the article marked as published. *)
Definition Published (a : Article) (evs : list event) (a' : Article) : Prop :=
  forallb publishing evs = true
  /\ (a' = a \/ (evs = publish_events /\ exists d, a' = mark_published a d)).

(** The calls that close the session with one of them raising: when
    [context.close()] raises, [browser.close()] is not called; the [with]
    statement is left in every case. *)
Definition unclosed : list (list event) :=
  [[Ev Closing context_close Raised; Ev Closing sync_playwright_exit Done];
   [Ev Closing context_close Raised; Ev Closing sync_playwright_exit Raised];
   [Ev Closing context_close Done; Ev Closing browser_close Raised;
    Ev Closing sync_playwright_exit Done];
   [Ev Closing context_close Done; Ev Closing browser_close Raised;
    Ev Closing sync_playwright_exit Raised];
   [Ev Closing context_close Done; Ev Closing browser_close Done;
    Ev Closing sync_playwright_exit Raised]].

(** The six ways in which the session is closed once the page was
    opened. *)
Definition teardowns : list (list event) := closed :: unclosed.

(** A closing call raised. *)
Definition closing_raised (tr : list event) : bool :=
  existsb (fun e => match ev_stage e with
                    | Closing => is_raised e
                    | _ => false
                    end) tr.

(** How a call ended in the world [w] after the calls [tr]. *)
Definition outcome (w : world) (tr : list event) (c : call) : result :=
  if raises w tr c then Raised else Done.

(** The closing calls that follow the calls [tr] in the world [w]. *)
Definition closing (w : world) (tr : list event) : list event :=
  let e1 := Ev Closing context_close (outcome w tr context_close) in
  let tr1 := tr ++ [e1] in
  let e2 := Ev Closing browser_close (outcome w tr1 browser_close) in
  let tr2 := if is_raised e1 then tr1 else tr1 ++ [e2] in
  let e3 :=
    Ev Closing sync_playwright_exit (outcome w tr2 sync_playwright_exit) in
  if is_raised e1 then [e1; e3] else [e1; e2; e3].

(** The calls of a run in which the session is not opened: entering the
    [with] statement raises, or one of the three calls after it raises and
    the [with] statement is left. *)
Definition unopened : list (list event) :=
  [[Ev Launching sync_playwright_enter Raised];
   [Ev Launching sync_playwright_enter Done;
    Ev Launching chromium_launch Raised;
    Ev Closing sync_playwright_exit Done];
   [Ev Launching sync_playwright_enter Done;
    Ev Launching chromium_launch Raised;
    Ev Closing sync_playwright_exit Raised];
   [Ev Launching sync_playwright_enter Done;
    Ev Launching chromium_launch Done;
    Ev Launching new_context Raised;
    Ev Closing sync_playwright_exit Done];
   [Ev Launching sync_playwright_enter Done;
    Ev Launching chromium_launch Done;
    Ev Launching new_context Raised;
    Ev Closing sync_playwright_exit Raised];
   [Ev Launching sync_playwright_enter Done;
    Ev Launching chromium_launch Done;
    Ev Launching new_context Done;
    Ev Launching new_page Raised;
    Ev Closing sync_playwright_exit Done];
   [Ev Launching sync_playwright_enter Done;
    Ev Launching chromium_launch Done;
    Ev Launching new_context Done;
    Ev Launching new_page Raised;
    Ev Closing sync_playwright_exit Raised]].

(** The texts typed into the title field, in the order of the calls. *)
Definition titles (tr : list event) : list pystr :=
  flat_map (fun e => match ev_call e with
                     | page_fill sel_title t => [t]
                     | _ => []
                     end) tr.

(** The two ways in which the outer [try] ends, with the calls it made,
    the article it leaves and the value of its [return]: a call raised
    before the save was over, or the save went through. *)
Inductive Tried (a : Article) : list event -> Article -> bool -> Prop :=
| Tried_failed evs :
    forallb unsaved evs = true -> Tried a evs a false
| Tried_saved evs1 evs2 a' :
    forallb quiet evs1 = true ->
    Published a evs2 a' ->
    Tried a (evs1 ++ save_done :: evs2) a' true.

(** The three ways in which a call of [post_article] ends: a call that
    opens the session raised; the session was closed and the value of the
    [try] is returned; a closing call raised. *)
Inductive Run (a : Article) : state * completion unit -> Prop :=
| Run_unopened tr :
    In tr unopened ->
    Run a (MkState tr a, Raise)
| Run_closed evs a' b :
    Tried a evs a' b ->
    Run a (MkState (opened ++ evs ++ closed) a', Return b)
| Run_unclosed evs a' b tail :
    Tried a evs a' b ->
    In tail unclosed ->
    Run a (MkState (opened ++ evs ++ tail) a', Raise).

(** A block of calls of the stages before the save is over: it leaves the
    article as it is, and ends normally, without a raised call, or with an
    exception. *)
Definition Block {A} (m : M A) : Prop :=
  forall st, exists evs,
    trace (m st).1 = trace st ++ evs
    /\ article (m st).1 = article st
    /\ forallb unsaved evs = true
    /\ match (m st).2 with
       | Normal _ => forallb quiet evs = true
       | Raise => True
       | Return _ => False
       end.

(** The rest of the outer [try]: it raises before the save is over, with
    the article as it is, or it returns true after the save. *)
Definition Guarded (m : M unit) : Prop :=
  forall st, exists evs,
    trace (m st).1 = trace st ++ evs
    /\ (((m st).2 = Raise /\ article (m st).1 = article st
         /\ forallb unsaved evs = true)
        \/ ((m st).2 = Return true
            /\ exists evs1 evs2,
                evs = evs1 ++ save_done :: evs2
                /\ forallb quiet evs1 = true
                /\ Published (article st) evs2 (article (m st).1))).

(** A world in which the call number [n] (from 0) raises and no other,
    and in which [page.is_visible] answers [visible]. *)
Definition fails_at (n : nat) (visible : bool) : world :=
  MkWorld (fun tr _ => length tr =? n) (fun _ _ => visible)
          (fun tr => N.of_nat (length tr)).

(** A world in which no call raises. *)
Definition calm (visible : bool) : world :=
  MkWorld (fun _ _ => false) (fun _ _ => visible)
          (fun tr => N.of_nat (length tr)).

Definition a_service : NotePosterService := MkService (s2p "me") (s2p "pw").

Definition an_article : Article :=
  Article_default 7%N [] (joinNL ["# News"; "Text."; "## More"; "End."]).

(** ** Further vocabulary *)

(** The first opening fence of [text] has a closing fence after it. *)
Definition closed_fence (text : pystr) : bool :=
  match find fence_open text with
  | Some j =>
      match find fence_close (drop (j + length fence_open) text) with
      | Some _ => true
      | None => false
      end
  | None => false
  end.

(** The form of a section: a paragraph is a non-empty stripped text; a
    heading of level [k] is [k] hashes, a space and a stripped text, all on
    one line. *)
Definition section_shape (b : section) : bool :=
  match sec_type b with
  | paragraph =>
      truthy (sec_content b)
      && bool_decide (strip (sec_content b) = sec_content b)
  | heading k =>
      startswith (repeat hash k ++ [sp]) (sec_content b)
      && forallb dot (sec_content b)
      && bool_decide (strip (drop (k + 1) (sec_content b))
                      = drop (k + 1) (sec_content b))
  end.

(** The events of the blocks of [post_article] when every call goes
    through: lines 117-131, 133-136, 138-142, 146-169 (one section) and
    171-176. *)
Definition login_script (self : NotePosterService) : list event :=
  [Ev LoggingIn (page_goto url_login) Done;
   Ev LoggingIn (page_wait_for_selector sel_email 10000) Done;
   Ev LoggingIn (page_wait_for_selector sel_password 10000) Done;
   Ev LoggingIn page_wait_for_load_state Done;
   Ev LoggingIn (page_fill sel_email (email self)) Done;
   Ev LoggingIn (page_fill sel_password (password self)) Done;
   Ev LoggingIn (page_click sel_login) Done;
   Ev LoggingIn page_wait_for_load_state Done].

Definition open_script : list event :=
  [Ev Opening (page_goto url_new) Done;
   Ev Opening page_wait_for_load_state Done].

Definition title_script (title : pystr) : list event :=
  [Ev Titling (page_fill sel_title title) Done;
   Ev Titling (keyboard_press Enter) Done].

Definition section_script (b : section) : list event :=
  match sec_type b with
  | paragraph =>
      [Ev Typing (pyperclip_copy (sec_content b)) Done;
       Ev Typing (keyboard_press ControlV) Done;
       Ev Typing (keyboard_press Enter) Done;
       Ev Typing (keyboard_press Enter) Done]
  | heading _ =>
      [Ev Typing (pyperclip_copy (sec_content b)) Done;
       Ev Typing (keyboard_press ControlV) Done;
       Ev Typing (keyboard_press Enter) Done]
  end.

Definition save_script : list event :=
  [Ev Saving (page_click sel_save) Done; save_done].

(** The calls from the login to the end of the save, for a parsed
    article. *)
Definition full_script (self : NotePosterService)
    (parsed : pystr * list section) : list event :=
  login_script self ++ open_script ++ title_script (fst parsed)
  ++ flat_map section_script (snd parsed) ++ save_script.

(** The event of the same call when it raises. *)
Definition raised_of (e : event) : event :=
  Ev (ev_stage e) (ev_call e) Raised.

(** The texts that were put on the clipboard, in the order of the calls. *)
Definition pasted (tr : list event) : list pystr :=
  flat_map (fun e => match ev_call e with
                     | pyperclip_copy t => [t]
                     | _ => []
                     end) tr.

(** The three ways in which the publish step goes: the button is not
    visible; a call raises, after the calls before it went through; every
    call goes through and the article is marked as published. *)
Inductive PublishRun (a : Article) : list event -> Article -> Prop :=
| Publish_hidden :
    PublishRun a [Ev Publishing (page_is_visible sel_publish) (Answer false)] a
| Publish_broke passed e rest :
    publish_events = passed ++ e :: rest ->
    PublishRun a (passed ++ [raised_of e]) a
| Publish_went d :
    PublishRun a publish_events (mark_published a d).

(** A block whose calls are those of [script]: it leaves the article as
    it is; it ends normally after all of them, or it raises at the first
    call that the world makes raise, after the calls before it. *)
Definition Scripted (w : world) {A} (m : M A) (script : list event) : Prop :=
  forall st,
    article (m st).1 = article st
    /\ match (m st).2 with
       | Normal _ => trace (m st).1 = trace st ++ script
       | Raise =>
           exists passed e rest,
             script = passed ++ e :: rest
             /\ trace (m st).1 = trace st ++ passed ++ [raised_of e]
             /\ raises w (trace st ++ passed) (ev_call e) = true
       | Return _ => False
       end.

(** The rest of the outer [try], with the calls of [script] up to the end
    of the save: it returns true after all of them and the publish step,
    or it raises at the first call that the world makes raise. *)
Definition Finishes (w : world) (m : M unit) (script : list event) : Prop :=
  forall st,
    match (m st).2 with
    | Return true =>
        exists evs2,
          trace (m st).1 = trace st ++ script ++ evs2
          /\ PublishRun (article st) evs2 (article (m st).1)
    | Raise =>
        article (m st).1 = article st
        /\ exists passed e rest,
             script = passed ++ e :: rest
             /\ trace (m st).1 = trace st ++ passed ++ [raised_of e]
             /\ raises w (trace st ++ passed) (ev_call e) = true
    | _ => False
    end.

(** How the end of the [try] and the two [finally] blocks close a run of
    the guarded part: the exception of the [try] becomes [return False],
    and an exception of a closing call takes the place of the result. *)
Definition close_run (w : world) (r : state * completion unit)
  : state * completion unit :=
  let tail := closing w (trace r.1) in
  (MkState (trace r.1 ++ tail) (article r.1),
   if existsb is_raised tail then Raise
   else match r.2 with Raise => Return false | c => c end).

(** ** More of the program: [Article.to_dict] *)

Section ToDict.

(** [datetime.isoformat]. *)
Variable isoformat : datetime -> pystr.

(** [Article.to_dict].  A [datetime] is always truthy, so the creation
    time is always written as a string. *)
Definition to_dict (a : Article) : gmap string pyval :=
  <["title" := PyStr (title a)]>
  (<["content" := PyStr (content a)]>
  (<["status" := PyStr (status a)]>
  (<["created_at" := PyStr (isoformat (created_at a))]>
  (<["published_at" :=
       match published_at a with
       | Some d => PyStr (isoformat d)
       | None => PyNone
       end]>
  (<["improved_content" :=
       match improved_content a with
       | Some s => PyStr s
       | None => PyNone
       end]> ∅))))).

End ToDict.

(** The value of a key counts as absent for [from_dict]: the key is
    missing, or its value is [None] or the empty string. *)
Definition absent (data : gmap string pyval) (key : string) : bool :=
  match data !! key with
  | Some (PyStr s) => negb (truthy s)
  | _ => true
  end.

(** ** More of the program: [load_config] and [fetch_trending_news]
       ([main.py]) *)

Module Main.

Section LoadConfig.

(** The values of a configuration dict.  Only their truthiness is used;
    [of_env] is the value of [os.environ.get]: a [str], or [None]. *)
Variable value : Type.
Variable truth : value -> bool.
Variable of_env : option pystr -> value.

(** What reading [config.json] gives: [FileNotFoundError], another
    exception (the file cannot be read or parsed, or does not hold an
    object), or the dict of the file. *)
Inductive config_file :=
| NoFile
| BadFile
| FileDict (config : gmap string value).

(** What [load_config] ends with. *)
Inductive loaded :=
| Config (config : gmap string value)
| ValueError (key : string)
| OtherError.

(** [bool(config.get(key))]. *)
Definition get_truthy (config : gmap string value) (key : string) : bool :=
  match config !! key with
  | Some v => truth v
  | None => false
  end.

Definition required_keys : list string :=
  ["openai_api_key"; "news_api_key"; "note_email"; "note_password"].

(** The dict built from the environment (lines 38-45). *)
Definition env_config (env : gmap string pystr) : gmap string value :=
  <["openai_api_key" := of_env (env !! "OPENAI_API_KEY")]>
  (<["news_api_key" := of_env (env !! "NEWS_API_KEY")]>
  (<["note_email" := of_env (env !! "NOTE_EMAIL")]>
  (<["note_password" := of_env (env !! "NOTE_PASSWORD")]>
  (<["post_time" :=
       of_env (Some (default (s2p "08:00") (env !! "POST_TIME")))]>
  (<["model" :=
       of_env (Some (default (s2p "gpt-4o") (env !! "OPENAI_MODEL")))]>
   ∅))))).

(** Lines 33-45: the dict of the file, or of the environment when there
    is no file; [None] when reading the file raises otherwise. *)
Definition read_config (file : config_file) (env : gmap string pystr)
  : option (gmap string value) :=
  match file with
  | FileDict config => Some config
  | NoFile => Some (env_config env)
  | BadFile => None
  end.

(** Lines 48-51: the first required key whose value is missing or falsy. *)
Fixpoint first_missing (config : gmap string value) (keys : list string)
  : option string :=
  match keys with
  | [] => None
  | key :: keys' =>
      if negb (get_truthy config key) then Some key
      else first_missing config keys'
  end.

(** [load_config]. *)
Definition load_config (file : config_file) (env : gmap string pystr)
  : loaded :=
  match read_config file env with
  | None => OtherError
  | Some config =>
      match first_missing config required_keys with
      | Some key => ValueError key
      | None => Config config
      end
  end.

End LoadConfig.

Arguments NoFile {value}.
Arguments BadFile {value}.
Arguments FileDict {value}.
Arguments Config {value}.
Arguments ValueError {value}.
Arguments OtherError {value}.
Arguments get_truthy {value}.
Arguments first_missing {value}.
Arguments env_config {value}.
Arguments read_config {value}.
Arguments load_config {value}.

End Main.
Export Main.

(** [os.environ.get] as a [pyval], with its truthiness. *)
Definition env_value (o : option pystr) : pyval :=
  match o with Some s => PyStr s | None => PyNone end.

(** An environment variable is set and not empty. *)
Definition env_set (env : gmap string pystr) (name : string) : bool :=
  match env !! name with Some s => truthy s | None => false end.

Module News.

Section Fetch.

(** One entry of [raw_articles], and the values of the configuration. *)
Variable article : Type.
Variable value : Type.

(** The content of the answer of the chat completion for the article
    number [i] (from 0) of [raw_articles]; [None] when the call raises or
    the content cannot be used. *)
Variable verdict : nat -> option pystr.

(** [result.startswith("YES")]. *)
Definition approved (result : pystr) : bool := startswith (s2p "YES") result.

(** [l[:n]] for an integer [n]: a negative [n] counts from the end. *)
Definition slice_to {A} (n : Z) (l : list A) : list A :=
  if (0 <=? n)%Z then take (Z.to_nat n) l
  else take (length l - Z.to_nat (- n)) l.

(** What lines 146-152 give for the article number [i]: the content of
    the answer, or [None] for an exception, which is the [KeyError] of
    [config["model"]] when the key is missing. *)
Definition ask (config : gmap string value) (i : nat) : option pystr :=
  match config !! "model" with
  | Some _ => verdict i
  | None => None
  end.

(** Lines 126-158: the loop over [raw_articles].  [i] is the number of
    calls of [chat.completions.create] made so far; the result is that
    number at the end and the list [filtered_articles], or [None] for an
    exception.  The arguments of the call are evaluated first: when
    [config["model"]] raises, the call is not made. *)
Fixpoint filter_loop (config : gmap string value) (num_articles : Z)
    (raw : list article) (i : nat) (filtered : list article)
  : nat * option (list article) :=
  match raw with
  | [] => (i, Some filtered)
  | a :: raw' =>
      match config !! "model" with
      | None => (i, None)
      | Some _ =>
          match verdict i with
          | None => (S i, None)
          | Some result =>
              if approved result then
                let filtered := filtered ++ [a] in
                if (num_articles <=? Z.of_nat (length filtered))%Z
                then (S i, Some filtered)
                else filter_loop config num_articles raw' (S i) filtered
              else filter_loop config num_articles raw' (S i) filtered
          end
      end
  end.

(** Lines 125-162, for the list [raw_articles] that lines 109-122 built:
    the number of calls of the model and the articles returned.  An
    exception in the loop is caught by line 164 and gives the empty list. *)
Definition select_articles (config : gmap string value) (num_articles : Z)
    (age_appropriate : bool) (raw_articles : list article)
  : nat * list article :=
  if age_appropriate && match raw_articles with [] => false | _ => true end
  then
    match filter_loop config num_articles raw_articles 0 [] with
    | (asked, Some filtered) => (asked, slice_to num_articles filtered)
    | (asked, None) => (asked, [])
    end
  else (0, slice_to num_articles raw_articles).

(** Line 105: [min(num_articles * 2, 20)]. *)
Definition page_size (num_articles : Z) : Z := Z.min (num_articles * 2) 20.

(** What [fetch_trending_news] ends with: the number of calls of the
    model and the list it returns, or the exception of [load_config],
    which is raised before the [try].  The client of line 98 is taken to
    be built without an exception. *)
Inductive fetched :=
| Fetched (asked : nat) (articles : list article)
| ConfigError.

(** [fetch_trending_news].  [respond category page_size] is what lines
    109-122 give: the list [raw_articles] built from the response, or
    [None] for an exception of the request or of the reading of its
    answer, which line 164 turns into the empty list. *)
Definition fetch_trending_news (loaded_config : loaded value)
    (respond : pystr -> Z -> option (list article))
    (num_articles : Z) (category : pystr) (age_appropriate : bool)
  : fetched :=
  match loaded_config with
  | Config config =>
      match respond category (page_size num_articles) with
      | Some raw_articles =>
          let '(asked, articles) :=
            select_articles config num_articles age_appropriate raw_articles in
          Fetched asked articles
      | None => Fetched 0 []
      end
  | _ => ConfigError
  end.

(** The articles of [raw], numbered from [i], that are approved. *)
Fixpoint approved_from (i : nat) (raw : list article) : list article :=
  match raw with
  | [] => []
  | a :: raw' =>
      match verdict i with
      | Some result =>
          if approved result then a :: approved_from (S i) raw'
          else approved_from (S i) raw'
      | None => approved_from (S i) raw'
      end
  end.

End Fetch.

Arguments Fetched {article}.
Arguments ConfigError {article}.
Arguments ask {value}.
Arguments filter_loop {article value}.
Arguments select_articles {article value}.
Arguments fetch_trending_news {article value}.
Arguments approved_from {article}.

End News.
Export News.

Example spec_example :
  parse_markdown (joinNL ["# My Title"; ""; "Intro text."; "";
                          "## Section One"; "Body one."; "";
                          "## Section Two"; "Body two."])
  = (s2p "My Title",
     [Section_ paragraph (s2p "Intro text.");
      Section_ (heading 2) (s2p "## Section One");
      Section_ paragraph (s2p "Body one.");
      Section_ (heading 2) (s2p "## Section Two");
      Section_ paragraph (s2p "Body two.")]).
Proof. vm_compute. reflexivity. Qed.

(** A carriage return belongs to the title line and is stripped; the
    ideographic space U+3000 and the separator U+001F are whitespace for
    [strip]; a heading line needs text after its space. *)
Example crlf_title :
  parse_markdown (s2p "# a" ++ [13; 10]%N ++ s2p "b")
  = (s2p "a", [Section_ paragraph (s2p "b")]).
Proof. vm_compute. reflexivity. Qed.

Example unicode_whitespace :
  parse_markdown (s2p "x" ++ [nl] ++ s2p "# " ++ [12288%N] ++ s2p "T"
                    ++ [12288%N; nl] ++ s2p "## " ++ [31%N])
  = (s2p "T", [Section_ paragraph (s2p "x" ++ [nl; nl] ++ s2p "##")]).
Proof. vm_compute. reflexivity. Qed.

Example bare_title_marker :
  parse_markdown (joinNL ["# "; "foo"])
  = (untitled, [Section_ paragraph (joinNL ["# "; "foo"])]).
Proof. vm_compute. reflexivity. Qed.

Example fence_inside_fence :
  remove_markdown_block (joinNL ["```markdown"; "```markdown"; "x```"])
  = joinNL ["markdown"; "x```"].
Proof. vm_compute. reflexivity. Qed.

(** ** Facts about the string operations *)

Section StringFacts.

Implicit Types (s t p : pystr) (c : N).

Lemma take_drop_while {A} (q : A -> bool) (l : list A) :
  take_while q l ++ drop_while q l = l.
Proof.
  induction l as [|x l IH]; simpl; [done|].
  destruct (q x); simpl; [by rewrite IH | done].
Qed.

Lemma take_while_all {A} (q : A -> bool) (l : list A) :
  forallb q (take_while q l) = true.
Proof.
  induction l as [|x l IH]; simpl; [done|].
  destruct (q x) eqn:E; simpl; [by rewrite E | done].
Qed.

Lemma take_while_prefix {A} (q : A -> bool) (l : list A) :
  take_while q l ++ drop (length (take_while q l)) l = l.
Proof.
  induction l as [|x l IH]; simpl; [done|].
  destruct (q x); simpl; [by rewrite IH | done].
Qed.

Lemma drop_while_head {A} (q : A -> bool) (l : list A) x l' :
  drop_while q l = x :: l' -> q x = false.
Proof.
  induction l as [|y l IH]; simpl; [done|].
  destruct (q y) eqn:E; [done|]. by intros [= <- <-].
Qed.

Lemma drop_while_id {A} (q : A -> bool) (l : list A) :
  match l with [] => True | x :: _ => q x = false end -> drop_while q l = l.
Proof. destruct l as [|x l]; simpl; [done|]. by intros ->. Qed.

Lemma drop_while_all {A} (q : A -> bool) (l : list A) :
  forallb q l = true -> drop_while q l = [].
Proof.
  induction l as [|x l IH]; simpl; [done|].
  destruct (q x); simpl; [done | discriminate].
Qed.

Lemma drop_while_nil_all {A} (q : A -> bool) (l : list A) :
  drop_while q l = [] -> forallb q l = true.
Proof.
  induction l as [|x l IH]; simpl; [done|].
  destruct (q x); simpl; [done | discriminate].
Qed.

Lemma blank_app s t : blank (s ++ t) = blank s && blank t.
Proof. apply forallb_app. Qed.

Lemma blank_rev s : blank (rev s) = blank s.
Proof.
  induction s as [|c s IH]; simpl; [done|].
  rewrite blank_app, IH. simpl. rewrite andb_true_r. apply andb_comm.
Qed.

(** [strip] only removes whitespace from both ends. *)
Lemma strip_decompose s :
  exists l r, blank l = true /\ blank r = true /\ s = l ++ strip s ++ r.
Proof.
  exists (take_while isspace s), (rev (take_while isspace (rev (lstrip s)))).
  split; [apply take_while_all|]. split.
  - rewrite blank_rev. apply take_while_all.
  - unfold strip, rstrip.
    rewrite <- rev_app_distr, take_drop_while, rev_involutive.
    unfold lstrip. by rewrite take_drop_while.
Qed.

Lemma strip_blank s : blank s = true -> strip s = [].
Proof.
  intros H. unfold strip, rstrip, lstrip. by rewrite (drop_while_all _ _ H).
Qed.

Lemma strip_nil_blank s : strip s = [] -> blank s = true.
Proof.
  intros H. destruct (strip_decompose s) as (l & r & Hl & Hr & E).
  rewrite H in E. rewrite E. simpl. by rewrite blank_app, Hl, Hr.
Qed.

Lemma truthy_strip s : truthy (strip s) = negb (blank s).
Proof.
  destruct (strip s) eqn:E; simpl.
  - by rewrite (strip_nil_blank _ E).
  - destruct (blank s) eqn:B; [|done]. by rewrite (strip_blank _ B) in E.
Qed.

Lemma drop_while_idem {A} (q : A -> bool) (l : list A) :
  drop_while q (drop_while q l) = drop_while q l.
Proof.
  apply drop_while_id. destruct (drop_while q l) eqn:E; [done|].
  eapply drop_while_head. exact E.
Qed.

Lemma strip_lstrip s : strip (lstrip s) = strip s.
Proof. unfold strip, lstrip. by rewrite drop_while_idem. Qed.

(** The result of [strip] does not start with whitespace. *)
Lemma strip_head s c t : strip s = c :: t -> isspace c = false.
Proof.
  intros Hs. rewrite <- strip_lstrip in Hs.
  destruct (strip_decompose (lstrip s)) as (l & r & Hbl & _ & E).
  rewrite Hs in E. destruct l as [|z l]; simpl in E.
  - eapply drop_while_head. exact E.
  - simpl in Hbl. apply andb_prop in Hbl as [Hz _].
    assert (isspace z = false) as Hz'; [|congruence].
    eapply drop_while_head. exact E.
Qed.

(** Stripping twice is stripping once. *)
Lemma strip_idem s : strip (strip s) = strip s.
Proof.
  assert (Hl : lstrip (strip s) = strip s).
  { apply drop_while_id. destruct (strip s) eqn:E; [done|].
    eapply strip_head. exact E. }
  unfold strip at 1. rewrite Hl. unfold strip, rstrip.
  rewrite rev_involutive. by rewrite drop_while_idem.
Qed.

End StringFacts.

Section PrefixFacts.

Implicit Types (s t p a b : pystr) (c : N).

Lemma startswith_app p r : startswith p (p ++ r) = true.
Proof. induction p as [|c p IH]; simpl; [done|]. by rewrite N.eqb_refl. Qed.

Lemma startswith_inv p s :
  startswith p s = true -> s = p ++ drop (length p) s.
Proof.
  revert s. induction p as [|c p IH]; intros [|d s]; simpl; try done.
  intros [Hc Hp]%andb_prop. apply N.eqb_eq in Hc as ->.
  f_equal. by apply IH.
Qed.

Lemma startswith_iff p s : startswith p s = true <-> exists r, s = p ++ r.
Proof.
  split.
  - intros H. eexists. by apply startswith_inv.
  - intros [r ->]. apply startswith_app.
Qed.

Lemma occurs_at_app_length p a b : occurs_at p (a ++ p ++ b) (length a) = true.
Proof. unfold occurs_at. rewrite drop_app_length. apply startswith_app. Qed.

Lemma find_first p s a b :
  s = a ++ p ++ b ->
  (forall j, j < length a -> occurs_at p s j = false) ->
  find p s = Some (length a).
Proof.
  revert s. induction a as [|c a IH]; intros s -> Hno.
  - simpl. destruct (p ++ b) eqn:E; simpl; rewrite <- E;
      by rewrite startswith_app.
  - simpl. pose proof (Hno 0 ltac:(simpl; lia)) as H0.
    unfold occurs_at in H0. simpl in H0. rewrite H0.
    rewrite (IH (a ++ p ++ b)); [done | done |].
    intros j Hj. apply (Hno (S j)). simpl. lia.
Qed.

Lemma find_Some p s k :
  find p s = Some k ->
  s = take k s ++ p ++ drop (k + length p) s
  /\ forall j, j < k -> occurs_at p s j = false.
Proof.
  revert k. induction s as [|c s IH]; intros k; simpl.
  - destruct (startswith p []) eqn:E; [|done]. intros [= <-].
    split; [|lia]. apply startswith_inv in E. simpl in *.
    by rewrite drop_nil in *.
  - destruct (startswith p (c :: s)) eqn:E.
    + intros [= <-]. split; [|lia]. simpl. by apply startswith_inv in E.
    + destruct (find p s) as [k'|] eqn:F; [|done]. simpl. intros [= <-].
      destruct (IH k' eq_refl) as [E1 E2]. split.
      * simpl. by rewrite <- E1.
      * intros [|j] Hj; [exact E|]. apply E2. lia.
Qed.

Lemma startswith_length p s : startswith p s = true -> length p <= length s.
Proof.
  intros H%startswith_inv. apply (f_equal length) in H.
  rewrite length_app in H. lia.
Qed.

Lemma find_bound p s k : find p s = Some k -> k + length p <= length s.
Proof.
  revert k. induction s as [|c s IH]; intros k; simpl.
  - destruct (startswith p []) eqn:E; [|done]. intros [= <-].
    by apply startswith_length in E.
  - destruct (startswith p (c :: s)) eqn:E.
    + intros [= <-]. by apply startswith_length in E.
    + destruct (find p s) as [k'|] eqn:F; [|done]. simpl. intros [= <-].
      specialize (IH k' eq_refl). lia.
Qed.

Lemma find_None p s j : find p s = None -> occurs_at p s j = false.
Proof.
  revert j. induction s as [|c s IH]; intros j; simpl.
  - destruct (startswith p []) eqn:E; [done|]. intros _.
    unfold occurs_at. by rewrite drop_nil.
  - destruct (startswith p (c :: s)) eqn:E; [done|].
    destruct (find p s) eqn:F; [done|]. intros _.
    destruct j as [|j]; [exact E|]. by apply IH.
Qed.

(** [replace(old, new, 1)] rewrites the leftmost occurrence. *)
Lemma replace_first_leftmost old new s a b :
  s = a ++ old ++ b ->
  (forall j, j < length a -> occurs_at old s j = false) ->
  replace_first old new s = a ++ new ++ b.
Proof.
  revert s. induction a as [|c a IH]; intros s -> Hno.
  - simpl. assert (startswith old (old ++ b) = true) as H by apply startswith_app.
    destruct (old ++ b) eqn:E; simpl; rewrite H; rewrite <- E;
      by rewrite drop_app_length.
  - simpl. pose proof (Hno 0 ltac:(simpl; lia)) as H0.
    unfold occurs_at in H0. simpl in H0. rewrite H0. f_equal.
    apply IH; [done|]. intros j Hj. apply (Hno (S j)). simpl. lia.
Qed.

End PrefixFacts.

(** ** Facts about the drivers *)

Lemma line_start_snoc (pre : pystr) c s :
  line_start ((pre ++ [c]) ++ s) (length (pre ++ [c])) = (c =? nl)%N.
Proof.
  rewrite length_app. simpl. rewrite Nat.add_1_r. simpl.
  rewrite <- app_assoc. rewrite lookup_app_r by lia.
  by rewrite Nat.sub_diag.
Qed.

Section DriverFacts.

Context {G : Type} (m : matcher G).
Hypothesis m_bound : forall bol s n g, m bol s = Some (n, g) -> n <= length s.

Lemma search_from_first (pre a r : pystr) n g :
  (forall j, j < length a ->
     m (line_start (pre ++ a ++ r) (length pre + j)) (drop j (a ++ r)) = None) ->
  m (line_start (pre ++ a ++ r) (length pre + length a)) r = Some (n, g) ->
  search_from m (a ++ r) (length pre)
    (line_start (pre ++ a ++ r) (length pre))
  = Some (MkMatch (length pre + length a) (length pre + length a + n)
            (take n r) g).
Proof.
  revert pre. induction a as [|c a IH]; intros pre Hno Hm.
  - simpl in *. rewrite Nat.add_0_r in *. destruct r; simpl; by rewrite Hm.
  - pose proof (Hno 0 ltac:(simpl; lia)) as H0. rewrite Nat.add_0_r in H0.
    simpl in H0. simpl. rewrite H0.
    specialize (IH (pre ++ [c])).
    rewrite line_start_snoc in IH. rewrite length_app in IH. simpl in IH.
    rewrite <- !app_assoc in IH. simpl in IH.
    rewrite Nat.add_1_r in IH. simpl in IH. rewrite IH.
    + do 2 f_equal; lia.
    + intros j Hj. specialize (Hno (S j) ltac:(simpl; lia)).
      replace (length pre + S j) with (S (length pre + j)) in Hno by lia.
      exact Hno.
    + replace (length pre + length (c :: a))
        with (S (length pre + length a)) in Hm by (simpl; lia).
      exact Hm.
Qed.

Lemma search_from_none (pre s : pystr) :
  (forall j, j <= length s ->
     m (line_start (pre ++ s) (length pre + j)) (drop j s) = None) ->
  search_from m s (length pre) (line_start (pre ++ s) (length pre)) = None.
Proof.
  revert pre. induction s as [|c s IH]; intros pre Hno.
  - pose proof (Hno 0 ltac:(simpl; lia)) as H0. rewrite Nat.add_0_r in H0.
    simpl in *. by rewrite H0.
  - pose proof (Hno 0 ltac:(simpl; lia)) as H0. rewrite Nat.add_0_r in H0.
    simpl in H0. simpl. rewrite H0.
    specialize (IH (pre ++ [c])).
    rewrite line_start_snoc in IH. rewrite length_app in IH. simpl in IH.
    rewrite <- !app_assoc in IH. simpl in IH.
    rewrite Nat.add_1_r in IH. simpl in IH. apply IH.
    intros j Hj. specialize (Hno (S j) ltac:(simpl; lia)).
    replace (length pre + S j) with (S (length pre + j)) in Hno by lia.
    exact Hno.
Qed.

(** Any fuel above the length of the text gives the same matches. *)
Lemma finditer_from_fuel f1 f2 (s : pystr) pos bol :
  length s < f1 -> length s < f2 ->
  finditer_from f1 m s pos bol = finditer_from f2 m s pos bol.
Proof.
  revert f2 s pos bol.
  induction f1 as [|f1 IH]; intros [|f2] s pos bol H1 H2; try lia.
  simpl. destruct (m bol s) as [[[|n] g]|] eqn:E.
  - destruct s as [|c s]; [done|]. simpl in *. apply IH; lia.
  - apply m_bound in E. f_equal. apply IH; rewrite length_drop; lia.
  - destruct s as [|c s]; [done|]. simpl in *. apply IH; lia.
Qed.

Lemma sub_from_fuel f1 f2 repl (s : pystr) bol :
  length s < f1 -> length s < f2 ->
  sub_from f1 m repl s bol = sub_from f2 m repl s bol.
Proof.
  revert f2 s bol.
  induction f1 as [|f1 IH]; intros [|f2] s bol H1 H2; try lia.
  simpl. destruct (m bol s) as [[[|n] g]|] eqn:E.
  - destruct s as [|c s]; [done|]. simpl in *. f_equal. apply IH; lia.
  - apply m_bound in E. f_equal. apply IH; rewrite length_drop; lia.
  - destruct s as [|c s]; [done|]. simpl in *. f_equal. apply IH; lia.
Qed.

Lemma finditer_at_nil pos bol : finditer_at m [] pos bol = [].
Proof.
  unfold finditer_at. simpl. destruct (m bol []) as [[[|n] g]|] eqn:E; try done.
  apply m_bound in E. simpl in E. lia.
Qed.

Lemma finditer_at_match (s : pystr) pos bol n g :
  m bol s = Some (S n, g) ->
  finditer_at m s pos bol
  = MkMatch pos (pos + S n) (take (S n) s) g
    :: finditer_at m (drop (S n) s) (pos + S n) (after_nl (take (S n) s)).
Proof.
  intros E. unfold finditer_at at 1. simpl. rewrite E. f_equal.
  apply finditer_from_fuel; [|lia].
  apply m_bound in E. rewrite length_drop. lia.
Qed.

Lemma finditer_at_skip c (s : pystr) pos bol :
  (forall n g, m bol (c :: s) <> Some (S n, g)) ->
  finditer_at m (c :: s) pos bol = finditer_at m s (S pos) (c =? nl)%N.
Proof.
  intros E. unfold finditer_at at 1. simpl.
  destruct (m bol (c :: s)) as [[[|n] g]|] eqn:E'; try done.
  by destruct (E n g).
Qed.

Lemma sub_at_nil repl bol : sub_at m repl [] bol = [].
Proof.
  unfold sub_at. simpl. destruct (m bol []) as [[[|n] g]|] eqn:E; try done.
  apply m_bound in E. simpl in E. lia.
Qed.

Lemma sub_at_match repl (s : pystr) bol n g :
  m bol s = Some (S n, g) ->
  sub_at m repl s bol
  = repl g ++ sub_at m repl (drop (S n) s) (after_nl (take (S n) s)).
Proof.
  intros E. unfold sub_at at 1. simpl. rewrite E. f_equal.
  apply sub_from_fuel; [|lia].
  apply m_bound in E. rewrite length_drop. lia.
Qed.

Lemma sub_at_skip repl c (s : pystr) bol :
  (forall n g, m bol (c :: s) <> Some (S n, g)) ->
  sub_at m repl (c :: s) bol = c :: sub_at m repl s (c =? nl)%N.
Proof.
  intros E. unfold sub_at at 1. simpl.
  destruct (m bol (c :: s)) as [[[|n] g]|] eqn:E'; try done.
  by destruct (E n g).
Qed.

End DriverFacts.

(** ** Facts about the three patterns *)

Section PatternFacts.

Implicit Types (s t g : pystr) (c : N).

Local Arguments fence_open : simpl never.
Local Arguments fence_close : simpl never.
Local Arguments startswith : simpl never.

Lemma take_while_length {A} (q : A -> bool) (l : list A) :
  length (take_while q l) <= length l.
Proof. induction l as [|x l IH]; simpl; [lia|]. destruct (q x); simpl; lia. Qed.

Lemma dot_plus_Some s g :
  dot_plus s = Some g ->
  g = take_while dot s /\ g <> [] /\ length g <= length s.
Proof.
  unfold dot_plus. pose proof (take_while_length dot s).
  destruct (take_while dot s) eqn:E; [done|]. intros [= <-]. done.
Qed.

Lemma fence_re_bound bol s n g : fence_re bol s = Some (n, g) -> n <= length s.
Proof.
  unfold fence_re. destruct (startswith fence_open s) eqn:E; [|done].
  destruct (find fence_close _) as [k|] eqn:F; [|done]. intros [= <- <-].
  apply startswith_length in E. apply find_bound in F.
  rewrite length_drop in F.
  change (length fence_open) with 12 in *.
  change (length fence_close) with 3 in *. lia.
Qed.

Lemma title_re_bound bol s n g : title_re bol s = Some (n, g) -> n <= length s.
Proof.
  unfold title_re. destruct (bol && startswith [hash; sp] s) eqn:E; [|done].
  apply andb_prop in E as [_ E]. apply startswith_inv in E.
  destruct (dot_plus _) as [g'|] eqn:D; [|done]. intros [= <- <-].
  apply dot_plus_Some in D as (_ & _ & D). rewrite E. simpl in *. lia.
Qed.

Lemma heading_try_bound k s n gs :
  heading_try k s = Some (n, gs) -> n <= length s.
Proof.
  unfold heading_try. destruct (startswith _ s) eqn:E; [|done].
  apply startswith_inv in E.
  destruct (dot_plus _) as [g'|] eqn:D; [|done]. intros [= <- <-].
  apply dot_plus_Some in D as (_ & _ & D). rewrite E.
  rewrite length_drop in D. rewrite !length_app, length_drop.
  rewrite !length_app in *. simpl in *. rewrite repeat_length in *.
  apply (f_equal length) in E. rewrite !length_app, length_drop in E.
  simpl in E. rewrite repeat_length in E. lia.
Qed.

Lemma heading_re_bound bol s n gs :
  heading_re bol s = Some (n, gs) -> n <= length s.
Proof.
  unfold heading_re, or_else. destruct bol; [|done].
  destruct (heading_try 3 s) eqn:E3; [intros [= ->]; by eapply heading_try_bound|].
  destruct (heading_try 2 s) eqn:E2; [intros [= ->]; by eapply heading_try_bound|].
  apply heading_try_bound.
Qed.

(** The fence pattern has no [^]: it does not depend on the line-start flag. *)
Lemma sub_fence_bol f s b b' :
  sub_from f fence_re (fun g => g) s b = sub_from f fence_re (fun g => g) s b'.
Proof.
  revert s b b'. induction f as [|f IH]; intros s b b'; simpl; [done|].
  change (fence_re b s) with (fence_re b' s).
  destruct (fence_re b' s) as [[[|n] g]|].
  - destruct s; [done|]. f_equal; apply IH.
  - f_equal; apply IH.
  - destruct s; [done|]. f_equal; apply IH.
Qed.

Lemma remove_markdown_block_at s b :
  sub_at fence_re (fun g => g) s b = remove_markdown_block s.
Proof. apply sub_fence_bol. Qed.

(** Text before the first opening fence is copied. *)
Lemma remove_markdown_block_prefix pre r :
  (forall j, j < length pre -> occurs_at fence_open (pre ++ r) j = false) ->
  remove_markdown_block (pre ++ r) = pre ++ remove_markdown_block r.
Proof.
  induction pre as [|c pre IH]; intros Hno; [done|].
  rewrite <- (remove_markdown_block_at _ true).
  change ((c :: pre) ++ r) with (c :: (pre ++ r)) in *.
  rewrite (sub_at_skip fence_re).
  - rewrite remove_markdown_block_at. simpl. f_equal. apply IH.
    intros j Hj. apply (Hno (S j)). simpl. lia.
  - intros n g. unfold fence_re.
    pose proof (Hno 0 ltac:(simpl; lia)) as H0.
    unfold occurs_at in H0. rewrite drop_0 in H0. by rewrite H0.
Qed.

(** A wrapped region at the head of the text is replaced by its interior
    and the scan goes on after the closing fence. *)
Lemma remove_markdown_block_region inner rest :
  (forall j, j < length inner ->
     occurs_at fence_close (inner ++ fence_close ++ rest) j = false) ->
  remove_markdown_block (fence_open ++ inner ++ fence_close ++ rest)
  = inner ++ remove_markdown_block rest.
Proof.
  intros Hno. rewrite <- (remove_markdown_block_at _ true).
  assert (fence_re true (fence_open ++ inner ++ fence_close ++ rest)
          = Some (S (length fence_open + length inner + 2), inner)) as E.
  { unfold fence_re. rewrite startswith_app, drop_app_length.
    rewrite (find_first _ _ inner rest eq_refl Hno).
    rewrite take_app_length. change (length fence_close) with 3.
    do 2 f_equal. lia. }
  rewrite (sub_at_match fence_re fence_re_bound _ _ _ _ _ E).
  rewrite remove_markdown_block_at. do 2 f_equal.
  replace (S (length fence_open + length inner + 2))
    with (length fence_open + (length inner + (length fence_close + 0)))
    by (simpl; lia).
  rewrite <- !drop_drop, drop_app_length, drop_app_length, drop_app_length.
  done.
Qed.

(** Where the pattern matches nowhere the text is returned as it is. *)
Lemma remove_markdown_block_none s :
  (forall j, fence_re true (drop j s) = None) ->
  remove_markdown_block s = s.
Proof.
  induction s as [|c s IH]; intros Hno; [done|].
  rewrite <- (remove_markdown_block_at _ true).
  rewrite (sub_at_skip fence_re).
  - rewrite remove_markdown_block_at. f_equal. apply IH.
    intros j. apply (Hno (S j)).
  - intros n g. pose proof (Hno 0) as H0. rewrite drop_0 in H0.
    by rewrite H0.
Qed.

End PatternFacts.

(** ** The sections against the body they come from *)

Section SegmentFacts.

Implicit Types (s t g : pystr) (c : N).

Local Arguments startswith : simpl never.

Lemma heading_try_Some k s n g1 g2 :
  heading_try k s = Some (n, (g1, g2)) ->
  g1 = repeat hash k /\ g2 <> [] /\ g2 = take_while dot (drop (k + 1) s)
  /\ n = k + 1 + length g2
  /\ s = repeat hash k ++ [sp] ++ g2 ++ drop n s.
Proof.
  unfold heading_try. destruct (startswith _ s) eqn:E; [|done].
  destruct (dot_plus _) as [g|] eqn:D; [|done]. intros [= <- <- <-].
  apply dot_plus_Some in D as (D1 & D2 & D3).
  repeat split; try done.
  apply startswith_inv in E. rewrite length_app, repeat_length in E.
  simpl in E. rewrite E at 1. rewrite <- app_assoc. do 2 f_equal.
  subst g. rewrite <- (drop_drop s _ (k + 1)). by rewrite take_while_prefix.
Qed.

Lemma heading_re_Some bol s n g1 g2 :
  heading_re bol s = Some (n, (g1, g2)) ->
  exists k, 1 <= k <= 3 /\ bol = true /\ heading_try k s = Some (n, (g1, g2)).
Proof.
  unfold heading_re, or_else. destruct bol; [|done].
  destruct (heading_try 3 s) eqn:E3; [intros [= ->]; exists 3; split; [lia|done]|].
  destruct (heading_try 2 s) eqn:E2; [intros [= ->]; exists 2; split; [lia|done]|].
  intros E1. exists 1. split; [lia|done].
Qed.

Lemma span_sections_app acc span :
  (if truthy (strip span)
   then acc ++ [Section_ paragraph (strip span)] else acc)
  = acc ++ span_sections span.
Proof.
  unfold span_sections. destruct (truthy (strip span)); [done|].
  by rewrite app_nil_r.
Qed.

Lemma Rebuilds_span span bs rest :
  Rebuilds bs rest -> Rebuilds (span_sections span ++ bs) (span ++ rest).
Proof.
  intros HR. unfold span_sections.
  destruct (truthy (strip span)) eqn:T; simpl.
  - destruct (strip_decompose span) as (l & r & Hl & Hr & E).
    rewrite E at 2. rewrite <- !app_assoc.
    apply Rb_blank; [done|]. apply Rb_paragraph.
    + intros H. by rewrite H in T.
    + apply strip_idem.
    + by apply Rb_blank.
  - apply Rb_blank; [|done]. rewrite truthy_strip in T.
    by destruct (blank span).
Qed.

Lemma loop_end_gap done gap acc :
  loop_end (done ++ gap) (length done, acc) = acc ++ span_sections gap.
Proof.
  unfold loop_end. rewrite length_app.
  destruct (length done <? length done + length gap) eqn:L.
  - rewrite drop_app_length. apply span_sections_app.
  - apply Nat.ltb_ge in L. destruct gap; [|simpl in L; lia].
    by rewrite app_nil_r.
Qed.

Lemma loop_body_at done gap s acc n g1 g2 :
  loop_body (done ++ gap ++ s) (length done, acc)
    (MkMatch (length done + length gap) n (g1 ++ [sp] ++ g2) (g1, g2))
  = (n, (acc ++ span_sections gap)
        ++ [Section_ (heading (length g1)) (g1 ++ [sp] ++ strip g2)]).
Proof.
  unfold loop_body, slice. simpl.
  replace (length done + length gap - length done) with (length gap) by lia.
  rewrite drop_app_length, take_app_length. by rewrite span_sections_app.
Qed.

(** The loop and the code after it, from any position of the scan. *)
Lemma segment_from n : forall s content done gap acc bol,
  length s <= n ->
  content = done ++ gap ++ s ->
  exists R,
    loop_end content
      (fold_left (loop_body content)
         (finditer_at heading_re s (length done + length gap) bol)
         (length done, acc)) = acc ++ R
    /\ Rebuilds R (gap ++ s).
Proof.
  induction n as [|n IH]; intros s content done gap acc bol Hn ->.
  - destruct s; [|simpl in Hn; lia].
    rewrite (finditer_at_nil _ heading_re_bound). cbn [fold_left].
    rewrite !app_nil_r, loop_end_gap. eexists; split; [done|].
    rewrite <- (app_nil_r gap) at 2. rewrite <- (app_nil_r (span_sections gap)).
    apply Rebuilds_span, Rb_end.
  - destruct s as [|c s].
    { rewrite (finditer_at_nil _ heading_re_bound). cbn [fold_left].
      rewrite !app_nil_r, loop_end_gap. eexists; split; [done|].
      rewrite <- (app_nil_r gap) at 2.
      rewrite <- (app_nil_r (span_sections gap)).
      apply Rebuilds_span, Rb_end. }
    destruct (heading_re bol (c :: s)) as [[[|n'] [g1 g2]]|] eqn:E.
    + rewrite finditer_at_skip by (intros ? ?; congruence).
      destruct (IH s (done ++ (gap ++ [c]) ++ s) done (gap ++ [c]) acc
                  (c =? nl)%N) as (R & HR1 & HR2);
        [simpl in Hn; lia | done |].
      rewrite length_app in HR1. simpl in HR1.
      replace (length done + (length gap + 1))
        with (S (length done + length gap)) in HR1 by lia.
      rewrite <- !app_assoc in HR1, HR2. simpl in HR1, HR2.
      exists R. done.
    + rewrite (finditer_at_match _ heading_re_bound _ _ _ _ _ E).
      pose proof (heading_re_bound _ _ _ _ E) as Hb.
      apply heading_re_Some in E as (k & Hk & _ & E).
      apply heading_try_Some in E as (-> & Hg2 & _ & Hn' & Es).
      remember (c :: s) as cs eqn:Ecs.
      change (fold_left ?f (?x :: ?l) ?a) with (fold_left f l (f a x)).
      assert (take (S n') cs = repeat hash k ++ [sp] ++ g2) as Et.
      { rewrite Es. rewrite !app_assoc. rewrite take_app_length'; [done|].
        rewrite !length_app, repeat_length. simpl. lia. }
      rewrite Et, loop_body_at.
      destruct (IH (drop (S n') cs)
                  (done ++ gap ++ cs)
                  (done ++ gap ++ take (S n') cs) [] 
                  ((acc ++ span_sections gap) ++
                     [Section_ (heading (length (repeat hash k)))
                        (repeat hash k ++ [sp] ++ strip g2)])
                  (after_nl (repeat hash k ++ [sp] ++ g2)))
        as (R & HR1 & HR2).
      { rewrite length_drop. subst cs. simpl in Hn |- *. lia. }
      { simpl. rewrite <- !app_assoc. by rewrite take_drop. }
      assert (length (done ++ gap ++ take (S n') cs)
              = length done + length gap + S n') as Hlen
        by (rewrite !length_app, length_take; lia).
      rewrite Hlen in HR1. cbn [length] in HR1. rewrite Nat.add_0_r in HR1.
      rewrite HR1. rewrite <- !app_assoc. eexists; split; [done|].
      apply Rebuilds_span. rewrite app_nil_l in HR2. rewrite repeat_length.
      destruct (strip_decompose g2) as (l & r & Hl & Hr & Eg).
      rewrite Es. rewrite Eg at 2. rewrite <- !app_assoc.
      apply Rb_heading; [done | done | apply strip_idem |].
      by apply Rb_blank.
    + rewrite finditer_at_skip by (intros ? ?; congruence).
      destruct (IH s (done ++ (gap ++ [c]) ++ s) done (gap ++ [c]) acc
                  (c =? nl)%N) as (R & HR1 & HR2);
        [simpl in Hn; lia | done |].
      rewrite length_app in HR1. simpl in HR1.
      replace (length done + (length gap + 1))
        with (S (length done + length gap)) in HR1 by lia.
      rewrite <- !app_assoc in HR1, HR2. simpl in HR1, HR2.
      exists R. done.
Qed.

(** The sections of a body rebuild it. *)
Lemma segment_Rebuilds content : Rebuilds (segment content) content.
Proof.
  destruct (segment_from (length content) content content [] [] [] true)
    as (R & HR1 & HR2); [done | done |].
  unfold segment, finditer. unfold finditer_at in HR1.
  cbn [length Nat.add app] in HR1, HR2. by rewrite HR1.
Qed.

Lemma visible_text_app s t :
  visible_text (s ++ t) = visible_text s ++ visible_text t.
Proof. unfold visible_text. apply List.filter_app. Qed.

Lemma visible_text_blank s : blank s = true -> visible_text s = [].
Proof.
  induction s as [|c s IH]; simpl; [done|].
  intros [-> Hs]%andb_prop. simpl. by apply IH.
Qed.

Lemma Rebuilds_visible bs body :
  Rebuilds bs body ->
  visible_text (concat (map sec_content bs)) = visible_text body.
Proof.
  induction 1 as [|ws bs rest Hws _ IH|t bs rest _ _ _ IH
                  |k ws t bs rest _ Hws _ _ IH]; simpl.
  - done.
  - by rewrite visible_text_app, (visible_text_blank _ Hws).
  - by rewrite !visible_text_app, IH.
  - rewrite !visible_text_app, IH. simpl.
    by rewrite !visible_text_app, (visible_text_blank _ Hws), <- app_assoc.
Qed.

End SegmentFacts.

(** ** Lines that begin with a given text *)

Section TitleFacts.

Implicit Types (s t g : pystr) (c : N).

Local Arguments N.eqb : simpl never.

Lemma line_start_beyond t j : length t < j -> line_start t j = false.
Proof.
  destruct j as [|j]; [lia|]. intros H. simpl.
  by rewrite lookup_ge_None_2 by lia.
Qed.

Lemma has_line_beginning_false p t j :
  has_line_beginning p t = false ->
  line_start t j = true -> occurs_at p t j = false.
Proof.
  intros H L. destruct (decide (j <= length t)) as [Hj|Hj].
  - destruct (occurs_at p t j) eqn:O; [|done].
    assert (has_line_beginning p t = true); [|congruence].
    apply existsb_exists. exists j. split.
    + apply in_seq. lia.
    + unfold line_begins. by rewrite L, O.
  - rewrite line_start_beyond in L by lia. done.
Qed.

Lemma take_while_app_stop {A} (q : A -> bool) (g post : list A) :
  forallb q g = true ->
  match post with [] => True | c :: _ => q c = false end ->
  take_while q (g ++ post) = g.
Proof.
  intros Hg Hp. induction g as [|x g IH].
  - destruct post; simpl; [done|]. by rewrite Hp.
  - simpl in Hg |- *. apply andb_prop in Hg as [-> Hg]. by rewrite IH.
Qed.

(** The title pattern at the start of a title line. *)
Lemma title_re_line g post :
  g <> [] -> forallb dot g = true ->
  match post with [] => True | c :: _ => dot c = false end ->
  title_re true (hash :: sp :: g ++ post) = Some (2 + length g, g).
Proof.
  intros Hg Hd Hp. unfold title_re. simpl. rewrite drop_0.
  unfold dot_plus. rewrite (take_while_app_stop _ _ _ Hd Hp).
  by destruct g.
Qed.

Lemma title_re_miss t j :
  title_line_at t j = false -> title_re (line_start t j) (drop j t) = None.
Proof.
  unfold title_line_at, title_re.
  destruct (line_start t j); [|done]. simpl.
  destruct (drop j t) as [|a [|b [|c r]]]; simpl; try done.
  - by rewrite andb_false_r.
  - rewrite (N.eqb_sym hash a), (N.eqb_sym sp b), andb_true_r.
    unfold dot_plus. by destruct (_ && _).
  - rewrite (N.eqb_sym hash a), (N.eqb_sym sp b), andb_true_r.
    destruct ((a =? hash)%N && (b =? sp)%N); [|done]. simpl.
    unfold dot_plus. simpl. by intros ->.
Qed.

Lemma title_line_at_begins t j :
  title_line_at t j = true -> line_begins [hash; sp] t j = true.
Proof.
  unfold title_line_at, line_begins, occurs_at.
  destruct (line_start t j); [|done]. simpl.
  destruct (drop j t) as [|a [|b [|c r]]]; simpl; try done.
  rewrite (N.eqb_sym hash a), (N.eqb_sym sp b), andb_true_r.
  by intros [-> _]%andb_prop.
Qed.

(** Without a title line the search fails. *)
Lemma search_title_none t :
  (forall j, title_line_at t j = false) -> search title_re t = None.
Proof.
  intros H. apply (search_from_none title_re [] t).
  intros j _. simpl. by apply title_re_miss.
Qed.

(** The search finds the first title line. *)
Lemma search_title_first pre g post :
  let t := pre ++ hash :: sp :: g ++ post in
  line_start t (length pre) = true ->
  g <> [] -> forallb dot g = true ->
  match post with [] => True | c :: _ => dot c = false end ->
  (forall j, j < length pre -> title_line_at t j = false) ->
  search title_re t
  = Some (MkMatch (length pre) (length pre + (2 + length g))
            (hash :: sp :: g) g).
Proof.
  intros t L Hg Hd Hp Hno.
  pose proof (search_from_first title_re [] pre (hash :: sp :: g ++ post)
                (2 + length g) g) as S.
  simpl in S. unfold search. fold t in S. rewrite S.
  - by rewrite take_app_length.
  - intros j Hj. apply title_re_miss. by apply Hno.
  - rewrite L. by apply title_re_line.
Qed.

End TitleFacts.

(** ** The sections as spans and headings *)

Section LayoutFacts.

Implicit Types (s t g : pystr) (c : N).

Lemma loop_layout ms : forall content last_pos acc,
  loop_end content (fold_left (loop_body content) ms (last_pos, acc))
  = acc ++ layout content last_pos ms.
Proof.
  induction ms as [|m ms IH]; intros content last_pos acc.
  - cbn [fold_left layout]. unfold loop_end.
    destruct (last_pos <? length content); [|by rewrite app_nil_r].
    apply span_sections_app.
  - cbn [fold_left layout]. unfold loop_body at 2.
    rewrite IH, span_sections_app. by rewrite <- !app_assoc.
Qed.

Lemma segment_layout content :
  segment content = layout content 0 (finditer heading_re content).
Proof. unfold segment. by rewrite loop_layout. Qed.

Lemma span_sections_paragraph span :
  List.filter is_paragraph (span_sections span) = span_sections span.
Proof. unfold span_sections. by destruct (truthy _). Qed.

Lemma span_sections_no_heading span :
  List.filter (fun b => negb (is_paragraph b)) (span_sections span) = [].
Proof. unfold span_sections. by destruct (truthy _). Qed.

Lemma layout_paragraphs content ms : forall last_pos,
  List.filter is_paragraph (layout content last_pos ms)
  = flat_map span_sections (spans_from content last_pos ms).
Proof.
  induction ms as [|m ms IH]; intros last_pos; simpl.
  - destruct (last_pos <? length content); simpl; [|done].
    by rewrite span_sections_paragraph, app_nil_r.
  - by rewrite List.filter_app, span_sections_paragraph; simpl; rewrite IH.
Qed.

Lemma layout_headings content ms : forall last_pos,
  List.filter (fun b => negb (is_paragraph b)) (layout content last_pos ms)
  = map heading_of ms.
Proof.
  induction ms as [|m ms IH]; intros last_pos; simpl.
  - destruct (last_pos <? length content); simpl; [|done].
    by rewrite span_sections_no_heading.
  - by rewrite List.filter_app, span_sections_no_heading; simpl; rewrite IH.
Qed.

Lemma flat_map_span_sections (l : list pystr) :
  flat_map span_sections l
  = map (fun span => Section_ paragraph (strip span))
        (List.filter (fun span => negb (blank span)) l).
Proof.
  induction l as [|span l IH]; simpl; [done|].
  rewrite IH. unfold span_sections. rewrite truthy_strip.
  by destruct (blank span).
Qed.

(** No section of a rebuilt body has an empty text. *)
Lemma Rebuilds_nonempty bs body b :
  Rebuilds bs body -> In b bs -> sec_content b <> [].
Proof.
  induction 1 as [|ws bs rest _ _ IH|t bs rest Ht _ _ IH
                  |k ws t bs rest _ _ _ _ IH]; simpl.
  - done.
  - exact IH.
  - intros [<-|Hb]; [done | by apply IH].
  - intros [<-|Hb]; [|by apply IH]. simpl. by destruct (repeat hash k).
Qed.

(** A heading section has level 1, 2 or 3, and its text is that many
    hashes, a space and the stripped heading text. *)
Lemma Rebuilds_heading bs body k txt :
  Rebuilds bs body -> In (Section_ (heading k) txt) bs ->
  1 <= k <= 3 /\ exists t, txt = repeat hash k ++ [sp] ++ t /\ strip t = t.
Proof.
  induction 1 as [|ws bs rest _ _ IH|t bs rest Ht _ _ IH
                  |k' ws t bs rest Hk _ Ht _ IH]; simpl.
  - done.
  - exact IH.
  - intros [?|Hb]; [done | by apply IH].
  - intros [[= <- <-]|Hb]; [|by apply IH]. split; [done|]. by exists t.
Qed.

End LayoutFacts.

Section FinditerSound.

Context {G : Type} (m : matcher G).
Hypothesis m_bound : forall bol s n g, m bol s = Some (n, g) -> n <= length s.

(** Every match that [finditer] yields is a match of the pattern at the
    index where it starts. *)
Lemma finditer_at_sound n : forall (s : pystr) pos bol x,
  length s <= n ->
  In x (finditer_at m s pos bol) ->
  exists j b k,
    m_start x = pos + j /\ m b (drop j s) = Some (S k, groups x)
    /\ m_end x = m_start x + S k /\ group0 x = take (S k) (drop j s).
Proof.
  induction n as [|n IH]; intros s pos bol x Hn Hx.
  - destruct s; [|simpl in Hn; lia].
    by rewrite (finditer_at_nil m m_bound) in Hx.
  - destruct s as [|c s]; [by rewrite (finditer_at_nil m m_bound) in Hx|].
    destruct (m bol (c :: s)) as [[[|k] g]|] eqn:E.
    + rewrite finditer_at_skip in Hx by (intros ? ?; congruence).
      destruct (IH s (S pos) _ x ltac:(simpl in Hn; lia) Hx)
        as (j & b & k & H1 & H2 & H3 & H4).
      exists (S j), b, k. split; [lia|done].
    + rewrite (finditer_at_match m m_bound _ _ _ _ _ E) in Hx.
      destruct Hx as [<-|Hx].
      * exists 0, bol, k. simpl. rewrite Nat.add_0_r. done.
      * pose proof (m_bound _ _ _ _ E) as Hb.
        destruct (IH (drop (S k) (c :: s)) (pos + S k)
                    (after_nl (take (S k) (c :: s))) x) as
          (j & b & k' & H1 & H2 & H3 & H4); [|exact Hx|].
        { rewrite length_drop. simpl in Hn |- *. lia. }
        exists (S k + j), b, k'. rewrite <- drop_drop.
        split; [lia|done].
    + rewrite finditer_at_skip in Hx by (intros ? ?; congruence).
      destruct (IH s (S pos) _ x ltac:(simpl in Hn; lia) Hx)
        as (j & b & k & H1 & H2 & H3 & H4).
      exists (S j), b, k. split; [lia|done].
Qed.

End FinditerSound.

(** ** The parser: the claims *)

Lemma parse_markdown_sections input :
  snd (parse_markdown input) = segment (snd (title_and_body input)).
Proof. unfold parse_markdown. by destruct (title_and_body input). Qed.

Lemma parse_markdown_title input :
  fst (parse_markdown input) = fst (title_and_body input).
Proof. unfold parse_markdown. by destruct (title_and_body input). Qed.

(** C1, as amended.  Let [text] be the input after the fences are removed,
    and let its first line that begins with a hash, a space and at least
    one more code point be [# g].  The title is [g] stripped.  When the
    first occurrence of the text [# g] is that line, the body that is
    segmented is the text without it, stripped. *)
Theorem parse_markdown_title_line input pre g post :
  let text := remove_markdown_block input in
  text = pre ++ [hash; sp] ++ g ++ post ->
  line_start text (length pre) = true ->
  g <> [] -> forallb dot g = true -> line_ends post = true ->
  forallb (fun j => negb (title_line_at text j)) (seq 0 (length pre)) = true ->
  fst (parse_markdown input) = strip g
  /\ (find ([hash; sp] ++ g) text = Some (length pre) ->
      snd (parse_markdown input) = segment (strip (pre ++ post))).
Proof.
  intros text Et L Hg Hd Hp Hfirst.
  assert (search title_re text
          = Some (MkMatch (length pre) (length pre + (2 + length g))
                    (hash :: sp :: g) g)) as S.
  { pose proof (search_title_first pre g post) as Hs. cbv zeta in Hs.
    change (pre ++ hash :: sp :: g ++ post)
      with (pre ++ [hash; sp] ++ g ++ post) in Hs.
    rewrite <- Et in Hs. apply Hs; try done.
    - destruct post as [|c post]; [done|]. simpl in Hp. unfold dot.
      by rewrite Hp.
    - intros j Hj. rewrite forallb_forall in Hfirst.
      specialize (Hfirst j). rewrite in_seq in Hfirst.
      apply negb_true_iff, Hfirst. lia. }
  rewrite parse_markdown_title, parse_markdown_sections.
  unfold title_and_body. fold text. rewrite S. simpl. split; [done|].
  intros F. f_equal. f_equal.
  apply find_Some in F as [_ F].
  rewrite (replace_first_leftmost _ [] text pre post); [done| |done].
  by rewrite Et.
Qed.

Lemma parse_markdown_title_line_witness :
  parse_markdown (joinNL ["Lead."; "# My Title"; "Intro text."; "## One"])
  = (s2p "My Title",
     [Section_ paragraph (joinNL ["Lead."; ""; "Intro text."]);
      Section_ (heading 2) (s2p "## One")]).
Proof.
  pose proof (parse_markdown_title_line
                (joinNL ["Lead."; "# My Title"; "Intro text."; "## One"])
                (s2p "Lead." ++ [nl]) (s2p "My Title")
                (nl :: joinNL ["Intro text."; "## One"])
                eq_refl eq_refl ltac:(discriminate) eq_refl eq_refl eq_refl)
    as [H1 H2].
  specialize (H2 eq_refl).
  rewrite (surjective_pairing (parse_markdown _)), H1, H2.
  vm_compute. reflexivity.
Defined.

(** C1 as stated fails: with two equal title lines only the first is
    removed, and the second one is emitted as a heading section. *)
Lemma title_line_reappears :
  let input := joinNL ["# A"; "# A"] in
  has_line_beginning [hash; sp] input = true
  /\ parse_markdown input = (s2p "A", [Section_ (heading 1) (s2p "# A")])
  /\ exists b, In b (snd (parse_markdown input)) /\ sec_content b = s2p "# A".
Proof.
  split; [vm_compute; reflexivity|]. split; [vm_compute; reflexivity|].
  exists (Section_ (heading 1) (s2p "# A")). split; [|reflexivity].
  vm_compute. by left.
Qed.

(** C8, as amended.  When no line of the text that is left after the
    fences are removed begins with a hash and a space, the title is the
    fixed placeholder and that whole text is the body that is segmented.
    [parse_markdown] is a total function: this case is not an error. *)
Theorem parse_markdown_untitled input :
  has_line_beginning [hash; sp] (remove_markdown_block input) = false ->
  parse_markdown input = (untitled, segment (remove_markdown_block input)).
Proof.
  intros H. unfold parse_markdown, title_and_body.
  rewrite search_title_none; [done|].
  intros j. destruct (title_line_at _ j) eqn:T; [|done].
  apply title_line_at_begins in T. unfold line_begins in T.
  apply andb_prop in T as [L O].
  by rewrite (has_line_beginning_false _ _ _ H L) in O.
Qed.

Lemma parse_markdown_untitled_witness :
  parse_markdown (joinNL ["Hello."; "## Part"; "More."])
  = (untitled,
     [Section_ paragraph (s2p "Hello.");
      Section_ (heading 2) (s2p "## Part");
      Section_ paragraph (s2p "More.")]).
Proof.
  rewrite (parse_markdown_untitled
             (joinNL ["Hello."; "## Part"; "More."]) eq_refl).
  vm_compute. reflexivity.
Defined.

(** C8 as stated fails: no line of this input begins with a hash and a
    space, but removing the fence leaves the line [# T], which becomes the
    title. *)
Lemma fence_uncovers_title :
  let input := joinNL ["```markdown"; "```# T"] in
  has_line_beginning [hash; sp] input = false
  /\ parse_markdown input = (s2p "T", [])
  /\ fst (parse_markdown input) <> untitled.
Proof. repeat split; vm_compute; congruence. Qed.

(** C4, as amended.  Every wrapped region is replaced by its interior:
    the text up to the first opening fence is kept, the region that ends
    at the first closing fence after it is replaced by its interior, which
    is not scanned again, and the text after that closing fence is treated
    in the same way. *)
Theorem remove_markdown_block_every_region pre inner rest :
  let text := pre ++ fence_open ++ inner ++ fence_close ++ rest in
  find fence_open text = Some (length pre) ->
  find fence_close (inner ++ fence_close ++ rest) = Some (length inner) ->
  remove_markdown_block text = pre ++ inner ++ remove_markdown_block rest.
Proof.
  intros text Ho Hc.
  apply find_Some in Ho as [_ Ho]. apply find_Some in Hc as [_ Hc].
  unfold text. rewrite remove_markdown_block_prefix by exact Ho.
  by rewrite remove_markdown_block_region.
Qed.

Lemma remove_markdown_block_every_region_witness :
  remove_markdown_block
    (s2p "x" ++ fence_open ++ s2p "A" ++ fence_close
       ++ (s2p "y" ++ fence_open ++ s2p "B" ++ fence_close ++ s2p "z"))
  = s2p "xAyBz".
Proof.
  rewrite (remove_markdown_block_every_region
             (s2p "x") (s2p "A")
             (s2p "y" ++ fence_open ++ s2p "B" ++ fence_close ++ s2p "z")
             eq_refl eq_refl).
  vm_compute. reflexivity.
Defined.

(** C4 as stated fails: the second wrapped region of this input is
    stripped as well, where stripping only the first region would leave
    it as it is. *)
Lemma second_region_stripped :
  let input := joinNL ["```markdown"; "A```x```markdown"; "B```"] in
  remove_markdown_block input = s2p "AxB"
  /\ remove_first_block_only input = s2p "Ax" ++ joinNL ["```markdown"; "B```"]
  /\ remove_markdown_block input <> remove_first_block_only input.
Proof. repeat split; vm_compute; congruence. Qed.

(** C6.  The sections are emitted in the order of the text: for each
    heading match from left to right, the paragraph of the span before it
    (when it has one) and then the heading, and at last the paragraph of
    the text after the last heading.  They rebuild the body: the body is
    the texts of the sections, in the order of emission and each once,
    separated by whitespace-only text (in a heading, whitespace may also
    follow the marker and its space).  So the sections and the body have
    the same code points that are not whitespace, in the same order. *)
Theorem sections_rebuild_body input :
  let body := snd (title_and_body input) in
  let sections := snd (parse_markdown input) in
  sections = layout body 0 (finditer heading_re body)
  /\ Rebuilds sections body
  /\ visible_text (concat (map sec_content sections)) = visible_text body.
Proof.
  intros body sections. unfold sections, body.
  rewrite parse_markdown_sections.
  pose proof (segment_Rebuilds (snd (title_and_body input))) as R.
  split; [apply segment_layout|]. split; [exact R|].
  by apply Rebuilds_visible.
Qed.

Lemma four_hashes_miss k r :
  1 <= k <= 3 -> startswith (repeat hash 4) (repeat hash k ++ [sp] ++ r) = false.
Proof.
  intros Hk. destruct k as [|[|[|[|k]]]]; try lia; reflexivity.
Qed.

(** C7.  The heading pattern does not match at a line that starts with
    four hashes; no heading match of a body starts at such a place; the
    heading sections are exactly the heading matches, so each has level 1,
    2 or 3 and a text that does not begin with four hashes; and the input
    of the example gives the placeholder title and one paragraph that is
    the whole text. *)
Theorem four_hashes_not_heading :
  (forall bol rest, heading_re bol (repeat hash 4 ++ rest) = None)
  /\ (forall body,
        forallb (fun x => negb (occurs_at (repeat hash 4) body (m_start x)))
                (finditer heading_re body) = true)
  /\ (forall body,
        List.filter (fun b => negb (is_paragraph b)) (segment body)
        = map heading_of (finditer heading_re body))
  /\ (forall input, forallb level_ok (snd (parse_markdown input)) = true)
  /\ parse_markdown (joinNL ["#### Not A Real Heading"; "text"])
     = (untitled,
        [Section_ paragraph (joinNL ["#### Not A Real Heading"; "text"])]).
Proof.
  split; [|split; [|split; [|split]]].
  - intros [] rest; reflexivity.
  - intros body. apply forallb_forall. intros x Hx.
    destruct (finditer_at_sound heading_re heading_re_bound
                (length body) body 0 true x (le_n _) Hx)
      as (j & b & k & H1 & H2 & _ & _).
    destruct (groups x) as [g1 g2].
    apply heading_re_Some in H2 as (k' & Hk & _ & H2).
    apply heading_try_Some in H2 as (_ & _ & _ & _ & E).
    simpl in H1. rewrite H1. unfold occurs_at. rewrite E.
    by rewrite four_hashes_miss.
  - intros body. rewrite segment_layout. apply layout_headings.
  - intros input. rewrite parse_markdown_sections.
    apply forallb_forall. intros [[|k] txt] Hb; [done|].
    destruct (Rebuilds_heading _ _ k txt (segment_Rebuilds _) Hb)
      as (Hk & t & -> & _).
    unfold level_ok. cbn [sec_type sec_content].
    rewrite (four_hashes_miss k t Hk).
    destruct Hk as [H1 H3]. apply Nat.leb_le in H1, H3.
    by rewrite H1, H3.
  - vm_compute. reflexivity.
Qed.

(** C9.  No section has an empty text, and the paragraph sections are
    exactly the spans around the headings that are not whitespace only,
    each stripped: a whitespace-only span gives no section. *)
Theorem blank_spans_give_no_paragraph input :
  let body := snd (title_and_body input) in
  let sections := snd (parse_markdown input) in
  forallb (fun b => truthy (sec_content b)) sections = true
  /\ List.filter is_paragraph sections
     = map (fun span => Section_ paragraph (strip span))
           (List.filter (fun span => negb (blank span)) (spans body)).
Proof.
  intros body sections. unfold sections, body.
  rewrite parse_markdown_sections. split.
  - apply forallb_forall. intros b Hb.
    pose proof (Rebuilds_nonempty _ _ b (segment_Rebuilds _) Hb) as H.
    by destruct (sec_content b).
  - rewrite segment_layout, layout_paragraphs. apply flat_map_span_sections.
Qed.

(** ** The runs of [post_article] *)

Section RunFacts.

Variable w : world.

Local Open Scope py_scope.

Lemma Block_ret {A} (a : A) : Block (ret a).
Proof. intros st. exists []. simpl. by rewrite app_nil_r. Qed.

Lemma Block_bind {A B} (m : M A) (k : A -> M B) :
  Block m -> (forall a, Block (k a)) -> Block (bind m k).
Proof.
  intros Hm Hk st. destruct (Hm st) as (evs & Ht & Ha & Hu & Hr).
  unfold bind. destruct (m st) as [st1 [a|b|]]; simpl in *.
  - destruct (Hk a st1) as (evs' & Ht' & Ha' & Hu' & Hr').
    exists (evs ++ evs'). rewrite Ht', Ht, Ha', Ha, app_assoc, !forallb_app, Hu, Hu'.
    repeat split; try done.
    destruct (k a st1).2; [|done..]. by rewrite Hr, Hr'.
  - done.
  - by exists evs.
Qed.

Lemma Block_extern s c :
  unsaved (Ev s c Done) = true -> Block (extern w s c).
Proof.
  intros H st. unfold extern.
  assert (unsaved (Ev s c Raised) = true) as H'.
  { unfold unsaved in *. apply andb_prop in H as [H _]. simpl in *.
    rewrite H. by destruct s, c. }
  destruct (raises w (trace st) c); simpl.
  - exists [Ev s c Raised]. simpl. by rewrite H'.
  - exists [Ev s c Done]. simpl. rewrite H. repeat split; try done.
    unfold quiet. unfold unsaved in H. apply andb_prop in H as [-> _]. done.
Qed.

Lemma Block_for_each {A} (l : list A) (body : A -> M unit) :
  (forall x, Block (body x)) -> Block (for_each l body).
Proof.
  intros H. induction l as [|x l IH]; simpl.
  - apply Block_ret.
  - apply Block_bind; [apply H | by intros _].
Qed.

Lemma Guarded_bind {A} (m : M A) (k : A -> M unit) :
  Block m -> (forall a, Guarded (k a)) -> Guarded (bind m k).
Proof.
  intros Hm Hk st. destruct (Hm st) as (evs & Ht & Ha & Hu & Hr).
  unfold bind. destruct (m st) as [st1 [a|b|]]; simpl in *.
  - destruct (Hk a st1) as (evs' & Ht' & Hc).
    exists (evs ++ evs'). rewrite Ht', Ht, app_assoc. split; [done|].
    destruct Hc as [(E & Ha' & Hu')|(E & evs1 & evs2 & -> & Hq & Hp)].
    + left. by rewrite E, Ha', Ha, forallb_app, Hu, Hu'.
    + right. split; [done|]. exists (evs ++ evs1), evs2.
      rewrite <- app_assoc, forallb_app, Hr, Hq, <- Ha. done.
  - done.
  - exists evs. split; [done|]. left. done.
Qed.

Ltac step_call :=
  match goal with
  | |- context [raises w ?tr ?c] => destruct (raises w tr c) eqn:?; simpl
  | |- context [answers w ?tr ?c] => destruct (answers w tr c) eqn:?; simpl
  end.

(** The save, the publish step and the final [return True]. *)
Lemma Guarded_save_publish : Guarded (save w ;; publish w ;; return_ true).
Proof.
  intros st.
  unfold save, publish, bind, try_except, extern, extern_bool, return_, ret,
    set_status, set_published_at, now, log; simpl.
  repeat step_call;
    rewrite <- ?app_assoc; simpl;
    (eexists; split; [reflexivity|]);
    first
      [ left; done
      | right; split; [done|];
        eexists [Ev Saving (page_click sel_save) Done], _;
        split; [reflexivity|]; split; [done|];
        split; [done|]; first [ by left | right; split; [done|]; by eexists ] ].
Qed.

Lemma Guarded_guarded self title sections :
  Guarded (guarded w self title sections).
Proof.
  unfold guarded.
  apply Guarded_bind; [|intros _].
  { unfold login. repeat (apply Block_bind; [|intros _]);
      by apply Block_extern. }
  apply Guarded_bind; [|intros _].
  { unfold open_editor. repeat (apply Block_bind; [|intros _]);
      by apply Block_extern. }
  apply Guarded_bind; [|intros _].
  { unfold enter_title. repeat (apply Block_bind; [|intros _]);
      by apply Block_extern. }
  apply Guarded_bind; [|intros _].
  { apply Block_for_each. intros x. unfold enter_section.
    destruct (sec_type x);
      repeat (apply Block_bind; [|intros _]); by apply Block_extern. }
  apply Guarded_save_publish.
Qed.

(** The closing calls go through, or one of them raises. *)
Lemma closing_cases tr :
  (closing w tr = closed /\ existsb is_raised (closing w tr) = false)
  \/ (In (closing w tr) unclosed /\ existsb is_raised (closing w tr) = true).
Proof.
  unfold closing, outcome.
  destruct (raises w tr context_close); cbn [is_raised ev_result].
  - right. destruct (raises w _ sync_playwright_exit); simpl; auto.
  - destruct (raises w _ browser_close);
      destruct (raises w _ sync_playwright_exit); simpl; auto 10.
Qed.

Lemma closing_quiet tr :
  existsb is_raised (closing w tr) = false -> closing w tr = closed.
Proof.
  destruct (closing_cases tr) as [[E _]|[_ E]]; [done|]. by rewrite E.
Qed.

(** The end of the outer [try], its [finally] and the exit of the [with]
    statement, after a guarded part that does not end normally. *)
Lemma finally_close (m : M unit) st :
  (forall v, (m st).2 <> Normal v) ->
  (let '(st1, r1) :=
     try_finally (try_except m (return_ false))
       (extern w Closing context_close ;; extern w Closing browser_close) st in
   match extern w Closing sync_playwright_exit st1 with
   | (st2, Normal _) => (st2, r1)
   | (st2, Return b) => (st2, Return b)
   | (st2, Raise) => (st2, Raise)
   end)
  = close_run w (m st).
Proof.
  intros Hn. unfold try_finally, try_except, close_run, closing, outcome.
  destruct (m st) as [[tr a] [v|b|]]; [by destruct (Hn v)| |];
    unfold bind, extern, return_, log; cbn [trace article fst snd];
    destruct (raises w tr context_close); cbn [is_raised ev_result];
    cbn [trace article fst snd];
    try destruct (raises w (tr ++ [_]) browser_close);
    cbn [trace article fst snd];
    destruct (raises w _ sync_playwright_exit);
    cbn [existsb is_raised ev_result orb trace article fst snd];
    by rewrite <- ?app_assoc.
Qed.

(** Every call of [post_article] ends in one of the three ways. *)
Lemma run_Run self a : Run a (run w self a).
Proof.
  unfold run, post_article. simpl.
  destruct (parse_markdown (select_content a)) as [title sections].
  unfold post_parsed.
  unfold bind at 1. unfold extern at 1. simpl.
  destruct (raises w [] sync_playwright_enter) eqn:E0.
  { apply Run_unopened. simpl. auto. }
  unfold try_finally at 1. unfold bind at 1. unfold extern at 1. simpl.
  destruct (raises w _ chromium_launch) eqn:E1; simpl.
  { unfold extern, log; simpl. step_call; apply Run_unopened; simpl; auto 10. }
  unfold bind at 1. unfold extern at 1. simpl.
  destruct (raises w _ new_context) eqn:E2; simpl.
  { unfold extern, log; simpl. step_call; apply Run_unopened; simpl; auto 10. }
  unfold bind at 1. unfold extern at 1. simpl.
  destruct (raises w _ new_page) eqn:E3; simpl.
  { unfold extern, log; simpl. step_call; apply Run_unopened; simpl; auto 10. }
  match goal with
  | |- context [guarded w self title sections] =>
      change (log _ (log _ (log _ (log _ (MkState [] a)))))
        with (MkState opened a)
  end.
  destruct (Guarded_guarded self title sections (MkState opened a))
    as (evs & Ht & Hc).
  rewrite finally_close by (intros v Hv; rewrite Hv in Hc; by destruct Hc as [[? _]|[? _]]).
  unfold close_run.
  destruct (guarded w self title sections (MkState opened a))
    as [[tr a'] r]; cbn [trace article fst snd] in Ht, Hc |- *.
  subst tr.
  assert (Tried a evs a' (match r with Return true => true | _ => false end)
          /\ (r = Raise \/ r = Return true)) as [Ht Hr].
  { destruct Hc as [(-> & -> & Hu)|(-> & evs1 & evs2 & -> & Hq & Hp)].
    - split; [by apply Tried_failed|by left].
    - split; [by apply Tried_saved|by right]. }
  destruct (closing_cases (opened ++ evs)) as [[Ec Eq]|[Ec Eq]]; rewrite Eq.
  - rewrite Ec, <- app_assoc.
    destruct Hr as [->| ->]; by apply Run_closed.
  - rewrite <- app_assoc. by eapply Run_unclosed.
Qed.

End RunFacts.

(** ** The orchestrator: the claims *)

Lemma In_app3 {A} (x : A) (l1 l2 l3 : list A) :
  In x (l1 ++ l2 ++ l3) -> In x l1 \/ In x l2 \/ In x l3.
Proof. rewrite !in_app_iff. tauto. Qed.

Lemma closing_raised_app l1 l2 :
  closing_raised (l1 ++ l2) = closing_raised l1 || closing_raised l2.
Proof. unfold closing_raised. apply existsb_app. Qed.

Lemma closing_raised_false l :
  forallb (fun e => before_publish (ev_stage e) || publishing e) l = true ->
  closing_raised l = false.
Proof.
  intros H. unfold closing_raised. apply not_true_is_false.
  intros E. apply existsb_exists in E as (e & He & E).
  rewrite forallb_forall in H. specialize (H e He).
  unfold publishing in H. by destruct (ev_stage e).
Qed.

(** The calls of the outer [try] are those of the stages from the login
    to the publish step. *)
Lemma Tried_stages a evs a' b :
  Tried a evs a' b ->
  forall e, In e evs -> before_publish (ev_stage e) || publishing e = true.
Proof.
  intros H e He.
  destruct H as [evs Hu|evs1 evs2 a' Hq [Hp _]].
  - rewrite forallb_forall in Hu. specialize (Hu e He).
    unfold unsaved in Hu. apply andb_prop in Hu as [-> _]. done.
  - apply in_app_iff in He as [He|[<-|He]]; [|done|].
    + rewrite forallb_forall in Hq. specialize (Hq e He).
      unfold quiet in Hq. apply andb_prop in Hq as [-> _]. done.
    + rewrite forallb_forall in Hp. rewrite (Hp e He). apply orb_true_r.
Qed.

(** The outer [try] makes no closing call. *)
Lemma Tried_no_closing a evs a' b :
  Tried a evs a' b -> closing_raised evs = false.
Proof.
  intros H. apply closing_raised_false. apply forallb_forall.
  by apply (Tried_stages _ _ _ _ H).
Qed.

(** A call of the outer [try] that raised before the publish step made
    it fail, with the article as it was. *)
Lemma Tried_raised a evs a' b e :
  Tried a evs a' b -> In e evs -> is_raised e = true ->
  before_publish (ev_stage e) = true -> a' = a /\ b = false.
Proof.
  intros H He Hr Hb. destruct H as [evs Hu|evs1 evs2 a' Hq [Hp _]]; [done|].
  apply in_app_iff in He as [He|[<-|He]]; [|done|].
  - rewrite forallb_forall in Hq. specialize (Hq e He).
    unfold quiet in Hq. by rewrite Hr, andb_false_r in Hq.
  - rewrite forallb_forall in Hp. specialize (Hp e He).
    unfold publishing in Hp. by destruct (ev_stage e).
Qed.

(** The outer [try] returns true exactly when the save went through. *)
Lemma Tried_saved_iff a evs a' b :
  Tried a evs a' b -> (In save_done evs <-> b = true).
Proof.
  intros H. destruct H as [evs Hu|evs1 evs2 a' Hq Hp].
  - split; [|done]. intros He. rewrite forallb_forall in Hu.
    by specialize (Hu _ He).
  - split; [done|]. intros _. apply in_or_app. right. by left.
Qed.

(** After the save, the article changes only when the whole publish step
    went through. *)
Lemma Tried_published a evs a' e :
  Tried a evs a' true -> In e evs -> publishing e = true ->
  a' = a \/ (In e publish_events /\ exists d, a' = mark_published a d).
Proof.
  intros H He Pe. inversion H as [|evs1 evs2 a'' Hq [Hp Ha] E1 E2 E3].
  subst. destruct Ha as [->|[-> [d ->]]]; [by left|]. right.
  split; [|by exists d].
  apply in_app_iff in He as [He|[<-|He]]; [|done|done].
  rewrite forallb_forall in Hq. specialize (Hq e He).
  unfold quiet in Hq. unfold publishing in Pe. by destruct (ev_stage e).
Qed.

Lemma Tried_article a evs a' b :
  Tried a evs a' b -> a' = a \/ exists d, a' = mark_published a d.
Proof.
  intros [evs0 Hu|evs1 evs2 a'' Hq [_ [->|[_ [d ->]]]]]; eauto.
Qed.

Lemma Run_article a r :
  Run a r -> article r.1 = a \/ exists d, article r.1 = mark_published a d.
Proof.
  intros [tr Htr|evs a' b Ht|evs a' b tail Ht Hin]; cbn [article fst];
    [by left|by eapply Tried_article..].
Qed.

Lemma unclosed_raised tail : In tail unclosed -> closing_raised tail = true.
Proof.
  intros H. simpl in H. repeat (destruct H as [<-|H]; [done|]). done.
Qed.

Ltac in_fixed H :=
  simpl in H;
  repeat (destruct H as [H|H];
          [first [discriminate H | subst; first [discriminate | done]]|]);
  try done.

(** C2, as amended.  When a call of the outer [try] raises before the
    save is over (the login, the editor page, the title, the sections, the
    save), the article is as it was on entry, and [post_article] returns
    false unless a closing call raises, in which case that exception
    leaves [post_article].  Whenever the page was opened, the trace ends
    with the closing calls: [context.close()], then [browser.close()]
    unless the first raised, then the exit of the [with] statement.  The
    [with] statement is left whenever it was entered.  When a call that
    opens the session raises, the exception leaves [post_article], with
    the article as it was. *)
Theorem guarded_failure_returns_false w self a :
  let r := run w self a in
  (forall e, In e (trace r.1) -> is_raised e = true ->
             before_publish (ev_stage e) = true ->
             article r.1 = a
             /\ r.2 = if closing_raised (trace r.1) then Raise
                      else Return false)
  /\ (In (Ev Launching new_page Done) (trace r.1) ->
      exists evs tail,
        trace r.1 = evs ++ tail /\ In tail teardowns
        /\ closing_raised evs = false)
  /\ (In (Ev Launching sync_playwright_enter Done) (trace r.1) ->
      exists evs res,
        trace r.1 = evs ++ [Ev Closing sync_playwright_exit res])
  /\ (forall e, In e (trace r.1) -> is_raised e = true ->
                ev_stage e = Launching ->
                r.2 = Raise /\ article r.1 = a).
Proof.
  intros r. unfold r.
  destruct (run_Run w self a) as [tr Htr|evs a' b Ht|evs a' b tail Ht Hin];
    cbn [trace article fst snd].
  - split; [|split; [|split]].
    + intros e He Hr Hb. exfalso. simpl in Htr.
      repeat (destruct Htr as [<-|Htr];
              [simpl in He;
               repeat (destruct He as [<-|He]; [discriminate|]); done|]).
      done.
    + intros Hp. exfalso. simpl in Htr.
      repeat (destruct Htr as [<-|Htr];
              [simpl in Hp;
               repeat (destruct Hp as [Hp|Hp]; [discriminate|]); done|]).
      done.
    + intros Hp. simpl in Htr.
      repeat (destruct Htr as [<-|Htr];
              [first [ by in_fixed Hp
                     | by eexists [_], _
                     | by eexists [_; _], _
                     | by eexists [_; _; _], _
                     | by eexists [_; _; _; _], _ ]|]).
      done.
    + done.
  - pose proof (Tried_no_closing _ _ _ _ Ht) as Hc.
    assert (closing_raised (opened ++ evs ++ closed) = false) as Hcr.
    { by rewrite !closing_raised_app, Hc. }
    rewrite Hcr. split; [|split; [|split]].
    + intros e He Hr Hb.
      apply In_app3 in He as [He|[He|He]]; [by in_fixed He| |by in_fixed He].
      by destruct (Tried_raised _ _ _ _ _ Ht He Hr Hb) as [-> ->].
    + intros _. exists (opened ++ evs), closed. rewrite <- app_assoc.
      repeat split; [by left|]. by rewrite closing_raised_app, Hc.
    + intros _. exists (opened ++ evs ++ take 2 closed), Done.
      by rewrite <- !app_assoc.
    + intros e He Hr Hl. exfalso.
      apply In_app3 in He as [He|[He|He]]; [by in_fixed He| |by in_fixed He].
      pose proof (Tried_stages _ _ _ _ Ht e He) as Hs.
      rewrite Hl in Hs. unfold publishing in Hs. by rewrite Hl in Hs.
  - pose proof (Tried_no_closing _ _ _ _ Ht) as Hc.
    pose proof (unclosed_raised _ Hin) as Hu.
    assert (closing_raised (opened ++ evs ++ tail) = true) as Hcr.
    { by rewrite !closing_raised_app, Hu, !orb_true_r. }
    assert (forall e, In e tail -> ev_stage e = Closing) as Hst.
    { intros e He. simpl in Hin.
      repeat (destruct Hin as [<-|Hin];
              [simpl in He; repeat (destruct He as [<-|He]; [done|]); done|]).
      done. }
    rewrite Hcr. split; [|split; [|split]].
    + intros e He Hr Hb.
      apply In_app3 in He as [He|[He|He]]; [by in_fixed He| |].
      * by destruct (Tried_raised _ _ _ _ _ Ht He Hr Hb) as [-> _].
      * apply Hst in He. by rewrite He in Hb.
    + intros _. exists (opened ++ evs), tail. rewrite <- app_assoc.
      repeat split; [by right|]. by rewrite closing_raised_app, Hc.
    + intros _. simpl in Hin.
      repeat (destruct Hin as [<-|Hin];
              [first [ by eexists (opened ++ evs ++ [_]), _;
                         rewrite <- !app_assoc
                     | by eexists (opened ++ evs ++ [_; _]), _;
                         rewrite <- !app_assoc ]|]).
      done.
    + intros e He Hr Hl. split; [done|]. exfalso.
      apply In_app3 in He as [He|[He|He]]; [by in_fixed He| |].
      * pose proof (Tried_stages _ _ _ _ Ht e He) as Hs.
        rewrite Hl in Hs. unfold publishing in Hs. by rewrite Hl in Hs.
      * apply Hst in He. by rewrite He in Hl.
Qed.

Lemma guarded_failure_returns_false_witness :
  let r := run (fails_at 5 false) a_service an_article in
  r.2 = Return false /\ article r.1 = an_article
  /\ exists evs tail, trace r.1 = evs ++ tail /\ In tail teardowns.
Proof.
  intros r.
  destruct (guarded_failure_returns_false (fails_at 5 false) a_service
              an_article) as (H1 & H2 & _).
  destruct (H1 (Ev LoggingIn (page_wait_for_selector sel_email 10000) Raised))
    as [Ha Hr]; [vm_compute; tauto | reflexivity | reflexivity |].
  split; [exact Hr|]. split; [exact Ha|].
  destruct H2 as (evs & tail & E & Hin & _); [vm_compute; tauto|].
  by exists evs, tail.
Defined.

(** C2 as stated fails: when [context.new_page()] raises, which happens
    before the [try], the exception leaves [post_article]: no value is
    returned, and neither the context nor the browser is closed. *)
Lemma page_failure_propagates :
  let r := run (fails_at 3 false) a_service an_article in
  trace r.1 = [Ev Launching sync_playwright_enter Done;
               Ev Launching chromium_launch Done;
               Ev Launching new_context Done;
               Ev Launching new_page Raised;
               Ev Closing sync_playwright_exit Done]
  /\ r.2 = Raise
  /\ r.2 <> Return false.
Proof. repeat split; vm_compute; congruence. Qed.

(** C3 as stated fails: the save went through and the publish button is
    not visible, but [context.close()] raises in the [finally]: the
    exception leaves [post_article], which does not return true. *)
Lemma close_failure_after_save :
  let r := run (fails_at 30 false) a_service an_article in
  In save_done (trace r.1)
  /\ In (Ev Publishing (page_is_visible sel_publish) (Answer false))
        (trace r.1)
  /\ In (Ev Closing context_close Raised) (trace r.1)
  /\ r.2 = Raise
  /\ r.2 <> Return true.
Proof. repeat split; vm_compute; try tauto; congruence. Qed.

(** C3, as amended.  When the save is over, [post_article] returns true
    unless a closing call raises, in which case that exception leaves
    [post_article]; it does not return false, whatever the publish step
    does.  When, besides, the publish button is not visible, or a call of
    the publish step raises, the article is as it was on entry: its status
    and its publication time are not changed. *)
Theorem saved_returns_true w self a :
  let r := run w self a in
  In save_done (trace r.1) ->
  r.2 = (if closing_raised (trace r.1) then Raise else Return true)
  /\ (In (Ev Publishing (page_is_visible sel_publish) (Answer false))
         (trace r.1) -> article r.1 = a)
  /\ (forall e, In e (trace r.1) -> publishing e = true ->
                is_raised e = true -> article r.1 = a).
Proof.
  intros r. unfold r.
  destruct (run_Run w self a) as [tr Htr|evs a' b Ht|evs a' b tail Ht Hin];
    cbn [trace article fst snd]; intros Hs.
  - exfalso. simpl in Htr.
    repeat (destruct Htr as [<-|Htr]; [by in_fixed Hs|]). done.
  - pose proof (Tried_no_closing _ _ _ _ Ht) as Hc.
    apply In_app3 in Hs as [Hs|[Hs|Hs]]; [by in_fixed Hs| |by in_fixed Hs].
    apply (Tried_saved_iff _ _ _ _ Ht) in Hs as ->.
    rewrite !closing_raised_app, Hc. split; [done|].
    assert (forall e, In e (opened ++ evs ++ closed) -> publishing e = true ->
              a' = a \/ In e publish_events) as Hin.
    { intros e He Pe.
      apply In_app3 in He as [He|[He|He]]; [by in_fixed He| |by in_fixed He].
      destruct (Tried_published _ _ _ _ Ht He Pe) as [?|[? _]]; auto. }
    split.
    + intros He. destruct (Hin _ He eq_refl) as [?|Hp]; [done|].
      by in_fixed Hp.
    + intros e He Pe Re. destruct (Hin _ He Pe) as [?|Hp]; [done|].
      by in_fixed Hp.
  - pose proof (Tried_no_closing _ _ _ _ Ht) as Hc.
    pose proof (unclosed_raised _ Hin) as Hu.
    assert (forall e, In e tail -> ev_stage e = Closing) as Hst.
    { intros e He. simpl in Hin.
      repeat (destruct Hin as [<-|Hin];
              [simpl in He; repeat (destruct He as [<-|He]; [done|]); done|]).
      done. }
    rewrite !closing_raised_app, Hu, !orb_true_r. split; [done|].
    assert (b = true) as ->.
    { apply In_app3 in Hs as [Hs|[Hs|Hs]]; [by in_fixed Hs| |].
      - by apply (Tried_saved_iff _ _ _ _ Ht).
      - by apply Hst in Hs. }
    assert (forall e, In e (opened ++ evs ++ tail) -> publishing e = true ->
              a' = a \/ In e publish_events) as Hin'.
    { intros e He Pe.
      apply In_app3 in He as [He|[He|He]]; [by in_fixed He| |].
      - destruct (Tried_published _ _ _ _ Ht He Pe) as [?|[? _]]; auto.
      - apply Hst in He. unfold publishing in Pe. by rewrite He in Pe. }
    split.
    + intros He. destruct (Hin' _ He eq_refl) as [?|Hp]; [done|].
      by in_fixed Hp.
    + intros e He Pe Re. destruct (Hin' _ He Pe) as [?|Hp]; [done|].
      by in_fixed Hp.
Qed.

Lemma saved_returns_true_witness :
  let r := run (calm false) a_service an_article in
  r.2 = Return true /\ article r.1 = an_article.
Proof.
  intros r.
  destruct (saved_returns_true (calm false) a_service an_article)
    as (H1 & H2 & _); [vm_compute; tauto|].
  split; [exact H1|]. apply H2. vm_compute. tauto.
Defined.

(** C5 as stated fails: the constructor takes the status ["published"]
    without a publication time. *)
Lemma published_without_date :
  let a := Article_init 7%N (s2p "t") (s2p "c") published None None None in
  status a = published /\ published_at a = None
  /\ published_iff_dated a = false.
Proof. repeat split. Qed.

(** C5, as amended.  The constructor with its default status and
    publication time gives the status ["draft"] without a publication
    time, and so does [from_dict] for a dict with neither key, which
    raises only when the title or the content is missing or the creation
    time does not parse.  [post_article] changes the article only by
    setting the status ["published"] together with a publication time:
    when the invariant holds on entry, it holds on exit, however the call
    ends.  The constructor stores the status and the time it is given,
    whatever they are. *)
Theorem post_article_keeps_invariant :
  (forall now t c,
     let a := Article_default now t c in
     status a = draft /\ published_at a = None
     /\ published_iff_dated a = true)
  /\ (forall now t c s cr pa ic,
        status (Article_init now t c s cr pa ic) = s
        /\ published_at (Article_init now t c s cr pa ic) = pa)
  /\ (forall iso now (data : gmap string pyval),
        data !! "status" = None -> data !! "published_at" = None ->
        match from_dict iso now data with
        | Some o =>
            obj_status o = PyStr draft /\ obj_published_at o = None
            /\ object_published_iff_dated o = true
        | None =>
            data !! "title" = None \/ data !! "content" = None
            \/ optional_time iso data "created_at" = None
        end)
  /\ (forall w self a,
        article (run w self a).1 = a
        \/ exists d, article (run w self a).1 = mark_published a d)
  /\ (forall w self a,
        published_iff_dated a = true ->
        published_iff_dated (article (run w self a).1) = true).
Proof.
  assert (forall w self a,
            article (run w self a).1 = a
            \/ exists d, article (run w self a).1 = mark_published a d) as H.
  { intros w self a. apply Run_article, run_Run. }
  split; [done|]. split; [done|]. split; [|split; [exact H|]].
  - intros iso now data Hs Hp. unfold from_dict.
    assert (optional_time iso data "published_at" = Some None) as ->
      by (unfold optional_time; by rewrite Hp).
    rewrite Hs.
    destruct (optional_time iso data "created_at") as [cr|]; [|auto].
    destruct (data !! "title") as [t|]; [|auto].
    destruct (data !! "content") as [c|]; [|auto]. done.
  - intros w self a Ha. destruct (H w self a) as [->|[d ->]]; done.
Qed.

Lemma post_article_keeps_invariant_witness :
  published_iff_dated
    (article (run (calm true) a_service an_article).1) = true
  /\ status (article (run (calm true) a_service an_article).1) = published.
Proof.
  split.
  - destruct post_article_keeps_invariant as (_ & _ & _ & _ & H).
    apply H. reflexivity.
  - vm_compute. reflexivity.
Defined.

(** ** Further facts about the parser *)

Section MoreParserFacts.

Implicit Types (s t g : pystr) (c : N).

Local Arguments fence_open : simpl never.
Local Arguments fence_close : simpl never.
Local Arguments startswith : simpl never.

Lemma fence_re_Some bol s n g :
  fence_re bol s = Some (n, g) ->
  s = fence_open ++ g ++ fence_close ++ drop n s
  /\ n = length fence_open + length g + length fence_close
  /\ find fence_close (drop (length fence_open) s) = Some (length g).
Proof.
  unfold fence_re. destruct (startswith fence_open s) eqn:E; [|done].
  destruct (find fence_close _) as [k|] eqn:F; [|done]. intros [= <- <-].
  pose proof (find_bound _ _ _ F) as Hb.
  apply startswith_inv in E. apply find_Some in F as [F _].
  assert (length (take k (drop (length fence_open) s)) = k) as Hk
    by (rewrite length_take; lia).
  change (length fence_open) with 12 in *.
  change (length fence_close) with 3 in *.
  rewrite Hk. split; [|split; [lia|done]].
  rewrite E at 1. f_equal. rewrite F at 1. do 2 f_equal.
  rewrite drop_drop. f_equal.
Qed.

Lemma title_re_Some bol s n g :
  title_re bol s = Some (n, g) ->
  s = hash :: sp :: g ++ drop n s /\ forallb dot g = true /\ g <> []
  /\ n = 2 + length g.
Proof.
  unfold title_re. destruct (bol && startswith [hash; sp] s) eqn:E; [|done].
  apply andb_prop in E as [_ E]. apply startswith_inv in E.
  destruct (dot_plus _) as [g'|] eqn:D; [|done]. intros [= <- <-].
  apply dot_plus_Some in D as (D1 & D2 & D3).
  repeat split; try done.
  - rewrite E at 1. simpl. do 2 f_equal. subst g'.
    rewrite <- (take_while_prefix dot (drop 2 s)) at 1. f_equal.
    by rewrite drop_drop.
  - subst g'. apply take_while_all.
Qed.

Lemma strip_sublist s : strip s `sublist_of` s.
Proof.
  destruct (strip_decompose s) as (l & r & _ & _ & E). rewrite E at 2.
  apply sublist_inserts_l, sublist_inserts_r. done.
Qed.

Lemma strip_forallb (q : N -> bool) s :
  forallb q s = true -> forallb q (strip s) = true.
Proof.
  destruct (strip_decompose s) as (l & r & _ & _ & E). rewrite E at 1.
  rewrite !forallb_app. by intros [_ [H _]%andb_prop]%andb_prop.
Qed.

Lemma replace_first_sublist old s :
  replace_first old [] s `sublist_of` s.
Proof.
  induction s as [|c s IH]; simpl.
  - rewrite drop_nil. by destruct (startswith old []).
  - destruct (startswith old (c :: s)).
    + apply sublist_drop.
    + by apply sublist_skip.
Qed.

Lemma remove_markdown_block_sublist_at n : forall s b,
  length s <= n -> sub_at fence_re (fun g => g) s b `sublist_of` s.
Proof.
  induction n as [|n IH]; intros s b Hn.
  - destruct s; [|simpl in Hn; lia].
    by rewrite (sub_at_nil _ fence_re_bound).
  - destruct s as [|c s]; [by rewrite (sub_at_nil _ fence_re_bound)|].
    destruct (fence_re b (c :: s)) as [[[|k] g]|] eqn:E.
    + rewrite sub_at_skip by (intros ? ?; congruence).
      apply sublist_skip, IH. simpl in Hn. lia.
    + rewrite (sub_at_match _ fence_re_bound _ _ _ _ _ E).
      pose proof (fence_re_bound _ _ _ _ E) as Hb.
      apply fence_re_Some in E as (Es & _ & _).
      rewrite Es at 3.
      apply sublist_inserts_l, sublist_app; [done|].
      apply sublist_inserts_l, IH.
      rewrite length_drop. simpl in Hn |- *. lia.
    + rewrite sub_at_skip by (intros ? ?; congruence).
      apply sublist_skip, IH. simpl in Hn. lia.
Qed.

Lemma Rebuilds_sublist bs body :
  Rebuilds bs body -> concat (map sec_content bs) `sublist_of` body.
Proof.
  induction 1 as [|ws bs rest _ _ IH|t bs rest _ _ _ IH
                  |k ws t bs rest _ _ _ _ IH]; simpl.
  - done.
  - by apply sublist_inserts_l.
  - by apply sublist_app.
  - rewrite <- !app_assoc. apply sublist_app; [done|].
    simpl. apply sublist_skip, sublist_inserts_l. by apply sublist_app.
Qed.

End MoreParserFacts.

Section SearchSound.

Context {G : Type} (m : matcher G).

(** What [search] finds is a match of the pattern where it starts. *)
Lemma search_from_sound (s : pystr) : forall pos bol x,
  search_from m s pos bol = Some x ->
  exists j b n,
    m b (drop j s) = Some (n, groups x) /\ m_start x = pos + j
    /\ j <= length s /\ group0 x = take n (drop j s).
Proof.
  induction s as [|c s IH]; intros pos bol x; simpl.
  - destruct (m bol []) as [[n g]|] eqn:E; [|done]. intros [= <-].
    exists 0, bol, n. simpl. rewrite Nat.add_0_r. done.
  - destruct (m bol (c :: s)) as [[n g]|] eqn:E.
    + intros [= <-]. exists 0, bol, n. simpl. rewrite Nat.add_0_r.
      repeat split; try done. lia.
    + intros H. destruct (IH _ _ _ H) as (j & b & n & H1 & H2 & H3 & H4).
      exists (S j), b, n. simpl. repeat split; try done; lia.
Qed.

End SearchSound.

(** X1.  The title never has whitespace at its ends and never contains a
    newline, whatever the input. *)
Theorem title_is_one_stripped_line input :
  let title := fst (parse_markdown input) in
  strip title = title /\ forallb dot title = true.
Proof.
  intros title. unfold title. rewrite parse_markdown_title.
  unfold title_and_body.
  destruct (search title_re (remove_markdown_block input)) as [x|] eqn:S;
    simpl; [|done].
  split; [apply strip_idem|].
  apply search_from_sound in S as (j & b & n & H & _).
  apply title_re_Some in H as (_ & H & _). by apply strip_forallb.
Qed.

(** X2.  [remove_markdown_block] only deletes: what it returns is the
    input with some code points left out, so it is never longer than the
    input. *)
Theorem remove_markdown_block_only_deletes text :
  remove_markdown_block text `sublist_of` text
  /\ length (remove_markdown_block text) <= length text.
Proof.
  assert (remove_markdown_block text `sublist_of` text) as H.
  { rewrite <- (remove_markdown_block_at text true).
    by apply (remove_markdown_block_sublist_at (length text)). }
  split; [done|]. by apply sublist_length.
Qed.

(** X3.  The parser invents no text: the texts of the sections, one after
    the other in the order of emission, are the input with some code points
    left out, and so is the title unless it is the placeholder. *)
Theorem parse_markdown_invents_nothing input :
  let title := fst (parse_markdown input) in
  let sections := snd (parse_markdown input) in
  concat (map sec_content sections) `sublist_of` input
  /\ (title = untitled \/ title `sublist_of` input).
Proof.
  intros title sections. unfold title, sections.
  rewrite parse_markdown_title, parse_markdown_sections.
  pose proof (Rebuilds_sublist _ _
                (segment_Rebuilds (snd (title_and_body input)))) as HR.
  assert (remove_markdown_block input `sublist_of` input) as Hc.
  { rewrite <- (remove_markdown_block_at input true).
    by apply (remove_markdown_block_sublist_at (length input)). }
  unfold title_and_body in *.
  destruct (search title_re (remove_markdown_block input)) as [x|] eqn:S;
    simpl in *.
  - split.
    + etrans; [exact HR|]. etrans; [apply strip_sublist|].
      etrans; [apply replace_first_sublist|]. done.
    + right. apply search_from_sound in S as (j & b & n & H & _).
      apply title_re_Some in H as (Es & _).
      etrans; [apply strip_sublist|]. etrans; [|exact Hc].
      rewrite <- (take_drop j (remove_markdown_block input)), Es.
      apply sublist_inserts_l. do 2 apply sublist_cons.
      by apply sublist_inserts_r.
  - split; [|by left]. etrans; [exact HR|]. done.
Qed.

Section MoreFenceFacts.

Implicit Types (s t g : pystr) (c : N).

Local Arguments fence_open : simpl never.
Local Arguments fence_close : simpl never.
Local Arguments startswith : simpl never.

Lemma find_Some_occurs p s k : find p s = Some k -> occurs_at p s k = true.
Proof.
  intros F. pose proof (find_bound _ _ _ F) as Hb.
  apply find_Some in F as [F _]. unfold occurs_at. rewrite F.
  rewrite drop_app_length'; [apply startswith_app|].
  rewrite length_take. lia.
Qed.

Lemma occurs_at_app_drop p a b j :
  occurs_at p (a ++ b) (length a + j) = occurs_at p b j.
Proof. unfold occurs_at. by rewrite drop_app_add. Qed.

End MoreFenceFacts.

(** X4.  [remove_markdown_block] changes the text exactly when the first
    opening fence has a closing fence after it; a text without an opening
    fence, or with a fence that is never closed, is returned as it is, and
    a changed text is shorter by the two fences at least. *)
Theorem remove_markdown_block_changes_iff_closed text :
  (closed_fence text = false -> remove_markdown_block text = text)
  /\ (closed_fence text = true ->
      length (remove_markdown_block text) + 15 <= length text).
Proof.
  unfold closed_fence. split.
  - intros H. apply remove_markdown_block_none. intros j.
    unfold fence_re.
    destruct (startswith fence_open (drop j text)) eqn:O; [|done].
    destruct (find fence_close (drop (length fence_open) (drop j text)))
      as [k|] eqn:F; [|done].
    exfalso. apply find_Some_occurs in F. unfold occurs_at in F.
    rewrite !drop_drop in F.
    destruct (find fence_open text) as [i|] eqn:Fo.
    + destruct (find fence_close (drop (i + length fence_open) text))
        eqn:Fc; [done|].
      assert (i <= j) as Hij.
      { apply find_Some in Fo as [_ Fo]. destruct (decide (i <= j)); [done|].
        specialize (Fo j ltac:(lia)). unfold occurs_at in Fo. congruence. }
      pose proof (find_None _ _ (j - i + k) Fc) as Hn.
      unfold occurs_at in Hn. rewrite drop_drop in Hn.
      replace (i + length fence_open + (j - i + k))
        with (j + (length fence_open + k)) in Hn by lia.
      congruence.
    + pose proof (find_None _ _ j Fo) as Hn. unfold occurs_at in Hn.
      congruence.
  - destruct (find fence_open text) as [i|] eqn:Fo; [|done].
    destruct (find fence_close (drop (i + length fence_open) text))
      as [k|] eqn:Fc; [|done].
    intros _.
    pose proof (find_bound _ _ _ Fo) as Hbo.
    pose proof (find_bound _ _ _ Fc) as Hbc.
    apply find_Some in Fo as [Eo Ho].
    set (rest := drop (i + length fence_open) text) in *.
    apply find_Some in Fc as [Ec Hc].
    assert (text = take i text ++ fence_open ++ take k rest ++ fence_close
                     ++ drop (k + length fence_close) rest) as E.
    { rewrite Eo at 1. do 2 f_equal. by rewrite <- Ec. }
    assert (length (take i text) = i) as Li by (rewrite length_take; lia).
    assert (length (take k rest) = k) as Lk by (rewrite length_take; lia).
    rewrite E at 1.
    rewrite remove_markdown_block_prefix.
    + rewrite remove_markdown_block_region.
      * pose proof (remove_markdown_block_sublist_at
                      (length (drop (k + length fence_close) rest))
                      (drop (k + length fence_close) rest) true (le_n _))
          as Hs.
        apply sublist_length in Hs.
        rewrite remove_markdown_block_at in Hs.
        apply (f_equal length) in E.
        repeat rewrite length_app in E. repeat rewrite length_app.
        change (length fence_open) with 12 in *.
        change (length fence_close) with 3 in *. lia.
      * rewrite Lk. intros j Hj. rewrite <- Ec. by apply Hc.
    + rewrite Li. intros j Hj. rewrite <- E. by apply Ho.
Qed.

Lemma remove_markdown_block_changes_iff_closed_witness :
  remove_markdown_block (joinNL ["Intro"; "```markdown"; "# Cut off"])
  = joinNL ["Intro"; "```markdown"; "# Cut off"]
  /\ length (remove_markdown_block (joinNL ["```markdown"; "# T"; "```"])) + 15
     <= length (joinNL ["```markdown"; "# T"; "```"]).
Proof.
  split.
  - apply (proj1 (remove_markdown_block_changes_iff_closed
                    (joinNL ["Intro"; "```markdown"; "# Cut off"]))).
    reflexivity.
  - apply (proj2 (remove_markdown_block_changes_iff_closed
                    (joinNL ["```markdown"; "# T"; "```"]))).
    reflexivity.
Defined.

Lemma after_nl_line_start (pre t rest : pystr) :
  t <> [] ->
  after_nl t = line_start (pre ++ t ++ rest) (length pre + length t).
Proof.
  intros Ht. unfold after_nl, line_start.
  assert (0 < length t) as Hl by (destruct t; simpl; [done|lia]).
  destruct (length pre + length t) as [|i] eqn:Ei; [lia|].
  rewrite last_lookup.
  rewrite lookup_app_r by lia. rewrite lookup_app_l by lia.
  replace (i - length pre) with (pred (length t)) by lia. done.
Qed.

Lemma line_start_shift (pre : pystr) c (s : pystr) j :
  line_start ((pre ++ [c]) ++ s) (length (pre ++ [c]) + j)
  = line_start (pre ++ c :: s) (length pre + S j).
Proof.
  rewrite <- app_assoc, length_app. simpl. f_equal. lia.
Qed.

Lemma length_snoc (pre : pystr) c : length (pre ++ [c]) = S (length pre).
Proof. rewrite length_app. simpl. lia. Qed.

Section FinditerComplete.

Context {G : Type} (m : matcher G).
Hypothesis m_bound : forall bol s n g, m bol s = Some (n, g) -> n <= length s.

(** Where the pattern matches at no index, [finditer] yields nothing. *)
Lemma finditer_at_none (s : pystr) : forall pre,
  (forall j n g, j <= length s ->
     m (line_start (pre ++ s) (length pre + j)) (drop j s) <> Some (S n, g)) ->
  finditer_at m s (length pre) (line_start (pre ++ s) (length pre)) = [].
Proof.
  induction s as [|c s IH]; intros pre Hno.
  - apply (finditer_at_nil m m_bound).
  - rewrite finditer_at_skip.
    + rewrite <- (line_start_snoc pre c s), <- (length_snoc pre c).
      apply IH. intros j n g Hj. rewrite line_start_shift.
      apply (Hno (S j)). simpl. lia.
    + intros n g. specialize (Hno 0 n g ltac:(lia)).
      rewrite Nat.add_0_r in Hno. exact Hno.
Qed.

(** The matches lie within lines. *)
Hypothesis m_line : forall bol s n g,
  m bol s = Some (n, g) -> forallb dot (take n s) = true.

(** [finditer] misses no line at whose start the pattern matches. *)
Lemma finditer_at_complete fuel : forall (s pre : pystr) j n g,
  length s <= fuel ->
  line_start (pre ++ s) (length pre + j) = true ->
  m true (drop j s) = Some (S n, g) ->
  exists x,
    In x (finditer_at m s (length pre) (line_start (pre ++ s) (length pre)))
    /\ m_start x = length pre + j /\ groups x = g.
Proof.
  induction fuel as [|fuel IH]; intros s pre j n g Hf L M.
  - destruct s; [|simpl in Hf; lia]. rewrite drop_nil in M.
    apply m_bound in M. simpl in M. lia.
  - destruct j as [|j].
    + rewrite Nat.add_0_r in L |- *. rewrite L. rewrite drop_0 in M.
      rewrite (finditer_at_match m m_bound _ _ _ _ _ M).
      eexists. split; [by left|]. done.
    + destruct s as [|c s].
      { rewrite drop_nil in M. apply m_bound in M. simpl in M. lia. }
      assert (exists x,
                In x (finditer_at m s (S (length pre)) (c =? nl)%N)
                /\ m_start x = length pre + S j /\ groups x = g) as Hskip.
      { destruct (IH s (pre ++ [c]) j n g) as (x & Hx & H1 & H2).
        - simpl in Hf. lia.
        - by rewrite line_start_shift.
        - exact M.
        - rewrite line_start_snoc, length_snoc in Hx.
          rewrite length_snoc in H1.
          exists x. split; [done|]. split; [lia|done]. }
      destruct (m (line_start (pre ++ c :: s) (length pre)) (c :: s))
        as [[[|k] g']|] eqn:E.
      * by rewrite finditer_at_skip by (intros ? ?; congruence).
      * pose proof (m_bound _ _ _ _ E) as Hb.
        pose proof (m_line _ _ _ _ E) as Hl.
        assert (S k <= S j) as Hkj.
        { destruct (decide (S k <= S j)); [done|]. exfalso.
          replace (length pre + S j) with (S (length pre + j)) in L by lia.
          unfold line_start in L. rewrite lookup_app_r in L by lia.
          replace (length pre + j - length pre) with j in L by lia.
          destruct ((c :: s) !! j) as [d|] eqn:Ed; [|done].
          apply N.eqb_eq in L. subst d.
          rewrite forallb_forall in Hl.
          assert (In nl (take (S k) (c :: s))) as Hin.
          { apply list_elem_of_In, list_elem_of_lookup. exists j.
            rewrite lookup_take_lt by lia. done. }
          by specialize (Hl _ Hin). }
        rewrite (finditer_at_match m m_bound _ _ _ _ _ E).
        assert (length (pre ++ take (S k) (c :: s)) = length pre + S k)
          as Hlen by (rewrite length_app, length_take; lia).
        destruct (IH (drop (S k) (c :: s)) (pre ++ take (S k) (c :: s))
                    (S j - S k) n g) as (x & Hx & H1 & H2).
        -- rewrite length_drop. simpl in Hf |- *. lia.
        -- rewrite <- app_assoc, take_drop, Hlen.
           replace (length pre + S k + (S j - S k))
             with (length pre + S j) by lia.
           exact L.
        -- rewrite drop_drop.
           replace (S k + (S j - S k)) with (S j) by lia. exact M.
        -- rewrite Hlen in Hx, H1.
           assert (length (take (S k) (c :: s)) = S k) as Ht
             by (rewrite length_take; lia).
           assert (line_start
                     ((pre ++ take (S k) (c :: s)) ++ drop (S k) (c :: s))
                     (length pre + S k)
                   = after_nl (take (S k) (c :: s))) as Hbol.
           { rewrite <- app_assoc.
             rewrite (after_nl_line_start pre (take (S k) (c :: s))
                        (drop (S k) (c :: s))); [|done].
             by rewrite Ht. }
           rewrite Hbol in Hx.
           exists x. split; [by right|]. split; [lia|done].
      * by rewrite finditer_at_skip by (intros ? ?; congruence).
Qed.

End FinditerComplete.

Section MoreHeadingFacts.

Implicit Types (s t g : pystr) (c : N).

Lemma forallb_dot_hashes k : forallb dot (repeat hash k) = true.
Proof. induction k as [|k IH]; simpl; [done|]. exact IH. Qed.

Lemma heading_re_line bol s n gs :
  heading_re bol s = Some (n, gs) -> forallb dot (take n s) = true.
Proof.
  destruct gs as [g1 g2]. intros H.
  apply heading_re_Some in H as (k & _ & _ & H).
  apply heading_try_Some in H as (_ & _ & Hg & -> & Es).
  rewrite Es. rewrite !app_assoc. rewrite take_app_length'.
  - rewrite !forallb_app, forallb_dot_hashes. simpl.
    rewrite Hg. by rewrite take_while_all.
  - rewrite !length_app, repeat_length. simpl. lia.
Qed.

(** Where no line begins with a hash the heading pattern matches nowhere. *)
Lemma heading_re_no_hash t j :
  has_line_beginning [hash] t = false ->
  heading_re (line_start t j) (drop j t) = None.
Proof.
  intros H. destruct (line_start t j) eqn:L; [|done].
  pose proof (has_line_beginning_false _ _ _ H L) as O.
  unfold occurs_at in O.
  destruct (heading_re true (drop j t)) as [[n [g1 g2]]|] eqn:E; [|done].
  apply heading_re_Some in E as (k & Hk & _ & E).
  apply heading_try_Some in E as (_ & _ & _ & _ & Es).
  rewrite Es in O. destruct k as [|k]; [lia|]. simpl in O. done.
Qed.

(** The heading pattern at the start of a heading line. *)
Lemma heading_re_at_line k g post :
  1 <= k <= 3 -> g <> [] -> forallb dot g = true -> line_ends post = true ->
  heading_re true (repeat hash k ++ [sp] ++ g ++ post)
  = Some (S (k + length g), (repeat hash k, g)).
Proof.
  intros Hk Hg Hd Hp.
  assert (dot_plus (g ++ post) = Some g) as D.
  { unfold dot_plus. rewrite take_while_app_stop; [by destruct g|done|].
    destruct post as [|c post]; [done|]. simpl in Hp. unfold dot.
    by rewrite Hp. }
  unfold heading_re, or_else, heading_try.
  destruct k as [|[|[|[|k]]]]; try lia; simpl; rewrite ?drop_0, D;
    repeat f_equal; lia.
Qed.

Lemma Rebuilds_paragraph bs body t :
  Rebuilds bs body -> In (Section_ paragraph t) bs -> t <> [] /\ strip t = t.
Proof.
  induction 1 as [|ws bs rest _ _ IH|t' bs rest Ht Hs _ IH
                  |k ws t' bs rest _ _ _ _ IH]; simpl.
  - done.
  - exact IH.
  - intros [[= <-]|Hb]; [done | by apply IH].
  - intros [?|Hb]; [done | by apply IH].
Qed.

End MoreHeadingFacts.

(** X5.  A body in which no line begins with a hash has no heading: it is
    one paragraph, the body stripped, or no section at all when the body is
    empty or whitespace only. *)
Theorem segment_without_hash_lines body :
  has_line_beginning [hash] body = false ->
  segment body
  = if blank body then [] else [Section_ paragraph (strip body)].
Proof.
  intros H. rewrite segment_layout.
  change (finditer heading_re body)
    with (finditer_at heading_re body (length (@nil N))
            (line_start ([] ++ body) (length (@nil N)))).
  rewrite (finditer_at_none heading_re heading_re_bound body []).
  - cbn [layout]. unfold span_sections. rewrite drop_0, truthy_strip.
    destruct body as [|c body]; [done|].
    change (0 <? length (c :: body)) with true.
    by destruct (blank (c :: body)).
  - intros j n g _. cbn [app length Nat.add]. by rewrite heading_re_no_hash.
Qed.

Lemma segment_without_hash_lines_witness :
  segment (joinNL ["One line."; "Another, with a # inside."])
  = [Section_ paragraph (joinNL ["One line."; "Another, with a # inside."])]
  /\ segment [nl; sp; nl] = [].
Proof.
  split.
  - rewrite (segment_without_hash_lines
               (joinNL ["One line."; "Another, with a # inside."]) eq_refl).
    vm_compute. reflexivity.
  - rewrite (segment_without_hash_lines [nl; sp; nl] eq_refl).
    vm_compute. reflexivity.
Defined.

(** X6.  Every line of the body that begins with one to three hashes, a
    space and at least one more code point is emitted as a heading section
    of that level, with the hashes, one space and the stripped rest of the
    line as its text. *)
Theorem heading_lines_are_emitted input pre k g post :
  let body := snd (title_and_body input) in
  body = pre ++ repeat hash k ++ [sp] ++ g ++ post ->
  line_start body (length pre) = true ->
  1 <= k <= 3 -> g <> [] -> forallb dot g = true -> line_ends post = true ->
  In (Section_ (heading k) (repeat hash k ++ [sp] ++ strip g))
     (snd (parse_markdown input)).
Proof.
  intros body Eb L Hk Hg Hd Hp.
  rewrite parse_markdown_sections. fold body.
  pose proof (heading_re_at_line k g post Hk Hg Hd Hp) as M.
  destruct (finditer_at_complete heading_re heading_re_bound heading_re_line
              (length body) body [] (length pre) (k + length g)
              (repeat hash k, g)) as (x & Hx & _ & Hgx).
  - done.
  - exact L.
  - rewrite Eb at 1. rewrite drop_app_length. exact M.
  - assert (In (heading_of x)
              (List.filter (fun b => negb (is_paragraph b)) (segment body)))
      as Hin.
    { rewrite segment_layout, layout_headings. by apply in_map. }
    apply filter_In in Hin as [Hin _].
    unfold heading_of in Hin. rewrite Hgx in Hin. simpl in Hin.
    by rewrite repeat_length in Hin.
Qed.

Lemma heading_lines_are_emitted_witness :
  In (Section_ (heading 2) (s2p "## Part one"))
     (snd (parse_markdown (joinNL ["# T"; "Intro"; "##   Part one  "; "x"]))).
Proof.
  apply (heading_lines_are_emitted
           (joinNL ["# T"; "Intro"; "##   Part one  "; "x"])
           (s2p "Intro" ++ [nl]) 2 (s2p "  Part one  ") (nl :: s2p "x"));
    try reflexivity; try lia. discriminate.
Defined.

(** X7.  Every section has the form of its type: a paragraph is a
    non-empty text without whitespace at its ends; a heading of level [k]
    is [k] hashes, one space and a text without whitespace at its ends,
    and it lies on one line. *)
Theorem sections_have_their_shape input :
  forallb section_shape (snd (parse_markdown input)) = true.
Proof.
  rewrite parse_markdown_sections. set (body := snd (title_and_body input)).
  apply forallb_forall. intros [ty txt] Hb.
  pose proof (segment_Rebuilds body) as R.
  unfold section_shape. cbn [sec_type sec_content]. destruct ty as [|k].
  - destruct (Rebuilds_paragraph _ _ txt R Hb) as [Hne Hs].
    rewrite bool_decide_eq_true_2 by done. by destruct txt.
  - assert (In (Section_ (heading k) txt)
              (List.filter (fun b => negb (is_paragraph b)) (segment body)))
      as Hin by (apply filter_In; by split).
    rewrite segment_layout, layout_headings in Hin.
    apply in_map_iff in Hin as (x & Ex & Hx).
    destruct (finditer_at_sound heading_re heading_re_bound
                (length body) body 0 true x (le_n _) Hx)
      as (j & b & n & _ & H2 & _ & _).
    unfold heading_of in Ex. destruct (groups x) as [g1 g2].
    apply heading_re_Some in H2 as (k' & _ & _ & H2).
    apply heading_try_Some in H2 as (-> & _ & Hg & _ & _).
    simpl in Ex. rewrite repeat_length in Ex. injection Ex as <- <-.
    change (repeat hash k' ++ sp :: strip g2)
      with (repeat hash k' ++ [sp] ++ strip g2).
    rewrite app_assoc, startswith_app.
    rewrite drop_app_length' by (rewrite length_app, repeat_length; simpl; lia).
    rewrite !forallb_app, forallb_dot_hashes.
    rewrite strip_forallb by (rewrite Hg; apply take_while_all).
    rewrite bool_decide_eq_true_2 by apply strip_idem. done.
Qed.

(** X8.  A title line whose text after the hash and the space is
    whitespace only gives the empty title, not the placeholder. *)
Theorem blank_title_line_gives_empty_title input pre g post :
  let text := remove_markdown_block input in
  text = pre ++ [hash; sp] ++ g ++ post ->
  line_start text (length pre) = true ->
  g <> [] -> blank g = true -> forallb dot g = true -> line_ends post = true ->
  forallb (fun j => negb (title_line_at text j)) (seq 0 (length pre)) = true ->
  fst (parse_markdown input) = [] /\ fst (parse_markdown input) <> untitled.
Proof.
  intros text Et L Hg Hb Hd Hp Hfirst.
  assert (search title_re text
          = Some (MkMatch (length pre) (length pre + (2 + length g))
                    (hash :: sp :: g) g)) as S.
  { pose proof (search_title_first pre g post) as Hs. cbv zeta in Hs.
    change (pre ++ hash :: sp :: g ++ post)
      with (pre ++ [hash; sp] ++ g ++ post) in Hs.
    rewrite <- Et in Hs. apply Hs; try done.
    - destruct post as [|c post]; [done|]. simpl in Hp. unfold dot.
      by rewrite Hp.
    - intros j Hj. rewrite forallb_forall in Hfirst.
      specialize (Hfirst j). rewrite in_seq in Hfirst.
      apply negb_true_iff, Hfirst. lia. }
  rewrite parse_markdown_title. unfold title_and_body. fold text.
  rewrite S. simpl. by rewrite strip_blank.
Qed.

Lemma blank_title_line_gives_empty_title_witness :
  fst (parse_markdown (joinNL ["#   "; "Text."])) = [].
Proof.
  apply (blank_title_line_gives_empty_title
           (joinNL ["#   "; "Text."]) [] (s2p "  ") (nl :: s2p "Text."));
    try reflexivity. discriminate.
Defined.

(** ** Further facts about the runs of [post_article] *)

Section ScriptFacts.

Variable w : world.

Local Open Scope py_scope.

Lemma Scripted_ret {A} (a : A) : Scripted w (ret a) [].
Proof. intros st. simpl. by rewrite app_nil_r. Qed.

Lemma Scripted_extern s c : Scripted w (extern w s c) [Ev s c Done].
Proof.
  intros st. unfold extern.
  destruct (raises w (trace st) c) eqn:E; simpl; [|done].
  split; [done|]. exists [], (Ev s c Done), []. simpl.
  by rewrite app_nil_r.
Qed.

Lemma Scripted_bind {A B} (m : M A) (k : A -> M B) s1 s2 :
  Scripted w m s1 -> (forall a, Scripted w (k a) s2) ->
  Scripted w (bind m k) (s1 ++ s2).
Proof.
  intros Hm Hk st. destruct (Hm st) as [Ha Hr].
  unfold bind. destruct (m st) as [st1 [a|b|]]; simpl in *.
  - destruct (Hk a st1) as [Ha' Hr']. rewrite Ha', Ha. split; [done|].
    destruct (k a st1) as [st2 [a'|b|]]; simpl in *.
    + by rewrite Hr', Hr, app_assoc.
    + done.
    + destruct Hr' as (passed & e & rest & -> & Ht & Hw).
      exists (s1 ++ passed), e, rest. rewrite <- !app_assoc.
      split; [done|]. rewrite Ht, Hr, <- !app_assoc. split; [done|].
      by rewrite Hr, <- app_assoc in Hw.
  - done.
  - split; [done|]. destruct Hr as (passed & e & rest & -> & Ht & Hw).
    exists passed, e, (rest ++ s2). by rewrite <- app_assoc.
Qed.

Lemma Scripted_for_each {A} (l : list A) (body : A -> M unit)
    (script : A -> list event) :
  (forall x, Scripted w (body x) (script x)) ->
  Scripted w (for_each l body) (flat_map script l).
Proof.
  intros H. induction l as [|x l IH]; simpl.
  - apply Scripted_ret.
  - apply Scripted_bind; [apply H | by intros _].
Qed.

Lemma Finishes_bind {A} (m : M A) (k : A -> M unit) s1 s2 :
  Scripted w m s1 -> (forall a, Finishes w (k a) s2) ->
  Finishes w (bind m k) (s1 ++ s2).
Proof.
  intros Hm Hk st. destruct (Hm st) as [Ha Hr].
  unfold bind. destruct (m st) as [st1 [a|b|]]; simpl in *.
  - specialize (Hk a st1).
    destruct (k a st1) as [st2 [a'|[|]|]]; simpl in *; try done.
    + destruct Hk as (evs2 & Ht & Hp). exists evs2.
      rewrite Ht, Hr, <- !app_assoc, <- Ha. done.
    + destruct Hk as (Ha' & passed & e & rest & -> & Ht & Hw).
      split; [by rewrite Ha', Ha|].
      exists (s1 ++ passed), e, rest. rewrite <- !app_assoc.
      split; [done|]. rewrite Ht, Hr, <- !app_assoc. split; [done|].
      by rewrite Hr, <- app_assoc in Hw.
  - done.
  - split; [done|]. destruct Hr as (passed & e & rest & -> & Ht & Hw).
    exists passed, e, (rest ++ s2). by rewrite <- app_assoc.
Qed.

Lemma Scripted_login self : Scripted w (login w self) (login_script self).
Proof.
  unfold login, login_script.
  repeat (apply (Scripted_bind _ _ [_]); [apply Scripted_extern|intros _]).
  apply Scripted_extern.
Qed.

Lemma Scripted_open_editor : Scripted w (open_editor w) open_script.
Proof.
  unfold open_editor, open_script.
  apply (Scripted_bind _ _ [_]); [apply Scripted_extern|intros _].
  apply Scripted_extern.
Qed.

Lemma Scripted_enter_title title :
  Scripted w (enter_title w title) (title_script title).
Proof.
  unfold enter_title, title_script.
  apply (Scripted_bind _ _ [_]); [apply Scripted_extern|intros _].
  apply Scripted_extern.
Qed.

Lemma Scripted_enter_section b :
  Scripted w (enter_section w b) (section_script b).
Proof.
  unfold enter_section, section_script. destruct (sec_type b);
    repeat (apply (Scripted_bind _ _ [_]); [apply Scripted_extern|intros _]);
    apply Scripted_extern.
Qed.

End ScriptFacts.

Section FinishFacts.

Variable w : world.

Local Open Scope py_scope.

Ltac step_world :=
  match goal with
  | |- context [raises w ?tr ?c] => destruct (raises w tr c) eqn:?; simpl
  | |- context [answers w ?tr ?c] => destruct (answers w tr c) eqn:?; simpl
  end.

Ltac publish_run a :=
  first
    [ apply Publish_hidden
    | apply Publish_went
    | apply (Publish_broke a []
               (Ev Publishing (page_is_visible sel_publish) (Answer true))
               _ eq_refl)
    | apply (Publish_broke a
               [Ev Publishing (page_is_visible sel_publish) (Answer true)]
               (Ev Publishing (page_click sel_publish) Done) _ eq_refl)
    | apply (Publish_broke a
               [Ev Publishing (page_is_visible sel_publish) (Answer true);
                Ev Publishing (page_click sel_publish) Done]
               (Ev Publishing (page_wait_for_selector sel_paid_publish 5000)
                  Done) _ eq_refl)
    | apply (Publish_broke a
               [Ev Publishing (page_is_visible sel_publish) (Answer true);
                Ev Publishing (page_click sel_publish) Done;
                Ev Publishing (page_wait_for_selector sel_paid_publish 5000)
                  Done]
               (Ev Publishing (page_click sel_paid_publish) Done) _ eq_refl)
    | apply (Publish_broke a
               [Ev Publishing (page_is_visible sel_publish) (Answer true);
                Ev Publishing (page_click sel_publish) Done;
                Ev Publishing (page_wait_for_selector sel_paid_publish 5000)
                  Done;
                Ev Publishing (page_click sel_paid_publish) Done]
               (Ev Publishing page_wait_for_load_state Done) _ eq_refl) ].

(** The save, the publish step and the final [return True]. *)
Lemma Finishes_save_publish :
  Finishes w (save w ;; publish w ;; return_ true) save_script.
Proof.
  intros [tr a].
  unfold save, publish, bind, try_except, extern, extern_bool, return_, ret,
    set_status, set_published_at, now, log; simpl.
  repeat step_world; rewrite <- ?app_assoc; simpl.
  all: try (split; [done|]).
  all: try (exists [], (Ev Saving (page_click sel_save) Done), [save_done];
            simpl; rewrite ?app_nil_r; done).
  all: try (exists [Ev Saving (page_click sel_save) Done], save_done, [];
            simpl; done).
  all: eexists; (split; [reflexivity|]); publish_run a.
Qed.

Lemma Finishes_guarded self title sections :
  Finishes w (guarded w self title sections)
    (full_script self (title, sections)).
Proof.
  unfold guarded, full_script. cbn [fst snd].
  apply Finishes_bind; [apply Scripted_login|intros _].
  apply Finishes_bind; [apply Scripted_open_editor|intros _].
  apply Finishes_bind; [apply Scripted_enter_title|intros _].
  apply Finishes_bind; [|intros _; apply Finishes_save_publish].
  apply Scripted_for_each, Scripted_enter_section.
Qed.

(** A run in which the session is opened is the guarded part, closed. *)
Lemma run_opened self a :
  raises w [] sync_playwright_enter = false ->
  raises w (take 1 opened) chromium_launch = false ->
  raises w (take 2 opened) new_context = false ->
  raises w (take 3 opened) new_page = false ->
  run w self a
  = close_run w (uncurry (guarded w self)
                   (parse_markdown (select_content a)) (MkState opened a)).
Proof.
  intros E0 E1 E2 E3. unfold run, post_article. simpl article.
  destruct (parse_markdown (select_content a)) as [title sections].
  unfold post_parsed.
  unfold bind at 1. unfold extern at 1. cbn [trace]. rewrite E0.
  unfold try_finally at 1. unfold bind at 1. unfold extern at 1.
  cbn [trace log app]. simpl in E1. rewrite E1.
  unfold bind at 1. unfold extern at 1. cbn [trace log app].
  simpl in E2. rewrite E2.
  unfold bind at 1. unfold extern at 1. cbn [trace log app].
  simpl in E3. rewrite E3.
  cbn [uncurry].
  apply (finally_close w (guarded w self title sections) (MkState opened a)).
  intros v Hv.
  pose proof (Finishes_guarded self title sections (MkState opened a)) as F.
  by rewrite Hv in F.
Qed.

(** A run in which a call that opens the session raises. *)
Lemma run_unopened self a :
  raises w [] sync_playwright_enter
  || raises w (take 1 opened) chromium_launch
  || raises w (take 2 opened) new_context
  || raises w (take 3 opened) new_page = true ->
  (run w self a).2 = Raise.
Proof.
  intros E. unfold run, post_article. simpl article.
  destruct (parse_markdown (select_content a)) as [title sections].
  unfold post_parsed.
  unfold bind at 1. unfold extern at 1. cbn [trace].
  destruct (raises w [] sync_playwright_enter) eqn:E0; [done|].
  unfold try_finally at 1. unfold bind at 1. unfold extern at 1.
  cbn [trace log app]. simpl in E.
  destruct (raises w _ chromium_launch) eqn:E1;
    [unfold extern; by destruct (raises w _ sync_playwright_exit)|].
  unfold bind at 1. unfold extern at 1. cbn [trace log app]. simpl in E.
  destruct (raises w _ new_context) eqn:E2;
    [unfold extern; by destruct (raises w _ sync_playwright_exit)|].
  unfold bind at 1. unfold extern at 1. cbn [trace log app]. simpl in E.
  destruct (raises w _ new_page) eqn:E3;
    [unfold extern; by destruct (raises w _ sync_playwright_exit)|]. done.
Qed.

End FinishFacts.

Lemma opening_cases (w : world) :
  raises w [] sync_playwright_enter
  || raises w (take 1 opened) chromium_launch
  || raises w (take 2 opened) new_context
  || raises w (take 3 opened) new_page = true
  \/ (raises w [] sync_playwright_enter = false
      /\ raises w (take 1 opened) chromium_launch = false
      /\ raises w (take 2 opened) new_context = false
      /\ raises w (take 3 opened) new_page = false).
Proof.
  destruct (raises w [] sync_playwright_enter); [by left|].
  destruct (raises w (take 1 opened) chromium_launch); [by left|].
  destruct (raises w (take 2 opened) new_context); [by left|].
  destruct (raises w (take 3 opened) new_page); [by left|]. by right.
Qed.

Lemma pasted_app l1 l2 : pasted (l1 ++ l2) = pasted l1 ++ pasted l2.
Proof. unfold pasted. apply flat_map_app. Qed.

Lemma pasted_sections l : pasted (flat_map section_script l) = map sec_content l.
Proof.
  induction l as [|b l IH]; simpl; [done|].
  rewrite pasted_app, IH. unfold section_script. by destruct (sec_type b).
Qed.

Lemma pasted_PublishRun a evs2 a' : PublishRun a evs2 a' -> pasted evs2 = [].
Proof.
  destruct 1 as [|passed e rest E|d]; [done| |done].
  assert (pasted (passed ++ e :: rest) = []) as H by by rewrite <- E.
  rewrite pasted_app in H. apply app_eq_nil in H as [H1 H2].
  rewrite pasted_app, H1. simpl in H2 |- *.
  apply app_eq_nil in H2 as [H2 _]. by rewrite H2.
Qed.

(** X9.  When [post_article] returns true, the calls it made are exactly:
    the four that open the session; the login with the credentials of the
    service, the editor page, the parsed title, every section in the order
    of the parse (copy, paste, and two Enter keys for a paragraph, one for
    a heading) and the save, each made once and none of them raising; the
    calls of the publish step; the three that close the session. *)
Theorem successful_run_follows_script w self a :
  let parsed := parse_markdown (select_content a) in
  let r := run w self a in
  r.2 = Return true ->
  exists evs2,
    trace r.1 = opened ++ full_script self parsed ++ evs2 ++ closed
    /\ PublishRun a evs2 (article r.1).
Proof.
  intros parsed r. unfold r.
  destruct (opening_cases w) as [E|(E0 & E1 & E2 & E3)].
  { rewrite (run_unopened w self a E). done. }
  rewrite (run_opened w self a E0 E1 E2 E3). fold parsed.
  destruct parsed as [title sections]. cbn [uncurry].
  pose proof (Finishes_guarded w self title sections (MkState opened a)) as F.
  unfold close_run.
  destruct (guarded w self title sections (MkState opened a))
    as [[tr a'] c]; cbn [fst snd trace article] in F |- *.
  destruct (closing_cases w tr) as [[Ec Eq]|[Ec Eq]]; rewrite Eq;
    [rewrite Ec|done].
  destruct c as [v|[|]|]; try done.
  intros _. destruct F as (evs2 & -> & Hp). exists evs2.
  by rewrite <- !app_assoc.
Qed.

Lemma successful_run_follows_script_witness :
  exists evs2,
    trace (run (calm false) a_service an_article).1
    = opened
      ++ full_script a_service
           (parse_markdown (select_content an_article))
      ++ evs2 ++ closed.
Proof.
  destruct (successful_run_follows_script (calm false) a_service an_article)
    as (evs2 & H & _); [reflexivity|].
  by exists evs2.
Defined.

(** X10.  When [post_article] returns false, it stopped at the first call
    that raised: the calls made are the calls of the script up to a call
    that the world made raise, each made once, followed only by the three
    calls that close the session; nothing is tried again, and the article
    is as it was. *)
Theorem failed_run_stops_at_first_failure w self a :
  let parsed := parse_markdown (select_content a) in
  let r := run w self a in
  r.2 = Return false ->
  exists passed e rest,
    full_script self parsed = passed ++ e :: rest
    /\ trace r.1 = opened ++ passed ++ [raised_of e] ++ closed
    /\ raises w (opened ++ passed) (ev_call e) = true
    /\ article r.1 = a.
Proof.
  intros parsed r. unfold r.
  destruct (opening_cases w) as [E|(E0 & E1 & E2 & E3)].
  { rewrite (run_unopened w self a E). done. }
  rewrite (run_opened w self a E0 E1 E2 E3). fold parsed.
  destruct parsed as [title sections]. cbn [uncurry].
  pose proof (Finishes_guarded w self title sections (MkState opened a)) as F.
  unfold close_run.
  destruct (guarded w self title sections (MkState opened a))
    as [[tr a'] c]; cbn [fst snd trace article] in F |- *.
  destruct (closing_cases w tr) as [[Ec Eq]|[Ec Eq]]; rewrite Eq;
    [rewrite Ec|done].
  destruct c as [v|[|]|]; try done.
  intros _. destruct F as (-> & passed & e & rest & Es & -> & Hw).
  exists passed, e, rest. by rewrite <- !app_assoc.
Qed.

Lemma failed_run_stops_at_first_failure_witness :
  exists passed e rest,
    full_script a_service (parse_markdown (select_content an_article))
    = passed ++ e :: rest
    /\ trace (run (fails_at 9 false) a_service an_article).1
       = opened ++ passed ++ [raised_of e] ++ closed.
Proof.
  destruct (failed_run_stops_at_first_failure (fails_at 9 false) a_service
              an_article) as (passed & e & rest & H1 & H2 & _);
    [reflexivity|].
  by exists passed, e, rest.
Defined.

(** X11.  When [post_article] returns true, the texts put on the clipboard
    are the texts of the parsed sections, in their order and each once,
    and the title typed into the title field is the parsed title. *)
Theorem successful_run_pastes_the_sections w self a :
  let parsed := parse_markdown (select_content a) in
  let r := run w self a in
  r.2 = Return true ->
  pasted (trace r.1) = map sec_content (snd parsed)
  /\ In (Ev Titling (page_fill sel_title (fst parsed)) Done) (trace r.1).
Proof.
  intros parsed r. unfold r.
  destruct (opening_cases w) as [E|(E0 & E1 & E2 & E3)].
  { rewrite (run_unopened w self a E). done. }
  rewrite (run_opened w self a E0 E1 E2 E3). fold parsed.
  destruct parsed as [title sections]. cbn [uncurry fst snd].
  pose proof (Finishes_guarded w self title sections (MkState opened a)) as F.
  unfold close_run.
  destruct (guarded w self title sections (MkState opened a))
    as [[tr a'] c]; cbn [fst snd trace article] in F |- *.
  destruct (closing_cases w tr) as [[Ec Eq]|[Ec Eq]]; rewrite Eq;
    [rewrite Ec|done].
  destruct c as [v|[|]|]; try done.
  intros _. destruct F as (evs2 & -> & Hp). unfold full_script.
  cbn [fst snd]. split.
  - rewrite !pasted_app, pasted_sections, (pasted_PublishRun _ _ _ Hp).
    change (pasted opened) with (@nil pystr).
    change (pasted (login_script self)) with (@nil pystr).
    change (pasted open_script) with (@nil pystr).
    change (pasted (title_script title)) with (@nil pystr).
    change (pasted save_script) with (@nil pystr).
    change (pasted closed) with (@nil pystr).
    by rewrite !app_nil_r.
  - apply in_or_app. left. apply in_or_app. right. apply in_or_app. left.
    apply in_or_app. right. apply in_or_app. right. apply in_or_app. left.
    by left.
Qed.

Lemma successful_run_pastes_the_sections_witness :
  pasted (trace (run (calm true) a_service an_article).1)
  = [s2p "Text."; s2p "## More"; s2p "End."].
Proof.
  destruct (successful_run_pastes_the_sections (calm true) a_service
              an_article) as [H _]; [reflexivity|].
  rewrite H. vm_compute. reflexivity.
Defined.

(** X12.  How a call of [post_article] ends can be read off the calls it
    made.  It returns true exactly when the save went through and no
    closing call raised; it raises exactly when a call that opens or
    closes the session raised; and it never ends without a result. *)
Theorem returns_true_iff_saved w self a :
  let r := run w self a in
  (r.2 = Return true
   <-> In save_done (trace r.1) /\ closing_raised (trace r.1) = false)
  /\ (r.2 = Raise
      <-> exists e, In e (trace r.1) /\ is_raised e = true
                    /\ (ev_stage e = Launching \/ ev_stage e = Closing))
  /\ (forall v, r.2 <> Normal v).
Proof.
  intros r. unfold r.
  destruct (run_Run w self a) as [tr Htr|evs a' b Ht|evs a' b tail Ht Hin];
    cbn [trace article fst snd]; (split; [split|split; [split|done]]).
  - done.
  - intros [Hs _]. exfalso. simpl in Htr.
    repeat (destruct Htr as [<-|Htr]; [by in_fixed Hs|]). done.
  - intros _. simpl in Htr.
    repeat (destruct Htr as [<-|Htr];
            [first
               [ by exists (Ev Launching sync_playwright_enter Raised);
                    simpl; auto 10
               | by exists (Ev Launching chromium_launch Raised);
                    simpl; auto 10
               | by exists (Ev Launching new_context Raised);
                    simpl; auto 10
               | by exists (Ev Launching new_page Raised);
                    simpl; auto 10 ]|]).
    done.
  - done.
  - intros [= ->]. split.
    + apply in_or_app. right. apply in_or_app. left.
      by apply (Tried_saved_iff _ _ _ _ Ht).
    + by rewrite !closing_raised_app, (Tried_no_closing _ _ _ _ Ht).
  - intros [Hs _]. f_equal. apply (Tried_saved_iff _ _ _ _ Ht).
    apply In_app3 in Hs as [Hs|[Hs|Hs]]; [by in_fixed Hs|done|by in_fixed Hs].
  - done.
  - intros (e & He & Hr & Hl). exfalso.
    apply In_app3 in He as [He|[He|He]]; [by in_fixed He| |by in_fixed He].
    pose proof (Tried_stages _ _ _ _ Ht e He) as Hs. unfold publishing in Hs.
    by destruct Hl as [Hl|Hl]; rewrite Hl in Hs.
  - done.
  - intros [_ Hc]. exfalso.
    by rewrite !closing_raised_app, (unclosed_raised _ Hin), !orb_true_r in Hc.
  - intros _. pose proof (unclosed_raised _ Hin) as Hu.
    unfold closing_raised in Hu. apply existsb_exists in Hu as (e & He & Hu).
    exists e. split; [apply in_or_app; right; by apply in_or_app; right|].
    destruct (ev_stage e) eqn:Es; try done. by split; [|right].
  - done.
Qed.

(** X13.  [post_article] never changes the title, the content, the
    creation time or the improved content of the article; in particular
    the title that it parses is not stored in the article. *)
Theorem post_article_keeps_the_other_fields w self a :
  let a' := article (run w self a).1 in
  title a' = title a /\ content a' = content a
  /\ created_at a' = created_at a
  /\ improved_content a' = improved_content a.
Proof.
  intros a'. unfold a'.
  by destruct (Run_article a _ (run_Run w self a)) as [->|[d ->]].
Qed.

Section CalmFacts.

Variable w : world.
Hypothesis calm_world : forall tr c, raises w tr c = false.

Local Open Scope py_scope.

Lemma closing_calm tr : closing w tr = closed.
Proof. unfold closing, outcome. by rewrite !calm_world. Qed.

Lemma Scripted_calm (m : M unit) script :
  Scripted w m script ->
  forall st, m st = (MkState (trace st ++ script) (article st), Normal tt).
Proof.
  intros H st. destruct (H st) as [Ha Hr].
  destruct (m st) as [[tr a] [[]|b|]]; simpl in *.
  - by subst.
  - done.
  - destruct Hr as (passed & e & rest & _ & _ & Hw).
    by rewrite calm_world in Hw.
Qed.

Lemma bind_calm {B} (m : M unit) (k : unit -> M B) script st :
  Scripted w m script ->
  bind m k st = k tt (MkState (trace st ++ script) (article st)).
Proof. intros H. unfold bind. by rewrite (Scripted_calm m script H). Qed.

Lemma save_publish_calm st :
  ((save w ;; publish w ;; return_ true) : M unit) st
  = if answers w (trace st ++ save_script) (page_is_visible sel_publish)
    then (MkState (trace st ++ save_script ++ publish_events)
            (mark_published (article st)
               (clock w (trace st ++ save_script ++ publish_events))),
          Return true)
    else (MkState (trace st ++ save_script
                     ++ [Ev Publishing (page_is_visible sel_publish)
                           (Answer false)])
            (article st),
          Return true).
Proof.
  destruct st as [tr a].
  unfold save, publish, bind, try_except, extern, extern_bool, return_, ret,
    set_status, set_published_at, now, log; simpl.
  rewrite !calm_world. simpl. rewrite <- !app_assoc. simpl.
  destruct (answers w _ (page_is_visible sel_publish)); simpl.
  - rewrite !calm_world. simpl. rewrite <- !app_assoc. done.
  - done.
Qed.

Lemma guarded_calm self title sections st :
  guarded w self title sections st
  = ((save w ;; publish w ;; return_ true) : M unit)
      (MkState (trace st ++ login_script self ++ open_script
                  ++ title_script title ++ flat_map section_script sections)
         (article st)).
Proof.
  unfold guarded.
  rewrite (bind_calm _ _ _ _ (Scripted_login w self)).
  rewrite (bind_calm _ _ _ _ (Scripted_open_editor w)).
  rewrite (bind_calm _ _ _ _ (Scripted_enter_title w title)).
  rewrite (bind_calm _ _ _ _
             (Scripted_for_each w sections _ _ (Scripted_enter_section w))).
  cbn [trace article]. by rewrite <- !app_assoc.
Qed.

End CalmFacts.

(** X14.  In a world in which no call raises, [post_article] returns true
    after the whole script.  When the publish button is visible it makes
    the four publish calls and marks the article as published, with the
    time read after the last of them; otherwise it leaves the article as
    it is. *)
Theorem calm_run w self a :
  (forall tr c, raises w tr c = false) ->
  let script :=
    opened ++ full_script self (parse_markdown (select_content a)) in
  run w self a
  = if answers w script (page_is_visible sel_publish)
    then (MkState (script ++ publish_events ++ closed)
            (mark_published a (clock w (script ++ publish_events))),
          Return true)
    else (MkState (script
                     ++ [Ev Publishing (page_is_visible sel_publish)
                           (Answer false)] ++ closed) a,
          Return true).
Proof.
  intros Hc script. unfold script.
  rewrite (run_opened w self a) by apply Hc.
  destruct (parse_markdown (select_content a)) as [title sections].
  cbn [uncurry]. rewrite (guarded_calm w Hc), (save_publish_calm w Hc).
  unfold full_script. cbn [trace article fst snd].
  rewrite <- !app_assoc.
  destruct (answers w _ (page_is_visible sel_publish));
    unfold close_run; cbn [trace article fst snd];
    rewrite (closing_calm w Hc); by rewrite <- ?app_assoc.
Qed.

Lemma calm_run_witness :
  (run (calm true) a_service an_article).2 = Return true
  /\ status (article (run (calm true) a_service an_article).1) = published.
Proof.
  rewrite (calm_run (calm true) a_service an_article (fun _ _ => eq_refl)).
  split; reflexivity.
Defined.

(** ** What is posted *)

Section PostedFacts.

Variable w : world.

Local Open Scope py_scope.

Lemma titles_app l1 l2 : titles (l1 ++ l2) = titles l1 ++ titles l2.
Proof. unfold titles. apply flat_map_app. Qed.

Lemma titles_sections l : titles (flat_map section_script l) = [].
Proof.
  induction l as [|b l IH]; simpl; [done|].
  rewrite titles_app, IH. unfold section_script. by destruct (sec_type b).
Qed.

(** What a run that stopped at a raising call shows is the beginning of
    what the whole script shows: a call counts whether it raised or not. *)
Lemma stopped_prefix (f : call -> list pystr) passed e rest :
  flat_map (fun e => f (ev_call e)) (passed ++ [raised_of e])
  `prefix_of` flat_map (fun e => f (ev_call e)) (passed ++ e :: rest).
Proof.
  rewrite !flat_map_app. simpl. rewrite app_nil_r.
  exists (flat_map (fun e => f (ev_call e)) rest). by rewrite <- app_assoc.
Qed.

Lemma titles_PublishRun a evs2 a' : PublishRun a evs2 a' -> titles evs2 = [].
Proof.
  destruct 1 as [|passed e rest E|d]; [done| |done].
  assert (titles (passed ++ e :: rest) = []) as H by by rewrite <- E.
  rewrite titles_app in H. apply app_eq_nil in H as [H1 H2].
  rewrite titles_app, H1. simpl in H2 |- *.
  apply app_eq_nil in H2 as [H2 _]. by rewrite H2.
Qed.

Lemma pasted_full_script self parsed :
  pasted (full_script self parsed) = map sec_content (snd parsed).
Proof.
  unfold full_script. rewrite !pasted_app, pasted_sections.
  change (pasted (login_script self)) with (@nil pystr).
  change (pasted open_script) with (@nil pystr).
  change (pasted (title_script (fst parsed))) with (@nil pystr).
  change (pasted save_script) with (@nil pystr).
  by rewrite app_nil_r.
Qed.

Lemma titles_full_script self parsed :
  titles (full_script self parsed) = [fst parsed].
Proof.
  unfold full_script. rewrite !titles_app, titles_sections.
  change (titles (login_script self)) with (@nil pystr).
  change (titles open_script) with (@nil pystr).
  change (titles (title_script (fst parsed))) with [fst parsed].
  change (titles save_script) with (@nil pystr).
  done.
Qed.

Lemma teardown_shows_nothing tail :
  In tail teardowns -> pasted tail = [] /\ titles tail = [].
Proof.
  intros H. simpl in H. repeat (destruct H as [<-|H]; [done|]). done.
Qed.

Lemma unopened_shows_nothing tr :
  In tr unopened -> pasted tr = [] /\ titles tr = [].
Proof.
  intros H. simpl in H. repeat (destruct H as [<-|H]; [done|]). done.
Qed.

(** The calls of a run in which a call that opens the session raises. *)
Lemma run_unopened_trace self a :
  raises w [] sync_playwright_enter
  || raises w (take 1 opened) chromium_launch
  || raises w (take 2 opened) new_context
  || raises w (take 3 opened) new_page = true ->
  In (trace (run w self a).1) unopened.
Proof.
  intros E. unfold run, post_article. simpl article.
  destruct (parse_markdown (select_content a)) as [title sections].
  unfold post_parsed.
  unfold bind at 1. unfold extern at 1. cbn [trace].
  destruct (raises w [] sync_playwright_enter) eqn:E0; [simpl; auto|].
  unfold try_finally at 1. unfold bind at 1. unfold extern at 1.
  cbn [trace log app]. simpl in E.
  destruct (raises w _ chromium_launch) eqn:E1;
    [unfold extern; destruct (raises w _ sync_playwright_exit);
     simpl; auto 10|].
  unfold bind at 1. unfold extern at 1. cbn [trace log app]. simpl in E.
  destruct (raises w _ new_context) eqn:E2;
    [unfold extern; destruct (raises w _ sync_playwright_exit);
     simpl; auto 10|].
  unfold bind at 1. unfold extern at 1. cbn [trace log app]. simpl in E.
  destruct (raises w _ new_page) eqn:E3;
    [unfold extern; destruct (raises w _ sync_playwright_exit);
     simpl; auto 10|].
  done.
Qed.

(** The calls of a run: the session is not opened; or the whole script
    is followed by the publish step and the closing calls; or the script
    stops at a call that raises, followed by the closing calls. *)
Lemma run_trace self a :
  let parsed := parse_markdown (select_content a) in
  let r := run w self a in
  (In (trace r.1) unopened /\ r.2 = Raise)
  \/ exists tail,
       In tail teardowns
       /\ ((exists evs2,
              trace r.1 = opened ++ full_script self parsed ++ evs2 ++ tail
              /\ PublishRun a evs2 (article r.1))
           \/ (r.2 <> Return true
               /\ exists passed e rest,
                    full_script self parsed = passed ++ e :: rest
                    /\ trace r.1
                       = opened ++ passed ++ [raised_of e] ++ tail)).
Proof.
  intros parsed r. unfold r.
  destruct (opening_cases w) as [E|(E0 & E1 & E2 & E3)].
  { left. split; [by apply run_unopened_trace|by apply run_unopened]. }
  right. rewrite (run_opened w self a E0 E1 E2 E3). fold parsed.
  destruct parsed as [title sections]. cbn [uncurry].
  pose proof (Finishes_guarded w self title sections (MkState opened a)) as F.
  unfold close_run.
  destruct (guarded w self title sections (MkState opened a))
    as [[tr a'] c]; cbn [fst snd trace article] in F |- *.
  exists (closing w tr). split.
  { destruct (closing_cases w tr) as [[-> _]|[H _]]; [by left|by right]. }
  destruct c as [v|[|]|]; try done.
  - left. destruct F as (evs2 & -> & Hp). exists evs2.
    by rewrite <- !app_assoc.
  - right. destruct F as (-> & passed & e & rest & Es & -> & Hw).
    split; [by destruct (existsb _ _)|].
    exists passed, e, rest. by rewrite <- !app_assoc.
Qed.

(** In a world in which no call raises, [post_article] returns true. *)
Lemma calm_returns_true self a :
  (forall tr c, raises w tr c = false) -> (run w self a).2 = Return true.
Proof.
  intros Hc. rewrite (run_opened w self a) by apply Hc.
  destruct (parse_markdown (select_content a)) as [title sections].
  cbn [uncurry]. rewrite (guarded_calm w Hc), (save_publish_calm w Hc).
  unfold close_run. rewrite (closing_calm w Hc).
  by destruct (answers w _ (page_is_visible sel_publish)).
Qed.

End PostedFacts.

(** C10.  When the improved content is [None] or the empty string,
    [post_article] parses and posts the content; it parses and posts the
    improved content only when that is a non-empty string.  Of the text
    [text] that is used in this way: whatever the calls do, the title
    typed and the texts pasted are the beginning of the parsed title and
    sections of [text]; when [post_article] returns true they are exactly
    the parsed title and all the parsed sections, in their order; and it
    does return true when no call raises. *)
Theorem empty_improved_content_is_absent w self a text :
  ((improved_content a = None \/ improved_content a = Some [])
   /\ text = content a)
  \/ (improved_content a = Some text /\ text <> []) ->
  let parsed := parse_markdown text in
  let r := run w self a in
  pasted (trace r.1) `prefix_of` map sec_content (snd parsed)
  /\ titles (trace r.1) `prefix_of` [fst parsed]
  /\ (r.2 = Return true ->
      pasted (trace r.1) = map sec_content (snd parsed)
      /\ titles (trace r.1) = [fst parsed])
  /\ ((forall tr c, raises w tr c = false) -> r.2 = Return true).
Proof.
  intros H parsed r.
  assert (select_content a = text) as Hs.
  { unfold select_content.
    destruct H as [[[-> | ->] ->]|[-> Hn]]; [done..|]. by destruct text. }
  assert (pasted opened = [] /\ titles opened = []) as [Po To] by done.
  pose proof (run_trace w self a) as Hr. cbn zeta in Hr.
  rewrite Hs in Hr. fold parsed in Hr. fold r in Hr.
  assert (Hcalm : (forall tr c, raises w tr c = false) -> r.2 = Return true)
    by apply calm_returns_true.
  destruct Hr as [[Hu Hx]|(tail & Ht & Hr)].
  - destruct (unopened_shows_nothing _ Hu) as [-> ->].
    split; [apply prefix_nil|]. split; [apply prefix_nil|].
    split; [by rewrite Hx|done].
  - destruct (teardown_shows_nothing _ Ht) as [Pt Tt].
    destruct Hr as [(evs2 & -> & Hp)|(Hn & passed & e & rest & Es & ->)].
    + assert (pasted (opened ++ full_script self parsed ++ evs2 ++ tail)
              = map sec_content (snd parsed)) as ->.
      { rewrite !pasted_app, pasted_full_script, Pt, Po,
          (pasted_PublishRun _ _ _ Hp).
        by rewrite !app_nil_r. }
      assert (titles (opened ++ full_script self parsed ++ evs2 ++ tail)
              = [fst parsed]) as ->.
      { rewrite !titles_app, titles_full_script, Tt, To,
          (titles_PublishRun _ _ _ Hp).
        done. }
      split; [done|]. split; [done|]. by split.
    + assert (forall l, pasted (opened ++ l ++ tail) = pasted l) as Pl.
      { intros l. by rewrite !pasted_app, Pt, Po, app_nil_r. }
      assert (forall l, titles (opened ++ l ++ tail) = titles l) as Tl.
      { intros l. by rewrite !titles_app, Tt, To, app_nil_r. }
      rewrite (app_assoc passed), Pl, Tl.
      rewrite <- (pasted_full_script self parsed),
        <- (titles_full_script self parsed), Es.
      split; [|split; [|by split]].
      * apply (stopped_prefix
                 (fun c => match c with pyperclip_copy t => [t] | _ => [] end)).
      * apply (stopped_prefix
                 (fun c => match c with
                           | page_fill sel_title t => [t]
                           | _ => []
                           end)).
Qed.

Lemma empty_improved_content_is_absent_witness :
  let a := MkArticle [] (joinNL ["# A"; "Old."]) draft 7%N None (Some []) in
  let b :=
    MkArticle [] (joinNL ["# A"; "Old."]) draft 7%N None
      (Some (joinNL ["# B"; "New."])) in
  pasted (trace (run (calm false) a_service a).1) = [s2p "Old."]
  /\ titles (trace (run (calm false) a_service a).1) = [s2p "A"]
  /\ pasted (trace (run (calm false) a_service b).1) = [s2p "New."]
  /\ titles (trace (run (calm false) a_service b).1) = [s2p "B"].
Proof.
  intros a b.
  destruct (empty_improved_content_is_absent (calm false) a_service a
              (joinNL ["# A"; "Old."])) as (_ & _ & Ha & Ca);
    [left; split; [by right|reflexivity]|].
  destruct (empty_improved_content_is_absent (calm false) a_service b
              (joinNL ["# B"; "New."])) as (_ & _ & Hb & Cb);
    [right; split; [reflexivity|discriminate]|].
  destruct (Ha (Ca (fun _ _ => eq_refl))) as [-> ->].
  destruct (Hb (Cb (fun _ _ => eq_refl))) as [-> ->].
  repeat split.
Defined.

(** ** Further facts about the Article record *)

(** X15.  [from_dict] undoes [to_dict]: when [fromisoformat] reads back
    what [isoformat] writes, and [isoformat] never writes the empty
    string, an article written to a dict and read back is the article. *)
Theorem from_dict_to_dict isoformat fromisoformat now a :
  (forall d, fromisoformat (isoformat d) = Some d) ->
  (forall d, isoformat d <> []) ->
  from_dict fromisoformat now (to_dict isoformat a) = Some (object_of a).
Proof.
  intros Hrt Hne.
  assert (forall d, truthy (isoformat d) = true) as Ht.
  { intros d. specialize (Hne d). by destruct (isoformat d). }
  unfold from_dict, optional_time, to_dict. simplify_map_eq.
  rewrite ?Ht, ?Hrt. destruct a as [t c s cr pa ic].
  destruct pa as [d|]; simpl; rewrite ?Ht, ?Hrt; by destruct ic.
Qed.

Lemma from_dict_to_dict_witness :
  from_dict (fun s => match s with [d] => Some d | _ => None end) 0%N
    (to_dict (fun d => [d])
       (MkArticle (s2p "t") (s2p "c") published 3%N (Some 5%N) (Some [])))
  = Some (object_of
            (MkArticle (s2p "t") (s2p "c") published 3%N (Some 5%N)
               (Some []))).
Proof.
  apply (from_dict_to_dict (fun d => [d])
           (fun s => match s with [d] => Some d | _ => None end)).
  - reflexivity.
  - discriminate.
Defined.

(** X16.  [from_dict] raises when the key of the title or of the content
    is missing.  With both keys, and no time to parse, it builds an
    object, also when a value is [None].  The object it builds has the
    title and the content of the dict as they are; a creation time that is
    missing, [None] or empty is replaced by the current time, and a
    publication time of that kind is [None]; the status of the dict is
    stored as it is, [None] included, and only a missing key gives
    ["draft"]. *)
Theorem from_dict_missing_keys fromisoformat now (data : gmap string pyval) :
  (data !! "title" = None \/ data !! "content" = None ->
   from_dict fromisoformat now data = None)
  /\ (is_Some (data !! "title") -> is_Some (data !! "content") ->
      absent data "created_at" = true -> absent data "published_at" = true ->
      is_Some (from_dict fromisoformat now data))
  /\ (forall o, from_dict fromisoformat now data = Some o ->
        data !! "title" = Some (obj_title o)
        /\ data !! "content" = Some (obj_content o)
        /\ (absent data "created_at" = true -> obj_created_at o = now)
        /\ (absent data "published_at" = true -> obj_published_at o = None)
        /\ (data !! "status" = None -> obj_status o = PyStr draft)
        /\ (forall v, data !! "status" = Some v -> obj_status o = v)).
Proof.
  unfold from_dict, optional_time, absent. split; [|split].
  - intros [H|H]; rewrite H;
      repeat match goal with
             | |- context [match ?x with _ => _ end] => destruct x
             end; done.
  - intros [t ->] [c ->].
    destruct (data !! "created_at") as [[|s1]|];
      destruct (data !! "published_at") as [[|s2]|];
      try destruct (truthy s1); try destruct (truthy s2); by eauto.
  - intros o H.
    destruct (data !! "created_at") as [[|s1]|];
      destruct (data !! "published_at") as [[|s2]|];
      try destruct (truthy s1); try destruct (fromisoformat s1);
      try destruct (truthy s2); try destruct (fromisoformat s2);
      try done;
      destruct (data !! "title") as [t|]; try done;
      destruct (data !! "content") as [c|]; try done;
      destruct (data !! "status") as [s|];
      injection H as <-; repeat split; try done; by intros v [= <-].
Qed.

Lemma from_dict_missing_keys_witness :
  from_dict (fun _ => None) 9%N
    (<["content" := PyStr (s2p "c")]> ∅ : gmap string pyval) = None
  /\ from_dict (fun _ => None) 9%N
       (<["title" := PyNone]>
          (<["content" := PyStr (s2p "c")]>
             (<["status" := PyNone]>
                (<["published_at" := PyStr []]> ∅))) : gmap string pyval)
     = Some (MkObject PyNone (PyStr (s2p "c")) PyNone 9%N None None).
Proof.
  split.
  - apply (proj1 (from_dict_missing_keys (fun _ => None) 9%N _)).
    by left.
  - destruct (from_dict_missing_keys (fun _ => None) 9%N
                (<["title" := PyNone]>
                   (<["content" := PyStr (s2p "c")]>
                      (<["status" := PyNone]>
                         (<["published_at" := PyStr []]> ∅)))))
      as (_ & [o E] & H); [by eexists..|reflexivity|reflexivity|].
    rewrite E. destruct (H o E) as (Ht & Hc & Hcr & Hp & _ & Hs).
    destruct o as [t c st cr pa ic]. simpl in *.
    vm_compute in E. by injection E as <- <- <- <- <- <-.
Defined.


(** ** Further facts about [main.py] *)

Section LoadConfigFacts.

Context {value : Type} (truth : value -> bool) (of_env : option pystr -> value).

Lemma first_missing_None (config : gmap string value) keys :
  first_missing truth config keys = None ->
  forallb (get_truthy truth config) keys = true.
Proof.
  induction keys as [|k keys IH]; simpl; [done|].
  destruct (get_truthy truth config k); simpl; [exact IH|done].
Qed.

Lemma first_missing_Some (config : gmap string value) keys k :
  first_missing truth config keys = Some k ->
  exists before after,
    keys = before ++ k :: after
    /\ forallb (get_truthy truth config) before = true
    /\ get_truthy truth config k = false.
Proof.
  induction keys as [|k' keys IH]; simpl; [done|].
  destruct (get_truthy truth config k') eqn:E; simpl.
  - intros H. destruct (IH H) as (before & after & -> & H1 & H2).
    exists (k' :: before), after. simpl. by rewrite E.
  - intros [= <-]. by exists [], keys.
Qed.

End LoadConfigFacts.

(** X17.  [load_config] returns the dict it read, unchanged, exactly when
    each of the four required keys has a truthy value in it.  Otherwise it
    raises a [ValueError] that names the first of them, in the order
    openai_api_key, news_api_key, note_email, note_password, that is
    missing or falsy: the keys before it are present. *)
Theorem load_config_validates {value} (truth : value -> bool) of_env
    file env (config : gmap string value) :
  read_config of_env file env = Some config ->
  match load_config truth of_env file env with
  | Config c =>
      c = config /\ forallb (get_truthy truth config) required_keys = true
  | ValueError key =>
      exists before after,
        required_keys = before ++ key :: after
        /\ forallb (get_truthy truth config) before = true
        /\ get_truthy truth config key = false
  | OtherError => False
  end.
Proof.
  intros H. unfold load_config. rewrite H.
  destruct (first_missing truth config required_keys) as [k|] eqn:E.
  - by apply first_missing_Some.
  - split; [done|]. by apply first_missing_None.
Qed.

Lemma load_config_validates_witness :
  load_config val_truthy env_value
    (FileDict (<["openai_api_key" := PyStr (s2p "k")]>
                 (<["news_api_key" := PyStr []]> ∅)))
    ∅
  = ValueError "news_api_key".
Proof.
  pose proof (load_config_validates val_truthy env_value
                (FileDict (<["openai_api_key" := PyStr (s2p "k")]>
                             (<["news_api_key" := PyStr []]> ∅)))
                ∅ _ eq_refl) as H.
  destruct (load_config _ _ _ _) as [c|k|] eqn:E; [by vm_compute in E| |done].
  vm_compute in E. by injection E as <-.
Defined.

(** X18.  Without a configuration file, [load_config] succeeds exactly
    when the four variables OPENAI_API_KEY, NEWS_API_KEY, NOTE_EMAIL and
    NOTE_PASSWORD are set and not empty; the posting time is then the
    variable POST_TIME when it is set, even to the empty string, and 08:00
    otherwise. *)
Theorem load_config_from_environment env :
  let result := load_config val_truthy env_value NoFile env in
  (forallb (env_set env)
     ["OPENAI_API_KEY"; "NEWS_API_KEY"; "NOTE_EMAIL"; "NOTE_PASSWORD"] = true
   <-> exists config, result = Config config)
  /\ (forall config, result = Config config ->
        config !! "post_time"
        = Some (PyStr (default (s2p "08:00") (env !! "POST_TIME")))).
Proof.
  intros result. unfold result, load_config, read_config, env_config.
  unfold required_keys, first_missing, get_truthy, env_set. simpl forallb.
  simplify_map_eq.
  destruct (env !! "OPENAI_API_KEY") as [[|? ?]|]; simpl.
  2: destruct (env !! "NEWS_API_KEY") as [[|? ?]|]; simpl.
  3: destruct (env !! "NOTE_EMAIL") as [[|? ?]|]; simpl.
  4: destruct (env !! "NOTE_PASSWORD") as [[|? ?]|]; simpl.
  all: split; [split; [try done; intros _; eauto | try done; by intros [? ?]]|].
  all: intros config; try done.
  intros [= <-]. by simplify_map_eq.
Qed.

(** ** [fetch_trending_news]: the selection of the articles *)

Lemma slice_to_prefix {A} (n : Z) (l : list A) : slice_to n l `prefix_of` l.
Proof.
  unfold slice_to. destruct (0 <=? n)%Z; eexists; symmetry; apply take_drop.
Qed.

Lemma prefix_is_sublist {A} (l1 l2 : list A) :
  l1 `prefix_of` l2 -> l1 `sublist_of` l2.
Proof. intros [k ->]. by apply sublist_inserts_r. Qed.

Lemma slice_to_length {A} (n : Z) (l : list A) :
  (0 <= n)%Z -> (Z.of_nat (length (slice_to n l)) <= n)%Z.
Proof.
  intros H. unfold slice_to.
  rewrite (proj2 (Z.leb_le 0 n) H), length_take. lia.
Qed.

(** Whatever the loop collects is appended to [filtered], and is a prefix
    of the approved articles. *)
Lemma filter_loop_sound {article value} (verdict : nat -> option pystr)
    (config : gmap string value) (num : Z) (raw : list article) :
  forall i filtered asked res,
  filter_loop verdict config num raw i filtered = (asked, res) ->
  i <= asked <= i + length raw /\
  match res with
  | Some out =>
      exists extra, out = filtered ++ extra /\
        extra `prefix_of` approved_from verdict i raw /\
        extra `sublist_of` raw
  | None => True
  end.
Proof.
  induction raw as [|a raw IH]; intros i filtered asked res; simpl.
  - intros [= <- <-]. split; [lia|]. exists []. rewrite app_nil_r.
    repeat split; [apply prefix_nil | constructor].
  - destruct (config !! "model") as [model|];
      [|intros [= <- <-]; split; [lia|done]].
    destruct (verdict i) as [result|] eqn:Ea.
    + destruct (approved result).
      * destruct (num <=? _)%Z.
        -- intros [= <- <-]. split; [lia|]. exists [a].
           repeat split; [by apply prefix_cons, prefix_nil|].
           by apply sublist_skip, sublist_nil_l.
        -- intros H. apply IH in H as [? H]. split; [lia|].
           destruct res as [out|]; [|done].
           destruct H as (extra & -> & P & S). exists (a :: extra).
           rewrite <- app_assoc. repeat split; [by apply prefix_cons|].
           by apply sublist_skip.
      * intros H. apply IH in H as [? H]. split; [lia|].
        destruct res as [out|]; [|done].
        destruct H as (extra & -> & P & S). exists extra.
        repeat split; [done|]. by apply sublist_cons.
    + intros [= <- <-]. split; [lia|done].
Qed.

(** With every call answered, the loop collects the approved articles up
    to the number asked for, and at least one of them. *)
Lemma filter_loop_complete {article value} (verdict : nat -> option pystr)
    (config : gmap string value) (num : Z) (raw : list article) :
  is_Some (config !! "model") ->
  forall i filtered,
  (forall k, k < length raw -> is_Some (verdict (i + k))) ->
  let wanted := Nat.max 1 (Z.to_nat num - length filtered) in
  exists k,
    filter_loop verdict config num raw i filtered
    = (i + k, Some (filtered ++ take wanted (approved_from verdict i raw))) /\
    k <= length raw /\
    approved_from verdict i (take k raw)
    = take wanted (approved_from verdict i raw) /\
    (k < length raw ->
     length (take wanted (approved_from verdict i raw)) = wanted).
Proof.
  intros [model Hm].
  induction raw as [|a raw IH]; intros i filtered Hv wanted.
  - exists 0. simpl. rewrite take_nil, app_nil_r, Nat.add_0_r.
    repeat split; [lia..].
  - destruct (Hv 0 ltac:(simpl; lia)) as [result Hr].
    rewrite Nat.add_0_r in Hr.
    assert (Hv' : forall k, k < length raw -> is_Some (verdict (S i + k))).
    { intros k Hk. replace (S i + k) with (i + S k) by lia.
      apply Hv. simpl. lia. }
    simpl filter_loop. simpl approved_from. rewrite Hm, Hr.
    destruct (approved result) eqn:Hok.
    + destruct (num <=? _)%Z eqn:Hn.
      * exists 1. apply Z.leb_le in Hn. rewrite length_app in Hn. simpl in Hn.
        assert (wanted = 1) as -> by (subst wanted; lia).
        simpl. rewrite take_0, Hr, Hok. replace (i + 1) with (S i) by lia.
        repeat split; lia.
      * apply Z.leb_gt in Hn. rewrite length_app in Hn. simpl in Hn.
        destruct (IH (S i) (filtered ++ [a]) Hv') as (k & E & Hk & Ht & Hl).
        rewrite length_app in *. simpl length in *.
        assert (Hw : wanted = S (Nat.max 1 (Z.to_nat num - (length filtered + 1))))
          by (subst wanted; lia).
        exists (S k). rewrite E, Hw, <- app_assoc. simpl.
        rewrite Hr, Hok, Ht. replace (i + S k) with (S (i + k)) by lia.
        repeat split; [lia|]. intros Hlt. rewrite Hl; lia.
    + destruct (IH (S i) filtered Hv') as (k & E & Hk & Ht & Hl).
      exists (S k). rewrite E. simpl. rewrite Hr, Hok, Ht.
      replace (i + S k) with (S (i + k)) by lia.
      repeat split; [lia|]. intros Hlt. apply Hl. lia.
Qed.

(** A call that fails before enough articles were collected ends the loop
    with an exception. *)
Lemma filter_loop_fails {article value} (verdict : nat -> option pystr)
    (config : gmap string value) (num : Z) (raw : list article) :
  forall j i filtered,
  j < length raw ->
  ask verdict config (i + j) = None ->
  length (approved_from verdict i (take j raw))
  < Nat.max 1 (Z.to_nat num - length filtered) ->
  exists asked,
    filter_loop verdict config num raw i filtered = (asked, None) /\
    asked <= S (i + j).
Proof.
  induction raw as [|a raw IH]; intros j i filtered Hj Hf Hc; simpl in Hj.
  - lia.
  - simpl filter_loop.
    destruct (config !! "model") as [model|] eqn:Em;
      [|exists i; split; [done|lia]].
    destruct (verdict i) as [result|] eqn:Ea;
      [|exists (S i); split; [done|lia]].
    destruct j as [|j].
    { rewrite Nat.add_0_r in Hf. unfold ask in Hf. rewrite Em in Hf.
      congruence. }
    simpl in Hc. rewrite Ea in Hc.
    replace (i + S j) with (S i + j) in Hf by lia.
    destruct (approved result).
    + simpl in Hc.
      destruct (num <=? _)%Z eqn:Hn.
      * apply Z.leb_le in Hn. rewrite length_app in Hn. simpl in Hn. lia.
      * destruct (IH j (S i) (filtered ++ [a])) as (asked & E & Hk);
          [lia | done | rewrite length_app; simpl; lia |].
        exists asked. split; [done|lia].
    + destruct (IH j (S i) filtered) as (asked & E & Hk); [lia | done | done |].
      exists asked. split; [done|lia].
Qed.

Lemma first_missing_truthy {value} (truth : value -> bool)
    (config : gmap string value) keys :
  forallb (get_truthy truth config) keys = true ->
  first_missing truth config keys = None.
Proof.
  induction keys as [|k keys IH]; simpl; [done|].
  destruct (get_truthy truth config k); simpl; [exact IH|done].
Qed.

(** X19.  When the request succeeds, [fetch_trending_news] returns
    articles of the response, in their order and without inventing one;
    never more than [num_articles] of them when that number is not
    negative; it asks about at most every article of the response once.
    With the filter on, the articles returned are the first approved ones
    (no approved article is skipped, none that is not approved is
    returned); with the filter off nothing is asked and the articles
    returned are the first of the response. *)
Theorem fetch_returns_at_most {article value}
    (verdict : nat -> option pystr) (config : gmap string value)
    (respond : pystr -> Z -> option (list article))
    (num_articles : Z) (category : pystr) (age_appropriate : bool)
    (raw_articles : list article) :
  respond category (page_size num_articles) = Some raw_articles ->
  exists asked articles,
    fetch_trending_news verdict (Config config) respond
      num_articles category age_appropriate
    = Fetched asked articles
    /\ articles `sublist_of` raw_articles
    /\ ((0 <= num_articles)%Z ->
        (Z.of_nat (length articles) <= num_articles)%Z)
    /\ asked <= length raw_articles
    /\ (age_appropriate = true ->
        articles `prefix_of` approved_from verdict 0 raw_articles)
    /\ (age_appropriate = false ->
        asked = 0 /\ articles `prefix_of` raw_articles).
Proof.
  intros Hr. unfold fetch_trending_news, select_articles. rewrite Hr.
  destruct age_appropriate; simpl.
  - destruct raw_articles as [|a raw].
    + exists 0, (slice_to num_articles []).
      assert (E : slice_to num_articles (@nil article) = []).
      { destruct (slice_to_prefix num_articles (@nil article)) as [k E].
        symmetry in E. by apply app_eq_nil in E as [-> _]. }
      rewrite E. repeat split; try done; try (intros; simpl; lia).
    + destruct (filter_loop verdict config num_articles (a :: raw) 0 [])
        as [asked [out|]] eqn:E; apply filter_loop_sound in E as [Ha E].
      * destruct E as (extra & -> & P & S). simpl in Ha |- *.
        exists asked, (slice_to num_articles extra).
        pose proof (slice_to_prefix num_articles extra) as Q.
        repeat split; try done; try lia.
        -- etrans; [by apply prefix_is_sublist|done].
        -- apply slice_to_length.
        -- intros _. by etrans.
      * exists asked, []. simpl in Ha |- *.
        repeat split; try done; try (intros; simpl; lia).
        -- apply sublist_nil_l.
        -- intros _. apply prefix_nil.
  - exists 0, (slice_to num_articles raw_articles).
    pose proof (slice_to_prefix num_articles raw_articles) as Q.
    repeat split; try done; try lia.
    + by apply prefix_is_sublist.
    + apply slice_to_length.
Qed.

Lemma fetch_returns_at_most_witness :
  exists asked articles,
    fetch_trending_news
      (fun i => if Nat.even i then Some (s2p "NO") else Some (s2p "YES ok"))
      (Config (<["model" := PyStr (s2p "gpt-4o")]> ∅))
      (fun _ _ => Some [10; 11; 12; 13; 14]) 2 (s2p "general") true
    = Fetched asked articles
    /\ articles `sublist_of` [10; 11; 12; 13; 14]
    /\ asked <= 5.
Proof.
  destruct (fetch_returns_at_most
              (fun i => if Nat.even i then Some (s2p "NO")
                        else Some (s2p "YES ok"))
              (<["model" := PyStr (s2p "gpt-4o")]> ∅)
              (fun _ _ => Some [10; 11; 12; 13; 14]) 2 (s2p "general") true
              [10; 11; 12; 13; 14] eq_refl)
    as (asked & articles & E & S & _ & Ha & _).
  by exists asked, articles.
Defined.

(** X20.  With a model configured and every call answered, the filter
    returns exactly the first [num_articles] approved articles of the
    response (all of them when there are fewer), for [num_articles] of at
    least 1.  It asks about the articles in order and stops as soon as it
    has enough: the articles returned are the approved ones among those
    asked about, and articles are left unasked only when [num_articles]
    were found. *)
Theorem fetch_returns_first_approved {article value}
    (verdict : nat -> option pystr) (config : gmap string value)
    (respond : pystr -> Z -> option (list article))
    (num_articles : Z) (category : pystr) (raw_articles : list article) :
  is_Some (config !! "model") ->
  respond category (page_size num_articles) = Some raw_articles ->
  (forall i, i < length raw_articles -> is_Some (verdict i)) ->
  (1 <= num_articles)%Z ->
  let articles :=
    take (Z.to_nat num_articles) (approved_from verdict 0 raw_articles) in
  exists asked,
    fetch_trending_news verdict (Config config) respond
      num_articles category true
    = Fetched asked articles
    /\ asked <= length raw_articles
    /\ approved_from verdict 0 (take asked raw_articles) = articles
    /\ (asked < length raw_articles ->
        length articles = Z.to_nat num_articles).
Proof.
  intros Hm Hr Hv Hn articles.
  unfold fetch_trending_news, select_articles. rewrite Hr. simpl.
  destruct raw_articles as [|a raw].
  - exists 0. subst articles. simpl. rewrite take_nil.
    assert (E : slice_to num_articles (@nil article) = []).
    { destruct (slice_to_prefix num_articles (@nil article)) as [k E].
      symmetry in E. by apply app_eq_nil in E as [-> _]. }
    rewrite E. repeat split; [lia..].
  - destruct (filter_loop_complete verdict config num_articles (a :: raw)
                Hm 0 [] Hv) as (k & E & Hk & Ht & Hl).
    change (length (@nil article)) with 0 in *.
    replace (Nat.max 1 (Z.to_nat num_articles - 0))
      with (Z.to_nat num_articles) in * by lia.
    rewrite E. exists k. fold articles in Ht, Hl |- *.
    change ([] ++ articles) with articles.
    assert (Es : slice_to num_articles articles = articles).
    { unfold slice_to. rewrite (proj2 (Z.leb_le 0 num_articles)) by lia.
      subst articles. rewrite take_take. f_equal. lia. }
    rewrite Es. by repeat split.
Qed.

Lemma fetch_returns_first_approved_witness :
  exists asked,
    fetch_trending_news
      (fun i => if Nat.even i then Some (s2p "NO") else Some (s2p "YES ok"))
      (Config (<["model" := PyStr (s2p "gpt-4o")]> ∅))
      (fun _ _ => Some [10; 11; 12; 13; 14]) 2 (s2p "general") true
    = Fetched asked [11; 13]
    /\ asked <= 5.
Proof.
  destruct (fetch_returns_first_approved
              (fun i => if Nat.even i then Some (s2p "NO")
                        else Some (s2p "YES ok"))
              (<["model" := PyStr (s2p "gpt-4o")]> ∅)
              (fun _ _ => Some [10; 11; 12; 13; 14]) 2 (s2p "general")
              [10; 11; 12; 13; 14])
    as (asked & E & Ha & _); [by eexists | done | | lia |].
  - intros i _. destruct (Nat.even i); by eexists.
  - exists asked. split; [exact E | exact Ha].
Defined.

(** X21.  A call of the model that fails before enough articles were
    collected loses the articles approved until then: the function
    returns the empty list, and asks about no later article. *)
Theorem failed_call_discards_everything {article value}
    (verdict : nat -> option pystr) (config : gmap string value)
    (respond : pystr -> Z -> option (list article))
    (num_articles : Z) (category : pystr) (raw_articles : list article)
    (j : nat) :
  respond category (page_size num_articles) = Some raw_articles ->
  j < length raw_articles ->
  ask verdict config j = None ->
  length (approved_from verdict 0 (take j raw_articles))
  < Nat.max 1 (Z.to_nat num_articles) ->
  exists asked,
    fetch_trending_news verdict (Config config) respond
      num_articles category true
    = Fetched asked []
    /\ asked <= S j.
Proof.
  intros Hr Hj Hf Hc.
  unfold fetch_trending_news, select_articles. rewrite Hr. simpl.
  destruct raw_articles as [|a raw]; [simpl in Hj; lia|].
  destruct (filter_loop_fails verdict config num_articles (a :: raw)
              j 0 []) as (asked & E & Ha); try done.
  { change (length (@nil article)) with 0.
    by rewrite Nat.sub_0_r. }
  rewrite E. by exists asked.
Qed.

Lemma failed_call_discards_everything_witness :
  exists asked,
    fetch_trending_news
      (fun i => if i =? 2 then None else Some (s2p "YES ok"))
      (Config (<["model" := PyStr (s2p "gpt-4o")]> ∅))
      (fun _ _ => Some [10; 11; 12; 13; 14]) 3 (s2p "general") true
    = Fetched asked []
    /\ asked <= 3.
Proof.
  apply (failed_call_discards_everything
           (fun i => if i =? 2 then None else Some (s2p "YES ok"))
           (<["model" := PyStr (s2p "gpt-4o")]> ∅)
           (fun _ _ => Some [10; 11; 12; 13; 14]) 3 (s2p "general")
           [10; 11; 12; 13; 14] 2);
    [reflexivity | simpl; lia | reflexivity | vm_compute; lia].
Defined.

(** X22.  A configuration file that [load_config] accepts need not name a
    model.  With such a file the filter of [fetch_trending_news] fails
    before its first call of the model, which is not made, so a response
    that is not empty gives the empty list, while the same call without
    the filter returns the first articles of the response. *)
Theorem file_without_model_fetches_nothing {article value}
    (truth : value -> bool) (of_env : option pystr -> value)
    (verdict : nat -> option pystr) (config : gmap string value)
    (env : gmap string pystr)
    (respond : pystr -> Z -> option (list article))
    (num_articles : Z) (category : pystr) (raw_articles : list article) :
  forallb (get_truthy truth config) required_keys = true ->
  config !! "model" = None ->
  respond category (page_size num_articles) = Some raw_articles ->
  raw_articles <> [] ->
  fetch_trending_news verdict
    (load_config truth of_env (FileDict config) env) respond
    num_articles category true
  = Fetched 0 []
  /\ fetch_trending_news verdict
       (load_config truth of_env (FileDict config) env) respond
       num_articles category false
     = Fetched 0 (slice_to num_articles raw_articles).
Proof.
  intros Hk Hm Hr Hne. unfold load_config, read_config.
  rewrite (first_missing_truthy truth config required_keys Hk).
  unfold fetch_trending_news, select_articles. rewrite Hr.
  destruct raw_articles as [|a raw]; [done|].
  simpl. by rewrite Hm.
Qed.

Lemma file_without_model_fetches_nothing_witness :
  fetch_trending_news (fun _ => Some (s2p "YES"))
    (load_config val_truthy env_value
       (FileDict (<["openai_api_key" := PyStr (s2p "k")]>
                 (<["news_api_key" := PyStr (s2p "n")]>
                 (<["note_email" := PyStr (s2p "e")]>
                 (<["note_password" := PyStr (s2p "p")]> ∅)))))
       ∅)
    (fun _ _ => Some [10; 11]) 1 (s2p "general") true
  = Fetched 0 [].
Proof.
  apply (file_without_model_fetches_nothing val_truthy env_value
           (fun _ => Some (s2p "YES"))
           (<["openai_api_key" := PyStr (s2p "k")]>
           (<["news_api_key" := PyStr (s2p "n")]>
           (<["note_email" := PyStr (s2p "e")]>
           (<["note_password" := PyStr (s2p "p")]> ∅))))
           ∅ (fun _ _ => Some [10; 11]) 1 (s2p "general") [10; 11]);
    [reflexivity | reflexivity | reflexivity | done].
Defined.
